(** * Velt-Core: search highlighting and line transformations of [VeltEditor]

    A shallow embedding of the search layer and of the line-oriented
    commands of [src/core/VeltEditor.ts], with the properties of the
    specification stated and settled against it.

    Conventions.
    - A JavaScript string is a list of code units; the development keeps
      to the code units below 256, so a code unit is an [ascii]. The
      literal search is modelled a second time on UTF-16 code units
      ([string16]), where the lower case of a string can be longer than
      the string.
    - A document is its content string ([doc.toString()]); the lines of a
      document are the pieces between line feeds. The editor stores
      every line break as a line feed: its documents hold no CR
      ([editorState]).
    - A command reads an editor state and hands at most one transaction to
      [view.dispatch]: it returns [None] when it dispatches nothing.
      [dispatch] is the state the transaction describes, [viewDispatch]
      is the call in the editor, which refuses a transaction that does
      not fit the document.
    - A loop runs on fuel; [array.push] throws on a full array.
    - The regular-expression engine and the collation order are the
      host's: they are interfaces ([RegExpEngine], [Collator]). *)

From Stdlib Require Import Ascii String.
From Stdlib Require Import List ZArith Lia Bool Arith PeanoNat.
From Stdlib Require Import QArith Qminmax.
From Stdlib Require Import Sorted Permutation.
Import ListNotations.

Local Open Scope nat_scope.
Local Open Scope list_scope.

(* ================================================================== *)
(** * Part I: definitions                                              *)
(* ================================================================== *)

(** ** Strings *)

Definition jsstring := list ascii.

(** A string literal as a list of code units. *)
Definition str (s : string) : jsstring := list_ascii_of_string s.

Definition CR : ascii := ascii_of_nat 13.
Definition LF : ascii := ascii_of_nat 10.
Definition TAB : ascii := ascii_of_nat 9.
Definition SPACE : ascii := ascii_of_nat 32.

Definition isCR (c : ascii) : bool := Ascii.eqb c CR.
Definition isLF (c : ascii) : bool := Ascii.eqb c LF.

Definition streq (a b : jsstring) : bool :=
  if list_eq_dec ascii_dec a b then true else false.

(** [s.startsWith(p)] *)
Fixpoint startsWith (p s : jsstring) : bool :=
  match p, s with
  | [], _ => true
  | _ :: _, [] => false
  | a :: p', b :: s' => Ascii.eqb a b && startsWith p' s'
  end.

(** [s.indexOf(p)]: the least offset at which [p] occurs; [None] is the
    source's -1. The result is relative to the start of [s]. *)
Fixpoint indexOf0 (p s : jsstring) : option nat :=
  if startsWith p s then Some 0
  else match s with
       | [] => None
       | _ :: s' => option_map S (indexOf0 p s')
       end.

(** [s.indexOf(p, pos)]: a start beyond the end is clamped to the end. *)
Definition indexOf (p s : jsstring) (pos : nat) : option nat :=
  option_map (fun k => Nat.min pos (length s) + k) (indexOf0 p (skipn pos s)).

(** [s.includes(p)] *)
Definition includes (p s : jsstring) : bool :=
  match indexOf0 p s with Some _ => true | None => false end.

(** [s.substring(a)] and [s.substring(a, b)] for [a <= b]. *)
Definition substringFrom (a : nat) (s : jsstring) : jsstring := skipn a s.
Definition substring (a b : nat) (s : jsstring) : jsstring :=
  firstn (b - a) (skipn a s).

(** ** Line endings (convertToLF, convertToCRLF, detectLineEnding) *)

(** [s.replace(/\r\n/g, '\n')] *)
Fixpoint replaceCRLFbyLF (s : jsstring) : jsstring :=
  match s with
  | [] => []
  | c :: r =>
      if isCR c then
        match r with
        | d :: r' => if isLF d then LF :: replaceCRLFbyLF r'
                     else c :: replaceCRLFbyLF r
        | [] => c :: replaceCRLFbyLF r
        end
      else c :: replaceCRLFbyLF r
  end.

(** [s.replace(/c/g, rep)] for a one-unit pattern [c]. *)
Fixpoint replaceUnit (c : ascii) (rep : jsstring) (s : jsstring) : jsstring :=
  match s with
  | [] => []
  | d :: r => if Ascii.eqb d c then rep ++ replaceUnit c rep r
              else d :: replaceUnit c rep r
  end.

(** [content.replace(/\r\n/g, '\n').replace(/\r/g, '\n')] *)
Definition normalizeToLF (content : jsstring) : jsstring :=
  replaceUnit CR [LF] (replaceCRLFbyLF content).

Inductive LineEnding := LE_LF | LE_CRLF | LE_CR | LE_MIXED.

Record TerminatorCounts := { crlfCount : Z; crCount : Z; lfCount : Z }.

(** The counting loop of [detectLineEnding]: a CR directly followed by a
    LF counts once, as CRLF, and the LF is skipped. *)
Fixpoint countTerminators (s : jsstring) (n : TerminatorCounts) : TerminatorCounts :=
  match s with
  | [] => n
  | c :: r =>
      if isCR c then
        match r with
        | d :: r' =>
            if isLF d
            then countTerminators r' {| crlfCount := crlfCount n + 1;
                                        crCount := crCount n; lfCount := lfCount n |}
            else countTerminators r {| crlfCount := crlfCount n;
                                       crCount := crCount n + 1; lfCount := lfCount n |}
        | [] => countTerminators r {| crlfCount := crlfCount n;
                                      crCount := crCount n + 1; lfCount := lfCount n |}
        end
      else if isLF c
      then countTerminators r {| crlfCount := crlfCount n;
                                 crCount := crCount n; lfCount := lfCount n + 1 |}
      else countTerminators r n
  end.

(** [(count / total) * 100], as an exact rational. On counts below 2^53
    the double the source computes exceeds 10 exactly when this rational
    does, and is 0 exactly when the count is 0. *)
Definition percent (count total : Z) : Q :=
  (inject_Z count / inject_Z total) * inject_Z 100.

Definition present (count : Z) : Z := if (count >? 0)%Z then 1%Z else 0%Z.

Definition detectLineEndingOf (content : jsstring) : LineEnding :=
  let hasCRLF := includes [CR; LF] content in
  let hasCR := includes [CR] content && negb (includes [CR; LF] content) in
  let hasLF := includes [LF] content && negb (includes [CR; LF] content) in
  if negb hasCRLF && negb hasCR && negb hasLF then LE_LF
  else
    let n := countTerminators content {| crlfCount := 0; crCount := 0; lfCount := 0 |} in
    let total := (crlfCount n + crCount n + lfCount n)%Z in
    if (total =? 0)%Z then LE_LF
    else
      let crlfPercent := percent (crlfCount n) total in
      let crPercent := percent (crCount n) total in
      let lfPercent := percent (lfCount n) total in
      let typesPresent :=
        fold_left Z.add [present (crlfCount n); present (crCount n); present (lfCount n)] 0%Z in
      if (typesPresent >? 1)%Z
         && negb (Qle_bool (Qmin crlfPercent (Qmin crPercent lfPercent)) (inject_Z 10))
      then LE_MIXED
      else if (crlfCount n >=? crCount n)%Z && (crlfCount n >=? lfCount n)%Z then LE_CRLF
      else if (crCount n >=? lfCount n)%Z then LE_CR
      else LE_LF.

(** ** Whitespace, case and trimming *)

(** The white space of [\s] and of [trim()] among the code units below
    256: TAB, LF, VT, FF, CR, SPACE and NBSP. *)
Definition isSpace (c : ascii) : bool :=
  let n := nat_of_ascii c in
  ((9 <=? n) && (n <=? 13)) || (n =? 32) || (n =? 160).

(** [toLowerCase()] on one code unit below 256: A-Z and the capital
    letters of Latin-1 (0xC0-0xDE but for the multiplication sign). *)
Definition lowerUnit (c : ascii) : ascii :=
  let n := nat_of_ascii c in
  if ((65 <=? n) && (n <=? 90))
     || ((192 <=? n) && (n <=? 222) && negb (n =? 215))
  then ascii_of_nat (n + 32) else c.

Definition toLowerCase (s : jsstring) : jsstring := map lowerUnit s.

Fixpoint takeWhile (f : ascii -> bool) (s : jsstring) : jsstring :=
  match s with
  | [] => []
  | c :: r => if f c then c :: takeWhile f r else []
  end.

Fixpoint dropWhile (f : ascii -> bool) (s : jsstring) : jsstring :=
  match s with
  | [] => []
  | c :: r => if f c then dropWhile f r else s
  end.

(** [s.trim()] *)
Definition trim (s : jsstring) : jsstring :=
  rev (dropWhile isSpace (rev (dropWhile isSpace s))).

(** [s.match(/^\s*/)[0]] *)
Definition leadingWhitespace (s : jsstring) : jsstring := takeWhile isSpace s.

(** [s.replace(/^\s/, '')] *)
Definition dropOneSpace (s : jsstring) : jsstring :=
  match s with
  | c :: r => if isSpace c then r else s
  | [] => []
  end.

(** ** Documents, lines and selections *)

(** What the host's document can refuse: a position or a line number
    outside the document ([RangeError]). *)
Inductive outcome (A : Type) : Type :=
| Done (a : A)
| RangeError.
Arguments Done {A} a.
Arguments RangeError {A}.

Definition bind {A B : Type} (m : outcome A) (k : A -> outcome B) : outcome B :=
  match m with
  | Done a => k a
  | RangeError => RangeError
  end.

Notation "x <- m ;; k" := (bind m (fun x => k))
  (at level 61, m at next level, right associativity).

(** The lines of a document: the pieces between line feeds. *)
Fixpoint splitLines (s : jsstring) : list jsstring :=
  match s with
  | [] => [[]]
  | c :: r =>
      if isLF c then [] :: splitLines r
      else match splitLines r with
           | l :: ls => (c :: l) :: ls
           | [] => [[c]]
           end
  end.

(** [lines.join('\n')] *)
Fixpoint joinLines (ls : list jsstring) : jsstring :=
  match ls with
  | [] => []
  | l :: ls' =>
      match ls' with
      | [] => l
      | _ :: _ => l ++ LF :: joinLines ls'
      end
  end.

(** The lines before a line, each with its line feed, and the lines
    after a line, each after its line feed, as they lie in the document. *)
Definition linesBefore (ls : list jsstring) : jsstring :=
  flat_map (fun l => l ++ [LF]) ls.

Definition linesAfter (ls : list jsstring) : jsstring :=
  flat_map (fun l => LF :: l) ls.

Definition noLF (l : jsstring) : Prop := ~ In LF l.

Record Line := { from : nat; to : nat; number : nat; text : jsstring }.

(** Offset of the start of the line of (0-based) index [k]. *)
Fixpoint lineStart (ls : list jsstring) (k : nat) : nat :=
  match k, ls with
  | S k', l :: ls' => length l + 1 + lineStart ls' k'
  | _, _ => 0
  end.

(** (0-based) index of the line holding offset [pos]; the end of a line
    belongs to it. *)
Fixpoint lineIndexAt (ls : list jsstring) (pos : nat) : option nat :=
  match ls with
  | [] => None
  | l :: ls' =>
      if pos <=? length l then Some 0
      else option_map S (lineIndexAt ls' (pos - length l - 1))
  end.

(** [doc.lines] *)
Definition lineCount (d : jsstring) : nat := length (splitLines d).

(** [doc.line(n)], 1-based. *)
Definition line (d : jsstring) (n : nat) : outcome Line :=
  if (1 <=? n) && (n <=? lineCount d) then
    let t := nth (n - 1) (splitLines d) [] in
    let f := lineStart (splitLines d) (n - 1) in
    Done {| from := f; to := f + length t; number := n; text := t |}
  else RangeError.

(** [doc.lineAt(pos)] *)
Definition lineAt (d : jsstring) (pos : Z) : outcome Line :=
  if (pos <? 0)%Z then RangeError
  else match lineIndexAt (splitLines d) (Z.to_nat pos) with
       | Some k => line d (S k)
       | None => RangeError
       end.

Record Selection := { anchor : Z; head : Z }.

(** [selection.main.from], [.to] and [.empty] *)
Definition selFrom (s : Selection) : Z := Z.min (anchor s) (head s).
Definition selTo (s : Selection) : Z := Z.max (anchor s) (head s).
Definition selEmpty (s : Selection) : bool := (anchor s =? head s)%Z.

Record EditorState := {
  doc : jsstring;
  selection : Selection;
  currentLanguage : option jsstring
}.

(** A selection of the state lies inside its document. *)
Definition wellFormed (st : EditorState) : Prop :=
  (0 <= anchor (selection st) <= Z.of_nat (length (doc st)))%Z /\
  (0 <= head (selection st) <= Z.of_nat (length (doc st)))%Z.

Record Change := { chFrom : nat; chTo : nat; insert : jsstring }.

Record Transaction := { changes : list Change; newSelection : Selection }.

(** The changes of one transaction all refer to the document before it;
    they are applied in ascending order. [pos] is the offset at which
    [s], the rest of the old document, starts. *)
Fixpoint applyChanges (pos : nat) (cs : list Change) (s : jsstring) : jsstring :=
  match cs with
  | [] => s
  | c :: cs' =>
      firstn (chFrom c - pos) s ++ insert c
        ++ applyChanges (chTo c) cs' (skipn (chTo c - pos) s)
  end.

(** [view.dispatch({changes, selection})] *)
Definition dispatch (st : EditorState) (tr : Transaction) : EditorState :=
  {| doc := applyChanges 0 (changes tr) (doc st);
     selection := newSelection tr;
     currentLanguage := currentLanguage st |}.

(** A command run to its end: the state after what it dispatched. *)
Definition run (cmd : EditorState -> outcome (option Transaction))
    (st : EditorState) : outcome EditorState :=
  r <- cmd st ;;
  Done (match r with
        | Some tr => dispatch st tr
        | None => st
        end).

(** ** The editor's own checks

    [dispatch] is the state a transaction describes. The editor keeps
    its document as lines: the content it is created with and every
    inserted text is split on [\r\n?|\n], and [doc.toString()] joins
    the lines with [\n], so that the content the commands read never
    holds a CR. And [view.dispatch] refuses, with a [RangeError] and
    without applying anything, a change that does not lie in the
    document and a selection that does not lie in the new document: the
    transaction checks that the selection does not end after the
    document, and the [closeBrackets()] field that the editor installs
    asks for the line of the head ([doc.lineAt]), which fails on an
    offset before the document. *)

Definition noCR (s : jsstring) : Prop := ~ In CR s.

(** The text the document holds for an inserted string. *)
Definition storedText (s : jsstring) : jsstring := normalizeToLF s.

Definition storedChange (c : Change) : Change :=
  {| chFrom := chFrom c; chTo := chTo c; insert := storedText (insert c) |}.

(** A change lies in a document of length [len]: [from <= to <= len]. *)
Definition changeInRange (len : nat) (c : Change) : bool :=
  (chFrom c <=? chTo c) && (chTo c <=? len).

(** A selection lies in a document of length [len]. *)
Definition selectionInRange (len : nat) (s : Selection) : bool :=
  (0 <=? selFrom s)%Z && (selTo s <=? Z.of_nat len)%Z.

(** [view.dispatch({changes, selection})] as the editor runs it, for
    changes in ascending order, as the commands give them: [RangeError]
    is the exception of the call, which leaves the state as it was. *)
Definition viewDispatch (st : EditorState) (tr : Transaction) : outcome EditorState :=
  if forallb (changeInRange (length (doc st))) (changes tr) then
    let d := applyChanges 0 (map storedChange (changes tr)) (doc st) in
    if selectionInRange (length d) (newSelection tr)
    then Done {| doc := d; selection := newSelection tr;
                 currentLanguage := currentLanguage st |}
    else RangeError
  else RangeError.

(** A command run to its end in the editor. *)
Definition viewRun (cmd : EditorState -> outcome (option Transaction))
    (st : EditorState) : outcome EditorState :=
  r <- cmd st ;;
  match r with
  | Some tr => viewDispatch st tr
  | None => Done st
  end.

(** The states of the editor: no CR in the document, the selection in
    the document. *)
Definition editorState (st : EditorState) : Prop :=
  noCR (doc st) /\ wellFormed st.

(** The state [new VeltEditor({content, language})] starts with:
    [EditorState.create({doc: options.content || ''})], the cursor at
    0. *)
Definition createState (content : jsstring) (language : option jsstring)
  : EditorState :=
  {| doc := storedText content; selection := {| anchor := 0; head := 0 |};
     currentLanguage := language |}.

(** ** toggleLineComment *)

Definition langIn (names : list string) (lang : jsstring) : bool :=
  existsb (fun n => streq (str n) lang) names.

Definition getCommentSyntax (st : EditorState) : jsstring :=
  let lang := match currentLanguage st with
              | Some l => toLowerCase l
              | None => []
              end in
  if langIn ["javascript"; "typescript"; "jsx"; "tsx"; "c"; "cpp"; "java"; "rust";
             "go"; "swift"; "kotlin"; "csharp"; "php"]%string lang
  then str "//"
  else if langIn ["python"; "ruby"; "bash"; "shell"; "yaml"; "yml"; "perl"; "r"]%string lang
  then str "#"
  else if langIn ["html"; "xml"]%string lang then str "<!--"
  else if langIn ["css"; "scss"; "sass"; "less"]%string lang then str "/*"
  else if langIn ["sql"]%string lang then str "--"
  else str "//".

(** A marker is free of white space when none of its code units is
    white space and it has at least one. *)
Definition spaceFree (m : jsstring) : bool :=
  negb (streq m []) && forallb (fun c => negb (isSpace c)) m.

(** The new text of a line under [toggleLineComment] with marker
    [commentChar]. *)
Definition toggledText (commentChar lineText : jsstring) : jsstring :=
  let trimmed := trim lineText in
  if startsWith commentChar trimmed then
    match indexOf commentChar lineText 0 with
    | Some commentIndex =>
        substring 0 commentIndex lineText
          ++ dropOneSpace (substringFrom (commentIndex + length commentChar) lineText)
    | None =>
        (* indexOf gives -1: substring(0, -1) is empty and
           substring(-1 + length) starts at length - 1 *)
        dropOneSpace (substringFrom (length commentChar - 1) lineText)
    end
  else
    let indent := leadingWhitespace lineText in
    indent ++ commentChar ++ [SPACE] ++ substringFrom (length indent) lineText.

Definition toggleLineComment (st : EditorState) : outcome (option Transaction) :=
  let sel := selection st in
  ln <- lineAt (doc st) (selFrom sel) ;;
  let commentChar := getCommentSyntax st in
  match commentChar with
  | [] => Done None
  | _ :: _ =>
      let lineText := text ln in
      let newText := toggledText commentChar lineText in
      let delta := (Z.of_nat (length commentChar) + 1)%Z in
      let a := if startsWith commentChar (trim lineText)
               then (selFrom sel - delta)%Z else (selFrom sel + delta)%Z in
      Done (Some {| changes := [{| chFrom := from ln; chTo := to ln; insert := newText |}];
                    newSelection := {| anchor := a; head := a |} |})
  end.

(** ** outdentSelection *)

(** The loop over the lines [i .. i + count - 1]: the changes collected
    so far and the number of characters removed. *)
Fixpoint outdentLoop (d : jsstring) (i count : nat) (acc : list Change * Z)
  : outcome (list Change * Z) :=
  match count with
  | 0 => Done acc
  | S count' =>
      ln <- line d i ;;
      let lineText := text ln in
      let (chs, totalRemoved) := acc in
      let acc' :=
        if startsWith (str "  ") lineText
        then (chs ++ [{| chFrom := from ln; chTo := from ln + 2; insert := [] |}],
              (totalRemoved + 2)%Z)
        else if startsWith [TAB] lineText
        then (chs ++ [{| chFrom := from ln; chTo := from ln + 1; insert := [] |}],
              (totalRemoved + 1)%Z)
        else if startsWith [SPACE] lineText
        then (chs ++ [{| chFrom := from ln; chTo := from ln + 1; insert := [] |}],
              (totalRemoved + 1)%Z)
        else acc in
      outdentLoop d (S i) count' acc'
  end.

Definition outdentSelection (st : EditorState) : outcome (option Transaction) :=
  let sel := selection st in
  startLine <- lineAt (doc st) (selFrom sel) ;;
  endLine <- lineAt (doc st) (selTo sel) ;;
  r <- outdentLoop (doc st) (number startLine)
         (S (number endLine) - number startLine) ([], 0%Z) ;;
  let (chs, totalRemoved) := r in
  match chs with
  | [] => Done None
  | _ :: _ =>
      Done (Some {| changes := chs;
                    newSelection :=
                      {| anchor := Z.max (Z.of_nat (from startLine))
                                         (selFrom sel - totalRemoved);
                         head := (selTo sel - totalRemoved)%Z |} |})
  end.

(** ** sortLinesAscending, sortLinesDescending *)

(** The host's collation: [a.localeCompare(b)] is negative, zero or
    positive. *)
Class Collator := { localeCompare : jsstring -> jsstring -> Z }.

(** A comparator that orders any two strings, and does so transitively. *)
Definition consistentComparator (cmp : jsstring -> jsstring -> Z) : Prop :=
  (forall a b, (cmp a b <= 0)%Z \/ (cmp b a <= 0)%Z)
  /\ (forall a b c, (cmp a b <= 0)%Z -> (cmp b c <= 0)%Z -> (cmp a c <= 0)%Z).

(** [Array.prototype.sort(cmp)] is stable. For a comparator that orders
    the strings consistently its result is the one stable sorted
    arrangement, which insertion from the right computes. *)
Fixpoint insertSorted (cmp : jsstring -> jsstring -> Z) (x : jsstring)
    (l : list jsstring) : list jsstring :=
  match l with
  | [] => [x]
  | y :: l' => if (cmp x y <=? 0)%Z then x :: l else y :: insertSorted cmp x l'
  end.

Definition arraySort (cmp : jsstring -> jsstring -> Z) (l : list jsstring)
  : list jsstring :=
  fold_right (insertSorted cmp) [] l.

(** [lines.some((line, index) => line !== sortedLines[index])], from
    index [i] on; a missing element of [sortedLines] is [undefined]. *)
Fixpoint someDiffers (lines sortedLines : list jsstring) (i : nat) : bool :=
  match lines with
  | [] => false
  | l :: rest =>
      match nth_error sortedLines i with
      | Some l' => negb (streq l l') || someDiffers rest sortedLines (S i)
      | None => true
      end
  end.

(** The texts of the lines [i .. i + count - 1]. *)
Fixpoint collectLines (d : jsstring) (i count : nat) : outcome (list jsstring) :=
  match count with
  | 0 => Done []
  | S count' =>
      ln <- line d i ;;
      rest <- collectLines d (S i) count' ;;
      Done (text ln :: rest)
  end.

(** The affected line range: the lines of the selection, or the whole
    document when the selection is empty. *)
Definition lineRange (st : EditorState) : outcome (nat * nat) :=
  let sel := selection st in
  if selEmpty sel then Done (1, lineCount (doc st))
  else
    s <- lineAt (doc st) (selFrom sel) ;;
    e <- lineAt (doc st) (selTo sel) ;;
    Done (number s, number e).

Definition sortLinesWith (cmp : jsstring -> jsstring -> Z) (st : EditorState)
  : outcome (option Transaction) :=
  r <- lineRange st ;;
  let (startLine, endLine) := r in
  lines <- collectLines (doc st) startLine (S endLine - startLine) ;;
  let sortedLines := arraySort cmp lines in
  if negb (someDiffers lines sortedLines 0) then Done None
  else
    s <- line (doc st) startLine ;;
    e <- line (doc st) endLine ;;
    let fromPos := from s in
    let toPos := to e in
    let sortedText := joinLines sortedLines in
    Done (Some {| changes := [{| chFrom := fromPos; chTo := toPos; insert := sortedText |}];
                  newSelection :=
                    {| anchor := Z.of_nat fromPos;
                       head := Z.of_nat (fromPos + length sortedText) |} |}).

Definition sortLinesAscending {C : Collator} : EditorState -> outcome (option Transaction) :=
  sortLinesWith (fun a b => localeCompare a b).

Definition sortLinesDescending {C : Collator} : EditorState -> outcome (option Transaction) :=
  sortLinesWith (fun a b => localeCompare b a).

(** ** convertToLF, convertToCRLF, detectLineEnding *)

Definition replaceWholeDocument (st : EditorState) (convertedContent : jsstring)
  : outcome (option Transaction) :=
  let content := doc st in
  if streq content convertedContent then Done None
  else Done (Some {| changes := [{| chFrom := 0; chTo := length content;
                                    insert := convertedContent |}];
                     newSelection := selection st |}).

Definition convertToLF (st : EditorState) : outcome (option Transaction) :=
  replaceWholeDocument st (normalizeToLF (doc st)).

Definition convertToCRLF (st : EditorState) : outcome (option Transaction) :=
  replaceWholeDocument st (replaceUnit LF [CR; LF] (normalizeToLF (doc st))).

Definition convertToCR (st : EditorState) : outcome (option Transaction) :=
  replaceWholeDocument st (replaceUnit LF [CR] (normalizeToLF (doc st))).

Definition detectLineEnding (st : EditorState) : LineEnding :=
  detectLineEndingOf (doc st).

(** ** The search layer *)

(** A computation of the search layer: it returns, throws (and the
    source catches it), or is still looping when the fuel is spent. *)
Inductive comp (A : Type) : Type :=
| Ret (a : A)
| Throw
| OutOfFuel.
Arguments Ret {A} a.
Arguments Throw {A}.
Arguments OutOfFuel {A}.

Definition cbind {A B : Type} (m : comp A) (k : A -> comp B) : comp B :=
  match m with
  | Ret a => k a
  | Throw => Throw
  | OutOfFuel => OutOfFuel
  end.

Notation "x <~ m ;; k" := (cbind m (fun x => k))
  (at level 61, m at next level, right associativity).

(** [try { m } catch (e) { h }] *)
Definition tryCatch {A : Type} (m : comp A) (h : comp A) : comp A :=
  match m with
  | Throw => h
  | _ => m
  end.

(** The greatest length of an array, 2^32 - 1. An engine may refuse to
    grow an array earlier, with the same [RangeError]; nothing below
    depends on the value. *)
Definition maxArrayLength : Z := 4294967295.

(** [array.push(x)]: a [RangeError] on an array that is full. *)
Definition push {A : Type} (array : list A) (x : A) : comp (list A) :=
  if (Z.of_nat (length array) <? maxArrayLength)%Z then Ret (array ++ [x])
  else Throw.

(** The host's regular expressions. A compiled pattern is a matcher:
    tried on a string at one index it fails or gives the index at which
    the match ends. [RegExp_new pattern flags] is [new RegExp(pattern,
    flags)]; [None] is its [SyntaxError]. *)
Definition Matcher := jsstring -> nat -> option nat.

Class RegExpEngine := { RegExp_new : jsstring -> jsstring -> option Matcher }.

Definition newRegExp {E : RegExpEngine} (pattern flags : jsstring) : comp Matcher :=
  match RegExp_new pattern flags with
  | Some m => Ret m
  | None => Throw
  end.

(** A matcher that succeeds at every index of [s], as the matcher of a
    pattern that matches the empty string does. *)
Definition matchesEverywhere (m : Matcher) (s : jsstring) : Prop :=
  forall i, i <= length s -> exists e, m s i = Some e /\ i <= e <= length s.

(** The first index from [i] on, among [n + 1] of them, at which the
    matcher succeeds, with the end of the match. *)
Fixpoint scanFrom (m : Matcher) (s : jsstring) (i n : nat) : option (nat * nat) :=
  match m s i with
  | Some e => Some (i, e)
  | None =>
      match n with
      | 0 => None
      | S n' => scanFrom m s (S i) n'
      end
  end.

(** [regex.exec(s)] of a global regex whose [lastIndex] is [lastIndex]:
    the match (its index and its end) and the new [lastIndex], which is
    the end of the match, or 0 after a failure. *)
Definition exec (m : Matcher) (s : jsstring) (lastIndex : nat)
  : option (nat * nat) * nat :=
  if length s <? lastIndex then (None, 0)
  else match scanFrom m s lastIndex (length s - lastIndex) with
       | Some (i, e) => (Some (i, e), e)
       | None => (None, 0)
       end.

Record MatchSpan := { spanFrom : nat; spanTo : nat }.

(** [while ((match = regex.exec(text)) !== null) matches.push({from, to})] *)
Fixpoint execLoopSpans (fuel : nat) (m : Matcher) (text : jsstring)
    (lastIndex : nat) (matches : list MatchSpan) : comp (list MatchSpan) :=
  match fuel with
  | 0 => OutOfFuel
  | S fuel' =>
      match exec m text lastIndex with
      | (None, _) => Ret matches
      | (Some (index, e), lastIndex') =>
          let from := index in
          let to := from + (e - index) in
          matches' <~ push matches {| spanFrom := from; spanTo := to |} ;;
          execLoopSpans fuel' m text lastIndex' matches'
      end
  end.

(** [while ((match = regex.exec(content)) !== null) matchPositions.push(match.index)] *)
Fixpoint execLoopPositions (fuel : nat) (m : Matcher) (content : jsstring)
    (lastIndex : nat) (matchPositions : list nat) : comp (list nat) :=
  match fuel with
  | 0 => OutOfFuel
  | S fuel' =>
      match exec m content lastIndex with
      | (None, _) => Ret matchPositions
      | (Some (index, _), lastIndex') =>
          matchPositions' <~ push matchPositions index ;;
          execLoopPositions fuel' m content lastIndex' matchPositions'
      end
  end.

(** [content.match(regex)] of a global regex, as the number of matches
    (0 for [null]): after an empty match [lastIndex] is advanced by one. *)
Fixpoint matchCount (fuel : nat) (m : Matcher) (content : jsstring)
    (lastIndex count : nat) : comp nat :=
  match fuel with
  | 0 => OutOfFuel
  | S fuel' =>
      match exec m content lastIndex with
      | (None, _) => Ret count
      | (Some (index, e), lastIndex') =>
          matchCount fuel' m content
            (if e - index =? 0 then S lastIndex' else lastIndex') (S count)
      end
  end.

(** The syntax characters [escapeRegExp] escapes: [.*+?^${}()|[\]\\] *)
Definition isSyntaxChar (c : ascii) : bool :=
  existsb (Ascii.eqb c) (str ".*+?^${}()|[]\").

Definition BACKSLASH : ascii := ascii_of_nat 92.

(** [string.replace(/[.*+?^${}()|[\]\\]/g, '\\$&')] *)
Definition escapeRegExp (s : jsstring) : jsstring :=
  flat_map (fun c => if isSyntaxChar c then [BACKSLASH; c] else [c]) s.

Record SearchOptions := { caseSensitive : bool; regexp : bool; wholeWord : bool }.

(** [`\\b${escaped}\\b`] *)
Definition wordBounded (escaped : jsstring) : jsstring :=
  str "\b" ++ escaped ++ str "\b".

(** [while ((pos = searchContent.indexOf(searchPattern, pos)) !== -1)
     { count++; pos += searchPattern.length }] *)
Fixpoint indexOfLoopCount (fuel : nat) (searchContent searchPattern : jsstring)
    (pos count : nat) : comp nat :=
  match fuel with
  | 0 => OutOfFuel
  | S fuel' =>
      match indexOf searchPattern searchContent pos with
      | None => Ret count
      | Some pos' =>
          indexOfLoopCount fuel' searchContent searchPattern
            (pos' + length searchPattern) (S count)
      end
  end.

(** The same loop with [matchPositions.push(pos)]. *)
Fixpoint indexOfLoopPositions (fuel : nat) (searchContent searchPattern : jsstring)
    (pos : nat) (matchPositions : list nat) : comp (list nat) :=
  match fuel with
  | 0 => OutOfFuel
  | S fuel' =>
      match indexOf searchPattern searchContent pos with
      | None => Ret matchPositions
      | Some pos' =>
          matchPositions' <~ push matchPositions pos' ;;
          indexOfLoopPositions fuel' searchContent searchPattern
            (pos' + length searchPattern) matchPositions'
      end
  end.

Definition gFlags (cs : bool) : jsstring := if cs then str "g" else str "gi".

Definition countMatches {E : RegExpEngine} (fuel : nat) (content searchText : jsstring)
    (options : SearchOptions) : comp nat :=
  match searchText with
  | [] => Ret 0
  | _ :: _ =>
      tryCatch
        (if regexp options then
           regex <~ newRegExp searchText (gFlags (caseSensitive options)) ;;
           matchCount fuel regex content 0 0
         else
           let searchContent :=
             if caseSensitive options then content else toLowerCase content in
           let searchPattern :=
             if caseSensitive options then searchText else toLowerCase searchText in
           if wholeWord options then
             regex <~ newRegExp (wordBounded (escapeRegExp searchPattern))
                        (gFlags (caseSensitive options)) ;;
             matchCount fuel regex content 0 0
           else indexOfLoopCount fuel searchContent searchPattern 0 0)
        (Ret 0)
  end.

(** The loop that picks the current match: the result is 1-based. *)
Fixpoint currentIndexLoop (matchPositions : list nat) (len : nat) (cursorPos : Z)
    (i : nat) : option nat :=
  match matchPositions with
  | [] => None
  | matchPos :: rest =>
      let matchEnd := matchPos + len in
      if (cursorPos >=? Z.of_nat matchPos)%Z && (cursorPos <=? Z.of_nat matchEnd)%Z
      then Some (i + 1)
      else if (cursorPos <? Z.of_nat matchPos)%Z then Some (i + 1)
      else currentIndexLoop rest len cursorPos (S i)
  end.

(** The current match among [matchPositions], each of length [len]; a
    cursor after all of them is at the last one. *)
Definition currentMatchIndex (matchPositions : list nat) (len : nat) (cursorPos : Z)
  : nat :=
  match currentIndexLoop matchPositions len cursorPos 0 with
  | Some k => k
  | None => length matchPositions
  end.

Definition getCurrentMatchIndex {E : RegExpEngine} (fuel : nat) (content : jsstring)
    (cursorPos : Z) (searchText : jsstring) (options : SearchOptions) : comp nat :=
  match searchText with
  | [] => Ret 0
  | _ :: _ =>
      totalMatches <~ countMatches fuel content searchText options ;;
      if totalMatches =? 0 then Ret 0
      else
        tryCatch
          (matchPositions <~
             (if regexp options then
                regex <~ newRegExp searchText (gFlags (caseSensitive options)) ;;
                execLoopPositions fuel regex content 0 []
              else
                let searchContent :=
                  if caseSensitive options then content else toLowerCase content in
                let searchPattern :=
                  if caseSensitive options then searchText else toLowerCase searchText in
                if wholeWord options then
                  regex <~ newRegExp (wordBounded (escapeRegExp searchPattern))
                             (gFlags (caseSensitive options)) ;;
                  execLoopPositions fuel regex content 0 []
                else indexOfLoopPositions fuel searchContent searchPattern 0 []) ;;
           Ret (currentMatchIndex matchPositions (length searchText) cursorPos))
          (Ret 1)
  end.

(** *** What a literal search is to find *)

(** The text as the literal search compares it. *)
Definition foldCase (cs : bool) (s : jsstring) : jsstring :=
  if cs then s else toLowerCase s.

(** [p] matches in [s] at offset [r]. *)
Definition occursAt (p s : jsstring) (r : nat) : bool := startsWith p (skipn r s).

(** The scan of [s] for [p] from offset [pos] on: each match is the
    leftmost one that starts at or after the end of the match before
    it, and after the last one there is none. *)
Inductive leftmostScan (s p : jsstring) : nat -> list nat -> Prop :=
| scan_done (pos : nat) :
    (forall r, pos <= r -> occursAt p s r = false) ->
    leftmostScan s p pos []
| scan_match (pos q : nat) (rest : list nat) :
    pos <= q ->
    occursAt p s q = true ->
    (forall r, pos <= r -> r < q -> occursAt p s r = false) ->
    leftmostScan s p (q + length p) rest ->
    leftmostScan s p pos (q :: rest).

(** The matcher of the regex of an escaped literal: the literal itself,
    compared as the flags say. *)
Definition literalMatcher (cs : bool) (q : jsstring) : Matcher :=
  fun s i =>
    if occursAt (foldCase cs q) (foldCase cs s) i then Some (i + length q) else None.

(** An engine that compiles an escaped literal, without the [i] flag,
    to a matcher of that literal. *)
Definition compilesLiteralsExactly (E : RegExpEngine) : Prop :=
  forall q : jsstring,
  exists m, RegExp_new (escapeRegExp q) (str "g") = Some m
            /\ forall s i, i <= length s -> m s i = literalMatcher true q s i.

Definition spanOf (len p : nat) : MatchSpan := {| spanFrom := p; spanTo := p + len |}.

(** *** The literal search beyond U+00FF

    The strings above are lists of code units below 256, on which
    [toLowerCase] keeps the length. On UTF-16 it does not: U+0130
    becomes the two code units U+0069 U+0307. The literal branch of
    countMatches and getCurrentMatchIndex (no [regexp], no
    [wholeWord]) is written here once more over UTF-16 code units, for
    the code units whose lower case the table below gives. *)

Definition string16 := list N.

Definition units (s : jsstring) : string16 := map N_of_ascii s.

(** [toLowerCase()] of one code unit, where the table knows it: the
    code units below U+0100; U+0130 (capital I with dot above), to
    U+0069 U+0307; U+0307 (combining dot above), to itself; U+212A
    (Kelvin sign), to U+006B. *)
Definition lowerUnit16 (c : N) : option string16 :=
  if (c <? 256)%N then Some [N_of_ascii (lowerUnit (ascii_of_N c))]
  else if (c =? 304)%N then Some [105; 775]%N
  else if (c =? 775)%N then Some [775]%N
  else if (c =? 8490)%N then Some [107]%N
  else None.

Fixpoint toLowerCase16 (s : string16) : option string16 :=
  match s with
  | [] => Some []
  | c :: r =>
      match lowerUnit16 c, toLowerCase16 r with
      | Some l, Some r' => Some (l ++ r')
      | _, _ => None
      end
  end.

Fixpoint startsWith16 (p s : string16) : bool :=
  match p, s with
  | [], _ => true
  | _ :: _, [] => false
  | a :: p', b :: s' => N.eqb a b && startsWith16 p' s'
  end.

Fixpoint indexOf0_16 (p s : string16) : option nat :=
  if startsWith16 p s then Some 0
  else match s with
       | [] => None
       | _ :: s' => option_map S (indexOf0_16 p s')
       end.

Definition indexOf16 (p s : string16) (pos : nat) : option nat :=
  option_map (fun k => Nat.min pos (length s) + k) (indexOf0_16 p (skipn pos s)).

Definition substring16 (a b : nat) (s : string16) : string16 :=
  firstn (b - a) (skipn a s).

(** [while ((pos = searchContent.indexOf(searchPattern, pos)) !== -1)
     { count++; pos += searchPattern.length }] *)
Fixpoint indexOfLoopCount16 (fuel : nat) (searchContent searchPattern : string16)
    (pos count : nat) : comp nat :=
  match fuel with
  | 0 => OutOfFuel
  | S fuel' =>
      match indexOf16 searchPattern searchContent pos with
      | None => Ret count
      | Some pos' =>
          indexOfLoopCount16 fuel' searchContent searchPattern
            (pos' + length searchPattern) (S count)
      end
  end.

(** The same loop with [matchPositions.push(pos)]. *)
Fixpoint indexOfLoopPositions16 (fuel : nat) (searchContent searchPattern : string16)
    (pos : nat) (matchPositions : list nat) : comp (list nat) :=
  match fuel with
  | 0 => OutOfFuel
  | S fuel' =>
      match indexOf16 searchPattern searchContent pos with
      | None => Ret matchPositions
      | Some pos' =>
          matchPositions' <~ push matchPositions pos' ;;
          indexOfLoopPositions16 fuel' searchContent searchPattern
            (pos' + length searchPattern) matchPositions'
      end
  end.

(** [searchContent] and [searchPattern]: the string itself, or its lower
    case when the search ignores case; [None] outside the table. *)
Definition foldCase16 (caseSensitive : bool) (s : string16) : option string16 :=
  if caseSensitive then Some s else toLowerCase16 s.

(** countMatches on its literal branch. *)
Definition literalCount16 (fuel : nat) (content searchText : string16)
    (caseSensitive : bool) : option (comp nat) :=
  match searchText with
  | [] => Some (Ret 0)
  | _ :: _ =>
      match foldCase16 caseSensitive content, foldCase16 caseSensitive searchText with
      | Some searchContent, Some searchPattern =>
          Some (tryCatch (indexOfLoopCount16 fuel searchContent searchPattern 0 0)
                         (Ret 0))
      | _, _ => None
      end
  end.

(** The match positions getCurrentMatchIndex collects on its literal
    branch. *)
Definition literalPositions16 (fuel : nat) (content searchText : string16)
    (caseSensitive : bool) : option (comp (list nat)) :=
  match foldCase16 caseSensitive content, foldCase16 caseSensitive searchText with
  | Some searchContent, Some searchPattern =>
      Some (indexOfLoopPositions16 fuel searchContent searchPattern 0 [])
  | _, _ => None
  end.

(** getCurrentMatchIndex on its literal branch: the positions are those
    found in [searchContent], the cursor is an offset of [content], and
    each match is taken to end [searchText.length] after its position. *)
Definition literalMatchIndex16 (fuel : nat) (content : string16) (cursorPos : Z)
    (searchText : string16) (caseSensitive : bool) : option (comp nat) :=
  match searchText with
  | [] => Some (Ret 0)
  | _ :: _ =>
      match literalCount16 fuel content searchText caseSensitive,
            literalPositions16 fuel content searchText caseSensitive with
      | Some count, Some positions =>
          Some (totalMatches <~ count ;;
                if totalMatches =? 0 then Ret 0
                else
                  tryCatch
                    (matchPositions <~ positions ;;
                     Ret (currentMatchIndex matchPositions (length searchText)
                            cursorPos))
                    (Ret 1))
      | _, _ => None
      end
  end.

(** *** The highlight field and the editor's search state *)

Record CustomSearchQuery := {
  csSearch : jsstring;
  csCaseSensitive : bool;
  csRegexp : bool;
  csWholeWord : bool;
  csCursorPos : Z
}.

(** The query CodeMirror's search extension stores. *)
Record SearchQuery := {
  sqSearch : jsstring;
  sqCaseSensitive : bool;
  sqRegexp : bool;
  sqWholeWord : bool
}.

Inductive StateEffect :=
| setSearchQuery (q : SearchQuery)
| setCustomSearch (q : option CustomSearchQuery).

(** A mark over [decoFrom, decoTo): [cm-searchMatch], and
    [cm-searchMatch-selected] as well when [decoSelected]. *)
Record Decoration := { decoFrom : nat; decoTo : nat; decoSelected : bool }.

Definition DecorationSet := list Decoration.
Definition Decoration_none : DecorationSet := [].

(** [builder.add(from, to, decoration)] for each match, then
    [builder.finish()]: the builder throws on a range that starts before
    the one added last. *)
Fixpoint buildDecorations (cursorPos : Z) (matches : list MatchSpan)
    (lastFrom : option nat) : comp DecorationSet :=
  match matches with
  | [] => Ret []
  | sp :: rest =>
      let isCurrentMatch :=
        (cursorPos >=? Z.of_nat (spanFrom sp))%Z && (cursorPos <=? Z.of_nat (spanTo sp))%Z in
      let sorted := match lastFrom with
                    | Some f => f <=? spanFrom sp
                    | None => true
                    end in
      if sorted then
        ds <~ buildDecorations cursorPos rest (Some (spanFrom sp)) ;;
        Ret ({| decoFrom := spanFrom sp; decoTo := spanTo sp;
                decoSelected := isCurrentMatch |} :: ds)
      else Throw
  end.

(** The match spans [customSearchHighlight] computes for a query. *)
Definition highlightSpans {E : RegExpEngine} (fuel : nat) (text : jsstring)
    (query : CustomSearchQuery) : comp (list MatchSpan) :=
  let flags := gFlags (csCaseSensitive query) in
  regex <~ (if csRegexp query then newRegExp (csSearch query) flags
            else if csWholeWord query
            then newRegExp (wordBounded (escapeRegExp (csSearch query))) flags
            else newRegExp (escapeRegExp (csSearch query)) flags) ;;
  execLoopSpans fuel regex text 0 [].

(** [customSearchHighlight.update] on a transaction without document
    changes: the first [setCustomSearch] effect decides. *)
Fixpoint customSearchHighlight_update {E : RegExpEngine} (fuel : nat)
    (decorations : DecorationSet) (text : jsstring) (effects : list StateEffect)
  : comp DecorationSet :=
  match effects with
  | [] => Ret decorations
  | setSearchQuery _ :: rest =>
      customSearchHighlight_update fuel decorations text rest
  | setCustomSearch None :: _ => Ret Decoration_none
  | setCustomSearch (Some query) :: _ =>
      match csSearch query with
      | [] => Ret Decoration_none
      | _ :: _ =>
          tryCatch
            (matches <~ highlightSpans fuel text query ;;
             buildDecorations (csCursorPos query) matches None)
            (Ret Decoration_none)
      end
  end.

(** The search extension's field: the last [setSearchQuery] effect of
    the transaction. *)
Fixpoint searchQuery_update (q : SearchQuery) (effects : list StateEffect)
  : SearchQuery :=
  match effects with
  | [] => q
  | setSearchQuery q' :: rest => searchQuery_update q' rest
  | setCustomSearch _ :: rest => searchQuery_update q rest
  end.

Record SearchState := {
  editor : EditorState;
  searchQuery : SearchQuery;
  highlights : DecorationSet
}.

(** [view.dispatch({effects, selection})] *)
Definition dispatchEffects {E : RegExpEngine} (fuel : nat) (st : SearchState)
    (effects : list StateEffect) (sel : option Selection) : comp SearchState :=
  let ed := {| doc := doc (editor st);
               selection := match sel with
                            | Some s => s
                            | None => selection (editor st)
                            end;
               currentLanguage := currentLanguage (editor st) |} in
  hl <~ customSearchHighlight_update fuel (highlights st) (doc ed) effects ;;
  Ret {| editor := ed;
         searchQuery := searchQuery_update (searchQuery st) effects;
         highlights := hl |}.

Definition emptyQuery : SearchQuery :=
  {| sqSearch := []; sqCaseSensitive := false; sqRegexp := false; sqWholeWord := false |}.

Definition clearSearch {E : RegExpEngine} (fuel : nat) (st : SearchState) : comp SearchState :=
  dispatchEffects fuel st [setSearchQuery emptyQuery; setCustomSearch None] None.

Record SearchInfo := { count : nat; currentIndex : nat }.

Definition find {E : RegExpEngine} (fuel : nat) (st : SearchState) (searchText : jsstring)
    (options : SearchOptions) : comp (SearchState * SearchInfo) :=
  match searchText with
  | [] =>
      st' <~ clearSearch fuel st ;;
      Ret (st', {| count := 0; currentIndex := 0 |})
  | _ :: _ =>
      let query := {| sqSearch := searchText;
                      sqCaseSensitive := caseSensitive options;
                      sqRegexp := regexp options;
                      sqWholeWord := wholeWord options |} in
      st1 <~ dispatchEffects fuel st [setSearchQuery query]
               (Some (selection (editor st))) ;;
      let cursorPos := selFrom (selection (editor st1)) in
      st2 <~ dispatchEffects fuel st1
               [setCustomSearch (Some {| csSearch := searchText;
                                         csCaseSensitive := caseSensitive options;
                                         csRegexp := regexp options;
                                         csWholeWord := wholeWord options;
                                         csCursorPos := cursorPos |})] None ;;
      matches <~ countMatches fuel (doc (editor st2)) searchText options ;;
      currentIndex <~ getCurrentMatchIndex fuel (doc (editor st2))
                        (selFrom (selection (editor st2))) searchText options ;;
      Ret (st2, {| count := matches; currentIndex := currentIndex |})
  end.

Definition getSearchInfo {E : RegExpEngine} (fuel : nat) (st : SearchState) : comp SearchInfo :=
  let query := searchQuery st in
  match sqSearch query with
  | [] => Ret {| count := 0; currentIndex := 0 |}
  | _ :: _ =>
      let options := {| caseSensitive := sqCaseSensitive query;
                        regexp := sqRegexp query;
                        wholeWord := sqWholeWord query |} in
      count <~ countMatches fuel (doc (editor st)) (sqSearch query) options ;;
      currentIndex <~ getCurrentMatchIndex fuel (doc (editor st))
                        (selFrom (selection (editor st))) (sqSearch query) options ;;
      Ret {| count := count; currentIndex := currentIndex |}
  end.

(** ** A reference engine and a reference collator

    Instances of the two host interfaces, on which the commands can be
    run. The engine covers a fragment of the pattern language: a code
    unit, an escaped syntax character, the star of either, and the word
    boundary [\b]; it rejects every other pattern, among them the ones
    [new RegExp] rejects for a star with nothing to repeat, for a
    backslash at the end, and for an unbalanced bracket. *)

Inductive Piece :=
| PUnit (c : ascii) (star : bool)
| PWordBoundary.

Definition STAR : ascii := "*"%char.

Fixpoint parsePattern (p : jsstring) : option (list Piece) :=
  match p with
  | [] => Some []
  | c :: rest =>
      if Ascii.eqb c BACKSLASH then
        match rest with
        | d :: rest' =>
            if isSyntaxChar d then
              match rest' with
              | x :: rest'' =>
                  if Ascii.eqb x STAR
                  then option_map (cons (PUnit d true)) (parsePattern rest'')
                  else option_map (cons (PUnit d false)) (parsePattern rest')
              | [] => Some [PUnit d false]
              end
            else if Ascii.eqb d "b"%char
            then option_map (cons PWordBoundary) (parsePattern rest')
            else None
        | [] => None
        end
      else if isSyntaxChar c then None
      else
        match rest with
        | x :: rest' =>
            if Ascii.eqb x STAR
            then option_map (cons (PUnit c true)) (parsePattern rest')
            else option_map (cons (PUnit c false)) (parsePattern rest)
        | [] => Some [PUnit c false]
        end
  end.

(** The pattern does not start with a star. *)
Definition headNotStar (x : jsstring) : Prop :=
  match x with
  | c :: _ => Ascii.eqb c STAR = false
  | [] => True
  end.

Definition unitMatches (ignoreCase : bool) (c d : ascii) : bool :=
  if ignoreCase then Ascii.eqb (lowerUnit c) (lowerUnit d) else Ascii.eqb c d.

(** [\w] *)
Definition isWordChar (c : ascii) : bool :=
  let n := nat_of_ascii c in
  ((48 <=? n) && (n <=? 57)) || ((65 <=? n) && (n <=? 90))
  || ((97 <=? n) && (n <=? 122)) || (n =? 95).

Definition isWordAt (c : option ascii) : bool :=
  match c with
  | Some c => isWordChar c
  | None => false
  end.

(** The pieces against the rest [s] of the input, which starts at index
    [i] and follows the code unit [prev]: backtracking, the star greedy. *)
Fixpoint matchPieces (ignoreCase : bool) (ps : list Piece) (prev : option ascii)
    (s : jsstring) (i : nat) {struct ps} : option nat :=
  match ps with
  | [] => Some i
  | PWordBoundary :: ps' =>
      if xorb (isWordAt prev) (isWordAt (hd_error s))
      then matchPieces ignoreCase ps' prev s i
      else None
  | PUnit c false :: ps' =>
      match s with
      | d :: s' =>
          if unitMatches ignoreCase c d
          then matchPieces ignoreCase ps' (Some d) s' (S i)
          else None
      | [] => None
      end
  | PUnit c true :: ps' =>
      (fix star (prev : option ascii) (s : jsstring) (i : nat) {struct s} : option nat :=
         match s with
         | d :: s' =>
             if unitMatches ignoreCase c d then
               match star (Some d) s' (S i) with
               | Some e => Some e
               | None => matchPieces ignoreCase ps' prev s i
               end
             else matchPieces ignoreCase ps' prev s i
         | [] => matchPieces ignoreCase ps' prev s i
         end) prev s i
  end.

Definition pieceMatcher (ignoreCase : bool) (ps : list Piece) : Matcher :=
  fun s i =>
    if length s <? i then None
    else matchPieces ignoreCase ps
           (match i with 0 => None | S j => nth_error s j end) (skipn i s) i.

Definition referenceEngine : RegExpEngine :=
  {| RegExp_new pattern flags :=
       option_map (pieceMatcher (includes (str "i") flags)) (parsePattern pattern) |}.

(** Code units compared one by one, a proper prefix first. *)
Fixpoint compareUnits (a b : jsstring) : Z :=
  match a, b with
  | [], [] => 0%Z
  | [], _ :: _ => (-1)%Z
  | _ :: _, [] => 1%Z
  | x :: a', y :: b' =>
      if nat_of_ascii x <? nat_of_ascii y then (-1)%Z
      else if nat_of_ascii y <? nat_of_ascii x then 1%Z
      else compareUnits a' b'
  end.

Definition referenceCollator : Collator := {| localeCompare := compareUnits |}.

(** ** Documents and states of the examples *)

(** "a\r\nb\r\nc\n" *)
Definition doc_crlf_crlf_lf : jsstring :=
  ["a"; CR; LF; "b"; CR; LF; "c"; LF]%char.

(** "a\nb\n" *)
Definition doc_lf_lf : jsstring := ["a"; LF; "b"; LF]%char.

(** "a\nb\nc\n" *)
Definition doc_a_b_c : jsstring := ["a"; LF; "b"; LF; "c"; LF]%char.

(** The editor on document [d], the cursor at [p], the language [l]. *)
Definition cursorAt (d : jsstring) (p : Z) (l : option jsstring) : EditorState :=
  {| doc := d; selection := {| anchor := p; head := p |}; currentLanguage := l |}.

(** The line "  foo();" of a JavaScript file, the cursor in it. *)
Definition st_foo : EditorState :=
  cursorAt (str "  foo();") 3 (Some (str "JavaScript")).

(** The line "  foo", the cursor at its start. *)
Definition st_indented : EditorState := cursorAt (str "  foo") 0 None.

(** The line "// x" of a JavaScript file, the cursor after the first
    slash. *)
Definition st_commented : EditorState :=
  cursorAt (str "// x") 1 (Some (str "javascript")).

(** The code units of U+0130 followed by "cat cat". *)
Definition dotted_cat_cat : string16 := 304%N :: units (str "cat cat").

(** A search state on document [d], the cursor at [p], nothing searched. *)
Definition searchOn (d : jsstring) (p : Z) : SearchState :=
  {| editor := cursorAt d p None; searchQuery := emptyQuery; highlights := [] |}.

Definition regexOptions : SearchOptions :=
  {| caseSensitive := false; regexp := true; wholeWord := false |}.

Definition literalOptions (cs : bool) : SearchOptions :=
  {| caseSensitive := cs; regexp := false; wholeWord := false |}.

(** The regex query "a*" as the highlight field gets it. *)
Definition starHighlight (cursorPos : Z) : CustomSearchQuery :=
  {| csSearch := str "a*"; csCaseSensitive := false; csRegexp := true;
     csWholeWord := false; csCursorPos := cursorPos |}.

(** The literal query [q] as the highlight field gets it. *)
Definition literalHighlight (q : jsstring) (cs : bool) (cursorPos : Z)
  : CustomSearchQuery :=
  {| csSearch := q; csCaseSensitive := cs; csRegexp := false;
     csWholeWord := false; csCursorPos := cursorPos |}.

(** "b\na\nc\n" *)
Definition doc_b_a_c : jsstring := ["b"; LF; "a"; LF; "c"; LF]%char.

Definition noTerminatorCounts : TerminatorCounts :=
  {| crlfCount := 0; crCount := 0; lfCount := 0 |}.

(** ** Line endings, further *)

(** The document has a line break of some type. *)
Definition hasLineBreak (d : jsstring) : bool :=
  existsb (fun c => isCR c || isLF c) d.

(** The answer of [detectLineEnding] as its counts decide it, once the
    counting loop has run. *)
Definition lineEndingOfCounts (n : TerminatorCounts) : LineEnding :=
  let total := (crlfCount n + crCount n + lfCount n)%Z in
  if (total =? 0)%Z then LE_LF
  else if (present (crlfCount n) + present (crCount n) + present (lfCount n) >? 1)%Z
          && negb (Qle_bool (Qmin (percent (crlfCount n) total)
                               (Qmin (percent (crCount n) total)
                                     (percent (lfCount n) total)))
                            (inject_Z 10))
  then LE_MIXED
  else if (crlfCount n >=? crCount n)%Z && (crlfCount n >=? lfCount n)%Z then LE_CRLF
  else if (crCount n >=? lfCount n)%Z then LE_CR
  else LE_LF.

(** The number of LF code units of a text. *)
Definition countLF (s : jsstring) : Z := Z.of_nat (count_occ ascii_dec s LF).

(** ** removeDuplicateLines, trimTrailingSpaces, removeBlankLines *)

(** [seen.has(line)], the set [seen] as the list of its elements in
    the order they were added. *)
Definition setHas (seen : list jsstring) (l : jsstring) : bool :=
  existsb (streq l) seen.

(** The loop over [lines] that fills [seen] and [uniqueLines]. *)
Fixpoint uniqueLoop (lines : list jsstring) (state : list jsstring * list jsstring)
  : list jsstring * list jsstring :=
  match lines with
  | [] => state
  | l :: rest =>
      let (seen, uniqueLines) := state in
      if negb (setHas seen l)
      then uniqueLoop rest (seen ++ [l], uniqueLines ++ [l])
      else uniqueLoop rest state
  end.

Definition removeDuplicateLines (st : EditorState) : outcome (option Transaction) :=
  r <- lineRange st ;;
  let (startLine, endLine) := r in
  lines <- collectLines (doc st) startLine (S endLine - startLine) ;;
  let uniqueLines := snd (uniqueLoop lines ([], [])) in
  if length uniqueLines =? length lines then Done None
  else
    s <- line (doc st) startLine ;;
    e <- line (doc st) endLine ;;
    let fromPos := from s in
    let toPos := to e in
    let uniqueText := joinLines uniqueLines in
    Done (Some {| changes := [{| chFrom := fromPos; chTo := toPos; insert := uniqueText |}];
                  newSelection :=
                    {| anchor := Z.of_nat fromPos;
                       head := Z.of_nat (fromPos + length uniqueText) |} |}).

Definition isSpaceOrTab (c : ascii) : bool := Ascii.eqb c SPACE || Ascii.eqb c TAB.

(** [s.replace(/[ \t]+$/, '')] *)
Definition trimTrailing (s : jsstring) : jsstring :=
  rev (dropWhile isSpaceOrTab (rev s)).

(** The loop of trimTrailingSpaces over the lines [i .. i + count - 1]. *)
Fixpoint trimLoop (d : jsstring) (i count : nat) (lines : list jsstring)
    (hasChanged : bool) : outcome (list jsstring * bool) :=
  match count with
  | 0 => Done (lines, hasChanged)
  | S count' =>
      ln <- line d i ;;
      let originalLine := text ln in
      let trimmedLine := trimTrailing originalLine in
      trimLoop d (S i) count' (lines ++ [trimmedLine])
        (if negb (streq originalLine trimmedLine) then true else hasChanged)
  end.

Definition trimTrailingSpaces (st : EditorState) : outcome (option Transaction) :=
  r <- lineRange st ;;
  let (startLine, endLine) := r in
  res <- trimLoop (doc st) startLine (S endLine - startLine) [] false ;;
  let (lines, hasChanged) := res in
  if negb hasChanged then Done None
  else
    s <- line (doc st) startLine ;;
    e <- line (doc st) endLine ;;
    let fromPos := from s in
    let toPos := to e in
    let trimmedText := joinLines lines in
    Done (Some {| changes := [{| chFrom := fromPos; chTo := toPos; insert := trimmedText |}];
                  newSelection :=
                    {| anchor := Z.of_nat fromPos;
                       head := Z.of_nat (fromPos + length trimmedText) |} |}).

(** [lineText.trim() === ''] *)
Definition isBlank (l : jsstring) : bool := streq (trim l) [].

(** The loop of removeBlankLines over the lines [i .. i + count - 1]. *)
Fixpoint blankLoop (d : jsstring) (i count : nat) (lines : list jsstring)
    (hasChanged : bool) : outcome (list jsstring * bool) :=
  match count with
  | 0 => Done (lines, hasChanged)
  | S count' =>
      ln <- line d i ;;
      let lineText := text ln in
      if isBlank lineText
      then blankLoop d (S i) count' lines true
      else blankLoop d (S i) count' (lines ++ [lineText]) hasChanged
  end.

Definition removeBlankLines (st : EditorState) : outcome (option Transaction) :=
  r <- lineRange st ;;
  let (startLine, endLine) := r in
  res <- blankLoop (doc st) startLine (S endLine - startLine) [] false ;;
  let (lines, hasChanged) := res in
  if negb hasChanged then Done None
  else
    s <- line (doc st) startLine ;;
    e <- line (doc st) endLine ;;
    let fromPos := from s in
    let toPos := to e in
    let nonBlankText := joinLines lines in
    Done (Some {| changes := [{| chFrom := fromPos; chTo := toPos; insert := nonBlankText |}];
                  newSelection :=
                    {| anchor := Z.of_nat fromPos;
                       head := Z.of_nat (fromPos + length nonBlankText) |} |}).

(** The common shape of these commands: the lines of the range go
    through [f], which gives the new lines, or [None] when it finds
    nothing to change. *)
Definition rangePass (f : list jsstring -> option (list jsstring))
    (st : EditorState) : outcome (option Transaction) :=
  r <- lineRange st ;;
  let (startLine, endLine) := r in
  lines <- collectLines (doc st) startLine (S endLine - startLine) ;;
  match f lines with
  | None => Done None
  | Some newLines =>
      s <- line (doc st) startLine ;;
      e <- line (doc st) endLine ;;
      Done (Some {| changes := [{| chFrom := from s; chTo := to e;
                                   insert := joinLines newLines |}];
                    newSelection :=
                      {| anchor := Z.of_nat (from s);
                         head := Z.of_nat (from s + length (joinLines newLines)) |} |})
  end.

Definition uniqueChange (lines : list jsstring) : option (list jsstring) :=
  let u := snd (uniqueLoop lines ([], [])) in
  if length u =? length lines then None else Some u.

Definition trimChange (lines : list jsstring) : option (list jsstring) :=
  if existsb (fun l => negb (streq l (trimTrailing l))) lines
  then Some (map trimTrailing lines) else None.

Definition blankChange (lines : list jsstring) : option (list jsstring) :=
  if existsb isBlank lines
  then Some (filter (fun l => negb (isBlank l)) lines) else None.

(** The lines a range is left with: an empty text is one empty line. *)
Definition linesLeft (newLines : list jsstring) : list jsstring :=
  match newLines with
  | [] => [[]]
  | _ :: _ => newLines
  end.

(** "a\nb\na\n", "a  \nb\t\n c \n" and "a\n\nb\n  \nc" *)
Definition doc_a_b_a : jsstring := ["a"; LF; "b"; LF; "a"; LF]%char.
Definition doc_trailing : jsstring :=
  ["a"; " "; " "; LF; "b"; TAB; LF; " "; "c"; " "; LF]%char.
Definition doc_blanks : jsstring :=
  ["a"; LF; LF; "b"; LF; " "; " "; LF; "c"]%char.

(** The transaction a command has dispatched (an empty one if none). *)
Definition dispatched (r : outcome (option Transaction)) : Transaction :=
  match r with
  | Done (Some tr) => tr
  | _ => {| changes := []; newSelection := {| anchor := 0; head := 0 |} |}
  end.

(** ** duplicateLine, deleteLine, moveLineUp, moveLineDown *)

(** The selection with anchor and head at [p]. *)
Definition cursor (p : Z) : Selection := {| anchor := p; head := p |}.

(** [state.doc.sliceString(from, to)] for offsets inside the document. *)
Definition sliceString (d : jsstring) (a b : Z) : jsstring :=
  substring (Z.to_nat a) (Z.to_nat b) d.

Definition duplicateLine (st : EditorState) : outcome (option Transaction) :=
  let sel := selection st in
  ln <- lineAt (doc st) (selFrom sel) ;;
  if selEmpty sel then
    let lineText := text ln in
    let insertPos := to ln in
    let textToInsert := LF :: lineText in
    Done (Some {| changes := [{| chFrom := insertPos; chTo := insertPos;
                                 insert := textToInsert |}];
                  newSelection := cursor (Z.of_nat (insertPos + length textToInsert)) |})
  else
    let selectedText := sliceString (doc st) (selFrom sel) (selTo sel) in
    let insertPos := Z.to_nat (selTo sel) in
    Done (Some {| changes := [{| chFrom := insertPos; chTo := insertPos;
                                 insert := selectedText |}];
                  newSelection :=
                    {| anchor := Z.of_nat insertPos;
                       head := Z.of_nat (insertPos + length selectedText) |} |}).

Definition deleteLine (st : EditorState) : outcome (option Transaction) :=
  let sel := selection st in
  ln <- lineAt (doc st) (selFrom sel) ;;
  let from_ := from ln in
  let to_ := if to ln <? length (doc st) then to ln + 1 else to ln in
  Done (Some {| changes := [{| chFrom := from_; chTo := to_; insert := [] |}];
                newSelection := cursor (Z.of_nat from_) |}).

Definition moveLineUp (st : EditorState) : outcome (option Transaction) :=
  let sel := selection st in
  currentLine <- lineAt (doc st) (selFrom sel) ;;
  if number currentLine =? 1 then Done None
  else
    prevLine <- line (doc st) (number currentLine - 1) ;;
    let currentLineText := text currentLine in
    let prevLineText := text prevLine in
    Done (Some {| changes :=
                    [{| chFrom := from prevLine; chTo := to prevLine;
                        insert := currentLineText |};
                     {| chFrom := from currentLine; chTo := to currentLine;
                        insert := prevLineText |}];
                  newSelection :=
                    cursor (Z.of_nat (from prevLine)
                            + (selFrom sel - Z.of_nat (from currentLine))) |}).

Definition moveLineDown (st : EditorState) : outcome (option Transaction) :=
  let sel := selection st in
  currentLine <- lineAt (doc st) (selFrom sel) ;;
  if number currentLine =? lineCount (doc st) then Done None
  else
    nextLine <- line (doc st) (number currentLine + 1) ;;
    let currentLineText := text currentLine in
    let nextLineText := text nextLine in
    Done (Some {| changes :=
                    [{| chFrom := from currentLine; chTo := to currentLine;
                        insert := nextLineText |};
                     {| chFrom := from nextLine; chTo := to nextLine;
                        insert := currentLineText |}];
                  newSelection :=
                    cursor (Z.of_nat (from nextLine)
                            + (selFrom sel - Z.of_nat (from currentLine))) |}).

(** ** goToLine, getCursorPosition, getDocumentStats, getSelectionInfo *)

Definition goToLine (st : EditorState) (lineNumber : Z) : outcome (option Transaction) :=
  if (lineNumber <? 1)%Z || (lineNumber >? Z.of_nat (lineCount (doc st)))%Z
  then Done None
  else
    ln <- line (doc st) (Z.to_nat lineNumber) ;;
    Done (Some {| changes := [];
                  newSelection := {| anchor := Z.of_nat (from ln);
                                     head := Z.of_nat (from ln) |} |}).

(** [{ line, column }], both 1-based. *)
Definition getCursorPosition (st : EditorState) : outcome (nat * Z) :=
  let pos := head (selection st) in
  ln <- lineAt (doc st) pos ;;
  Done (number ln, (pos - Z.of_nat (from ln) + 1)%Z).

(** [{ lines, chars }] *)
Definition getDocumentStats (st : EditorState) : nat * nat :=
  (lineCount (doc st), length (doc st)).

(** [{ length, text }] *)
Definition getSelectionInfo (st : EditorState) : Z * jsstring :=
  let sel := selection st in
  ((selTo sel - selFrom sel)%Z, sliceString (doc st) (selFrom sel) (selTo sel)).

(** "one\ntwo\nthree" with the cursor in "two", and with "ne\ntw"
    selected. *)
Definition doc_one_two_three : jsstring :=
  ["o"; "n"; "e"; LF; "t"; "w"; "o"; LF; "t"; "h"; "r"; "e"; "e"]%char.
Definition st_in_two : EditorState := cursorAt doc_one_two_three 5 None.
Definition st_selected : EditorState :=
  {| doc := doc_one_two_three; selection := {| anchor := 1; head := 6 |};
     currentLanguage := None |}.

(** The mark the highlight field puts on the match at [p]. *)
Definition decorationOf (cursorPos : Z) (len p : nat) : Decoration :=
  {| decoFrom := p; decoTo := p + len;
     decoSelected := (cursorPos >=? Z.of_nat p)%Z && (cursorPos <=? Z.of_nat (p + len))%Z |}.

(** "concatenate Cat scatter" with the cursor at 12, after a search for
    "cat" that ignores case. *)
Definition cat_search : SearchState := searchOn (str "concatenate Cat scatter") 12.
Definition cat_found : SearchState * SearchInfo :=
  Eval cbv in
    match find (E := referenceEngine) 25 cat_search (str "cat") (literalOptions false) with
    | Ret r => r
    | _ => (cat_search, {| count := 0; currentIndex := 0 |})
    end.

(** ** Bookmarks (bookmarkState, toggleBookmark, nextBookmark,
       previousBookmark, clearBookmarks) *)

(** The editor state with the [bookmarkState] field: a [Set<number>] of
    line numbers, in insertion order and without duplicates. *)
Record BookmarkedState := { bmEditor : EditorState; bookmarks : list nat }.

Inductive BookmarkEffect :=
| toggleBookmarkEffect (line : nat)
| clearBookmarksEffect.

(** [set.has(x)], [set.add(x)] and [set.delete(x)] *)
Definition numHas (x : nat) (s : list nat) : bool := existsb (Nat.eqb x) s.
Definition numAdd (x : nat) (s : list nat) : list nat :=
  if numHas x s then s else s ++ [x].
Definition numDelete (x : nat) (s : list nat) : list nat :=
  filter (fun y => negb (y =? x)) s.

(** [bookmarks.forEach(line => { const pos = doc.line(Math.min(line,
    doc.lines)).from; newBookmarks.add(doc.lineAt(pos).number) })] on
    the document [d] of the new state. *)
Fixpoint mapBookmarks (d : jsstring) (bookmarks newBookmarks : list nat)
  : outcome (list nat) :=
  match bookmarks with
  | [] => Done newBookmarks
  | l :: rest =>
      ln <- line d (Nat.min l (lineCount d)) ;;
      newLine <- lineAt d (Z.of_nat (from ln)) ;;
      mapBookmarks d rest (numAdd (number newLine) newBookmarks)
  end.

(** The loop over the effects of the transaction. *)
Fixpoint bookmarkEffects (newBookmarks : list nat) (effects : list BookmarkEffect)
  : list nat :=
  match effects with
  | [] => newBookmarks
  | toggleBookmarkEffect l :: rest =>
      bookmarkEffects
        (if numHas l newBookmarks then numDelete l newBookmarks
         else numAdd l newBookmarks) rest
  | clearBookmarksEffect :: _ => []
  end.

(** [bookmarkState.update(bookmarks, tr)], [d] being [tr.state.doc]. *)
Definition bookmarkState_update (bookmarks : list nat) (d : jsstring)
    (effects : list BookmarkEffect) : outcome (list nat) :=
  newBookmarks <- mapBookmarks d bookmarks [] ;;
  Done (bookmarkEffects newBookmarks effects).

(** [view.dispatch] of a transaction and of effects, the field
    updated. *)
Definition bmDispatch (st : BookmarkedState) (tr : Transaction)
    (effects : list BookmarkEffect) : outcome BookmarkedState :=
  let ed := dispatch (bmEditor st) tr in
  b <- bookmarkState_update (bookmarks st) (doc ed) effects ;;
  Done {| bmEditor := ed; bookmarks := b |}.

Definition bmDispatchEffects (st : BookmarkedState) (effects : list BookmarkEffect)
  : outcome BookmarkedState :=
  b <- bookmarkState_update (bookmarks st) (doc (bmEditor st)) effects ;;
  Done {| bmEditor := bmEditor st; bookmarks := b |}.

Definition toggleBookmark (st : BookmarkedState) : outcome BookmarkedState :=
  let state := bmEditor st in
  ln <- lineAt (doc state) (head (selection state)) ;;
  bmDispatchEffects st [toggleBookmarkEffect (number ln)].

Definition clearBookmarks (st : BookmarkedState) : outcome BookmarkedState :=
  bmDispatchEffects st [clearBookmarksEffect].

(** [Array.prototype.sort(cmp)] on numbers; the numbers of a set are
    distinct, so that their sorted arrangement is the only one. *)
Fixpoint insertNumber (cmp : nat -> nat -> Z) (x : nat) (l : list nat) : list nat :=
  match l with
  | [] => [x]
  | y :: l' => if (cmp x y <=? 0)%Z then x :: l else y :: insertNumber cmp x l'
  end.

Definition sortNumbers (cmp : nat -> nat -> Z) (l : list nat) : list nat :=
  fold_right (insertNumber cmp) [] l.

(** The jump both commands make: to the first line of the sorted
    bookmarks that [wanted] accepts, or else to the first of them. *)
Definition jumpToBookmark (cmp : nat -> nat -> Z) (wanted : nat -> nat -> bool)
    (st : BookmarkedState) : outcome BookmarkedState :=
  let state := bmEditor st in
  ln <- lineAt (doc state) (head (selection state)) ;;
  let currentLine := number ln in
  match bookmarks st with
  | [] => Done st
  | _ :: _ =>
      let sortedBookmarks := sortNumbers cmp (bookmarks st) in
      let nextLine :=
        match List.find (fun l => wanted l currentLine) sortedBookmarks with
        | Some l => l
        | None => nth 0 sortedBookmarks 0
        end in
      target <- line (doc state) nextLine ;;
      let pos := Z.of_nat (from target) in
      bmDispatch st {| changes := []; newSelection := {| anchor := pos; head := pos |} |} []
  end.

(** [sort((a, b) => a - b)], [find(line => line > currentLine)] *)
Definition nextBookmark : BookmarkedState -> outcome BookmarkedState :=
  jumpToBookmark (fun a b => Z.of_nat a - Z.of_nat b)%Z (fun l cur => cur <? l).

(** [sort((a, b) => b - a)], [find(line => line < currentLine)] *)
Definition previousBookmark : BookmarkedState -> outcome BookmarkedState :=
  jumpToBookmark (fun a b => Z.of_nat b - Z.of_nat a)%Z (fun l cur => l <? cur).

(** The bookmarks are lines of the document. *)
Definition bookmarksInDocument (st : BookmarkedState) : Prop :=
  NoDup (bookmarks st)
  /\ Forall (fun l => 1 <= l <= lineCount (doc (bmEditor st))) (bookmarks st).

(** "one\ntwo\nthree", the cursor in "two", lines 3 and 1 bookmarked. *)
Definition st_bookmarked : BookmarkedState :=
  {| bmEditor := st_in_two; bookmarks := [3; 1] |}.

(** ** TabManager *)

Record TabData := {
  tabId : jsstring;
  filePath : option jsstring;
  content : jsstring;
  originalContent : jsstring;
  isDirty : bool;
  encoding : jsstring;
  language : option jsstring
}.

(** A [Map<string, TabData>]: its entries in insertion order. *)
Definition TabMap := list (jsstring * TabData).

(** [map.get(k)], [map.has(k)], [map.set(k, v)], [map.delete(k)] and
    [Array.from(map.keys())]: [set] on a key of the map keeps its
    place. *)
Definition mapGet (k : jsstring) (m : TabMap) : option TabData :=
  match List.find (fun e => streq (fst e) k) m with
  | Some e => Some (snd e)
  | None => None
  end.

Definition mapHas (k : jsstring) (m : TabMap) : bool :=
  match mapGet k m with Some _ => true | None => false end.

Fixpoint mapSet (k : jsstring) (v : TabData) (m : TabMap) : TabMap :=
  match m with
  | [] => [(k, v)]
  | e :: r => if streq (fst e) k then (k, v) :: r else e :: mapSet k v r
  end.

Definition mapDelete (k : jsstring) (m : TabMap) : TabMap :=
  filter (fun e => negb (streq (fst e) k)) m.

Definition mapKeys (m : TabMap) : list jsstring := map fst m.

(** The manager: the tabs, the active tab, and the number of calls of
    [notify] so far (each call hands [getAllTabs()] and the active id to
    every listener). *)
Record TabManager := {
  tabs : TabMap;
  activeTabId : option jsstring;
  notifyCalls : nat
}.

Definition newTabManager : TabManager :=
  {| tabs := []; activeTabId := None; notifyCalls := 0 |}.

Definition notify (m : TabManager) : TabManager :=
  {| tabs := tabs m; activeTabId := activeTabId m; notifyCalls := S (notifyCalls m) |}.

(** [addTab(data)], [id] being what [crypto.randomUUID()] returns. *)
Definition addTab (data : TabData) (id : jsstring) (m : TabManager)
  : TabManager * jsstring :=
  let tab := {| tabId := id; filePath := filePath data; content := content data;
                originalContent := originalContent data; isDirty := isDirty data;
                encoding := encoding data; language := language data |} in
  (notify {| tabs := mapSet id tab (tabs m); activeTabId := Some id;
             notifyCalls := notifyCalls m |}, id).

Definition isActive (m : TabManager) (id : jsstring) : bool :=
  match activeTabId m with
  | Some a => streq a id
  | None => false
  end.

Definition removeTab (id : jsstring) (m : TabManager) : TabManager :=
  let tabs' := mapDelete id (tabs m) in
  let active' :=
    if isActive m id then
      let remaining := mapKeys tabs' in
      if 0 <? length remaining then nth_error remaining (length remaining - 1)
      else None
    else activeTabId m in
  notify {| tabs := tabs'; activeTabId := active'; notifyCalls := notifyCalls m |}.

(** The three updates of a tab: [mutate] is what is assigned to the
    tab's fields. *)
Definition updateTab (id : jsstring) (mutate : TabData -> TabData) (m : TabManager)
  : TabManager :=
  match mapGet id (tabs m) with
  | Some tab =>
      notify {| tabs := mapSet id (mutate tab) (tabs m); activeTabId := activeTabId m;
                notifyCalls := notifyCalls m |}
  | None => m
  end.

Definition updateTabContent (id content' : jsstring) : TabManager -> TabManager :=
  updateTab id (fun tab =>
    {| tabId := tabId tab; filePath := filePath tab; content := content';
       originalContent := originalContent tab; isDirty := true;
       encoding := encoding tab; language := language tab |}).

Definition updateTabFile (id filePath' content' encoding' : jsstring)
  : TabManager -> TabManager :=
  updateTab id (fun tab =>
    {| tabId := tabId tab; filePath := Some filePath'; content := content';
       originalContent := originalContent tab; isDirty := false;
       encoding := encoding'; language := language tab |}).

Definition saveTab (id : jsstring) : TabManager -> TabManager :=
  updateTab id (fun tab =>
    {| tabId := tabId tab; filePath := filePath tab; content := content tab;
       originalContent := originalContent tab; isDirty := false;
       encoding := encoding tab; language := language tab |}).

Definition getTab (id : jsstring) (m : TabManager) : option TabData :=
  mapGet id (tabs m).

Definition getAllTabs (m : TabManager) : list TabData := map snd (tabs m).

Definition getActiveTabId (m : TabManager) : option jsstring := activeTabId m.

Definition setActiveTab (id : jsstring) (m : TabManager) : TabManager :=
  if mapHas id (tabs m)
  then notify {| tabs := tabs m; activeTabId := Some id; notifyCalls := notifyCalls m |}
  else m.

(** A call of one of the methods that change the manager. *)
Inductive TabCall :=
| callAddTab (data : TabData) (id : jsstring)
| callRemoveTab (id : jsstring)
| callUpdateTabContent (id content' : jsstring)
| callUpdateTabFile (id filePath' content' encoding' : jsstring)
| callSaveTab (id : jsstring)
| callSetActiveTab (id : jsstring).

Definition call (m : TabManager) (c : TabCall) : TabManager :=
  match c with
  | callAddTab data id => fst (addTab data id m)
  | callRemoveTab id => removeTab id m
  | callUpdateTabContent id content' => updateTabContent id content' m
  | callUpdateTabFile id filePath' content' encoding' =>
      updateTabFile id filePath' content' encoding' m
  | callSaveTab id => saveTab id m
  | callSetActiveTab id => setActiveTab id m
  end.

Definition isAddTab (c : TabCall) : bool :=
  match c with callAddTab _ _ => true | _ => false end.

(** The tabs have distinct ids, each is stored under its own id, and the
    active id is that of a tab, or [null] when there is no tab. *)
Definition tabsConsistent (m : TabManager) : Prop :=
  NoDup (mapKeys (tabs m))
  /\ Forall (fun e => tabId (snd e) = fst e) (tabs m)
  /\ match activeTabId m with
     | Some a => In a (mapKeys (tabs m))
     | None => tabs m = []
     end.

(** A manager with the tabs "t1" and "t2", the second active. *)
Definition tab_untitled : TabData :=
  {| tabId := []; filePath := None; content := []; originalContent := [];
     isDirty := false; encoding := str "utf-8"; language := None |}.
Definition two_tabs : TabManager :=
  fold_left call [callAddTab tab_untitled (str "t1"); callAddTab tab_untitled (str "t2")]
    newTabManager.

(** ** Languages (detectLanguageFromPath, getLanguageExtension,
       getSupportedLanguages, getLanguageDisplayName) *)

(** [s.split(sep)] for a separator of one code unit. *)
Fixpoint splitUnit (sep : ascii) (s : jsstring) : list jsstring :=
  match s with
  | [] => [[]]
  | c :: r =>
      if Ascii.eqb c sep then [] :: splitUnit sep r
      else match splitUnit sep r with
           | l :: ls => (c :: l) :: ls
           | [] => [[c]]
           end
  end.

(** What [o[key]] gives on an object literal with string values: the
    value of an own property, something inherited from
    [Object.prototype], or [undefined]. *)
Inductive Lookup :=
| Found (value : jsstring)
| Inherited
| Undefined.

Definition ObjectLiteral := list (string * string).

(** The keys of [Object.prototype]. *)
Definition prototypeKeys : list string :=
  ["constructor"; "__defineGetter__"; "__defineSetter__"; "hasOwnProperty";
   "__lookupGetter__"; "__lookupSetter__"; "isPrototypeOf"; "propertyIsEnumerable";
   "toString"; "valueOf"; "__proto__"; "toLocaleString"]%string.

Definition objectGet (o : ObjectLiteral) (key : jsstring) : Lookup :=
  match List.find (fun e => streq (str (fst e)) key) o with
  | Some e => Found (str (snd e))
  | None => if existsb (fun k => streq (str k) key) prototypeKeys then Inherited
            else Undefined
  end.

Definition languageMap : ObjectLiteral :=
  [("js", "javascript"); ("jsx", "javascript"); ("ts", "typescript");
   ("tsx", "typescript"); ("mjs", "javascript"); ("cjs", "javascript");
   ("html", "html"); ("htm", "html"); ("css", "css"); ("scss", "css");
   ("sass", "css"); ("less", "css"); ("xml", "xml"); ("svg", "xml");
   ("json", "json"); ("jsonc", "json");
   ("md", "markdown"); ("markdown", "markdown");
   ("py", "python"); ("pyw", "python"); ("pyi", "python");
   ("rs", "rust");
   ("c", "cpp"); ("cpp", "cpp"); ("cc", "cpp"); ("cxx", "cpp"); ("h", "cpp");
   ("hpp", "cpp"); ("hh", "cpp"); ("hxx", "cpp");
   ("java", "java");
   ("php", "php"); ("phtml", "php");
   ("sql", "sql"); ("mysql", "sql"); ("pgsql", "sql")]%string.

(** [filePath] is [None] for [null]. *)
Definition detectLanguageFromPath (filePath : option jsstring) : Lookup :=
  match filePath with
  | None | Some [] => Undefined
  | Some p =>
      let ext := toLowerCase (last (splitUnit "."%char p) []) in
      match ext with
      | [] => Undefined
      | _ :: _ => objectGet languageMap ext
      end
  end.

(** The language supports of CodeMirror, with their options. *)
Inductive Extension :=
| javascript (jsx typescript : bool)
| html | css | json | markdown | python | rust | cpp | java | php | xml | sql.

Definition getLanguageExtension (language : option jsstring) : list Extension :=
  match language with
  | None | Some [] => []
  | Some l =>
      if streq l (str "javascript") then [javascript true false]
      else if streq l (str "typescript") then [javascript true true]
      else if streq l (str "html") then [html]
      else if streq l (str "css") then [css]
      else if streq l (str "json") then [json]
      else if streq l (str "markdown") then [markdown]
      else if streq l (str "python") then [python]
      else if streq l (str "rust") then [rust]
      else if streq l (str "cpp") then [cpp]
      else if streq l (str "java") then [java]
      else if streq l (str "php") then [php]
      else if streq l (str "xml") then [xml]
      else if streq l (str "sql") then [sql]
      else []
  end.

Definition getSupportedLanguages : list jsstring :=
  map str ["javascript"; "typescript"; "html"; "css"; "json"; "markdown"; "python";
           "rust"; "cpp"; "java"; "php"; "xml"; "sql"]%string.

Definition displayNames : ObjectLiteral :=
  [("javascript", "JavaScript"); ("typescript", "TypeScript"); ("html", "HTML");
   ("css", "CSS"); ("json", "JSON"); ("markdown", "Markdown"); ("python", "Python");
   ("rust", "Rust"); ("cpp", "C/C++"); ("java", "Java"); ("php", "PHP");
   ("xml", "XML"); ("sql", "SQL")]%string.

(** [displayNames[language] || language] *)
Definition getLanguageDisplayName (language : jsstring) : Lookup :=
  match objectGet displayNames language with
  | Found [] | Undefined => Found language
  | Found name => Found name
  | Inherited => Inherited
  end.

(** What the three tables say of one language: it is supported, it has
    a language support, and it has a display name of its own. *)
Definition knownLanguage (lang : jsstring) : bool :=
  existsb (streq lang) getSupportedLanguages
  && negb (length (getLanguageExtension (Some lang)) =? 0)
  && match getLanguageDisplayName lang with
     | Found name => negb (streq name lang)
     | _ => false
     end.

(** ** convertToTitleCase *)







(* ================================================================== *)
(** * Part II: properties                                              *)
(* ================================================================== *)

(** ** Strings *)

Lemma streq_true_iff (a b : jsstring) : streq a b = true <-> a = b.
Proof.
  unfold streq. destruct (list_eq_dec ascii_dec a b); split; congruence.
Qed.

Lemma streq_refl (a : jsstring) : streq a a = true.
Proof. now apply streq_true_iff. Qed.

Lemma startsWith_app (p t : jsstring) : startsWith p (p ++ t) = true.
Proof.
  induction p as [|a p IH]; simpl; [reflexivity|].
  now rewrite Ascii.eqb_refl, IH.
Qed.

Lemma startsWith_true (p s : jsstring) :
  startsWith p s = true -> s = p ++ skipn (length p) s.
Proof.
  revert s. induction p as [|a p IH]; intros s H; simpl in *; [reflexivity|].
  destruct s as [|b s]; [discriminate|].
  apply andb_true_iff in H as [Hab Hps].
  apply Ascii.eqb_eq in Hab. subst b. simpl. f_equal. now apply IH.
Qed.

Lemma startsWith_iff (p s : jsstring) :
  startsWith p s = true <-> exists t, s = p ++ t.
Proof.
  split.
  - intros H. exists (skipn (length p) s). now apply startsWith_true.
  - intros [t ->]. apply startsWith_app.
Qed.

(** [indexOf0] finds an occurrence, and the first one. *)
Lemma indexOf0_Some (p s : jsstring) (k : nat) :
  indexOf0 p s = Some k ->
  k <= length s
  /\ startsWith p (skipn k s) = true
  /\ forall j, j < k -> startsWith p (skipn j s) = false.
Proof.
  revert k. induction s as [|c s IH]; intros k H.
  - simpl in H. destruct (startsWith p []) eqn:E; [|discriminate].
    injection H as <-. repeat split; auto. intros j Hj. lia.
  - simpl in H. destruct (startsWith p (c :: s)) eqn:E.
    + injection H as <-. repeat split; auto; [simpl; lia|]. intros j Hj. lia.
    + destruct (indexOf0 p s) as [k'|] eqn:E'; [|discriminate].
      simpl in H. injection H as <-.
      destruct (IH k' eq_refl) as (Hle & Hst & Hfirst).
      repeat split; [simpl; lia|exact Hst|].
      intros [|j] Hj; [exact E|]. simpl. apply Hfirst. lia.
Qed.

Lemma indexOf0_None (p s : jsstring) (j : nat) :
  indexOf0 p s = None -> startsWith p (skipn j s) = false.
Proof.
  revert j. induction s as [|c s IH]; intros j H.
  - simpl in H. destruct (startsWith p []) eqn:E; [discriminate|].
    now destruct j.
  - simpl in H. destruct (startsWith p (c :: s)) eqn:E; [discriminate|].
    destruct (indexOf0 p s) eqn:E'; [discriminate|].
    destruct j as [|j]; [exact E|]. simpl. now apply IH.
Qed.

Lemma indexOf0_first (p s : jsstring) (k : nat) :
  startsWith p (skipn k s) = true ->
  (forall j, j < k -> startsWith p (skipn j s) = false) ->
  k <= length s ->
  indexOf0 p s = Some k.
Proof.
  intros Hk Hfirst Hlen.
  destruct (indexOf0 p s) as [k'|] eqn:E.
  - destruct (indexOf0_Some _ _ _ E) as (_ & Hk' & Hfirst').
    destruct (Nat.lt_trichotomy k k') as [Hlt | [-> | Hgt]]; [|reflexivity|].
    + rewrite (Hfirst' k Hlt) in Hk. discriminate.
    + rewrite (Hfirst k' Hgt) in Hk'. discriminate.
  - rewrite (indexOf0_None _ _ k E) in Hk. discriminate.
Qed.

Lemma indexOf_zero (p s : jsstring) : indexOf p s 0 = indexOf0 p s.
Proof.
  unfold indexOf. simpl. now destruct (indexOf0 p s).
Qed.

Lemma takeWhile_dropWhile (f : ascii -> bool) (s : jsstring) :
  takeWhile f s ++ dropWhile f s = s.
Proof.
  induction s as [|c s IH]; simpl; [reflexivity|].
  destruct (f c); simpl; [now rewrite IH | reflexivity].
Qed.

Lemma takeWhile_all (f : ascii -> bool) (s : jsstring) :
  forallb f (takeWhile f s) = true.
Proof.
  induction s as [|c s IH]; simpl; [reflexivity|].
  destruct (f c) eqn:E; simpl; [now rewrite E, IH | reflexivity].
Qed.

Lemma skipn_takeWhile (f : ascii -> bool) (s : jsstring) :
  skipn (length (takeWhile f s)) s = dropWhile f s.
Proof.
  induction s as [|c s IH]; simpl; [reflexivity|].
  destruct (f c); simpl; [exact IH | reflexivity].
Qed.

Lemma dropWhile_all_app (f : ascii -> bool) (a b : jsstring) :
  forallb f a = true -> dropWhile f (a ++ b) = dropWhile f b.
Proof.
  induction a as [|c a IH]; simpl; [reflexivity|].
  intros H. apply andb_true_iff in H as [Hc Ha]. rewrite Hc. now apply IH.
Qed.

Lemma dropWhile_stop (f : ascii -> bool) (c : ascii) (s : jsstring) :
  f c = false -> dropWhile f (c :: s) = c :: s.
Proof. intros H. simpl. now rewrite H. Qed.

(** Trimming on the right stops at a code unit that is not white space. *)
Lemma dropWhile_app_stop (f : ascii -> bool) (a b : jsstring) (c : ascii) :
  f c = false -> dropWhile f (a ++ c :: b) = dropWhile f a ++ c :: b.
Proof.
  intros Hc. induction a as [|d a IH]; simpl.
  - now rewrite Hc.
  - destruct (f d); [exact IH | reflexivity].
Qed.

(** ** Line endings *)

Section LineEndings.

Lemma replaceCRLFbyLF_noCR (s : jsstring) :
  ~ In CR s -> replaceCRLFbyLF s = s.
Proof.
  induction s as [|c r IH]; intros Hno; simpl; [reflexivity|].
  assert (Hc : isCR c = false).
  { unfold isCR. apply Ascii.eqb_neq. intros ->. apply Hno. now left. }
  rewrite Hc. f_equal. apply IH. intros Hin. apply Hno. now right.
Qed.

Lemma replaceUnit_absent (c : ascii) (rep s : jsstring) :
  ~ In c s -> replaceUnit c rep s = s.
Proof.
  induction s as [|d r IH]; intros Hno; simpl; [reflexivity|].
  destruct (Ascii.eqb d c) eqn:E.
  - apply Ascii.eqb_eq in E. subst d. exfalso. apply Hno. now left.
  - f_equal. apply IH. intros Hin. apply Hno. now right.
Qed.

Lemma normalizeToLF_noCR (s : jsstring) :
  ~ In CR s -> normalizeToLF s = s.
Proof.
  intros Hno. unfold normalizeToLF.
  rewrite replaceCRLFbyLF_noCR by assumption.
  now apply replaceUnit_absent.
Qed.

(** Expanding every LF to CRLF and folding CRLF back gives the text
    one started from, when it had no CR of its own. *)
Lemma replaceCRLFbyLF_expand (s : jsstring) :
  ~ In CR s -> replaceCRLFbyLF (replaceUnit LF [CR; LF] s) = s.
Proof.
  induction s as [|c r IH]; intros Hno; simpl; [reflexivity|].
  assert (Hr : ~ In CR r) by (intros Hin; apply Hno; now right).
  destruct (Ascii.eqb c LF) eqn:E.
  - apply Ascii.eqb_eq in E. subst c. simpl. now rewrite IH.
  - assert (Hc : isCR c = false).
    { unfold isCR. apply Ascii.eqb_neq. intros ->. apply Hno. now left. }
    simpl. rewrite Hc. now rewrite IH.
Qed.

Lemma normalizeToLF_expand (s : jsstring) :
  ~ In CR s -> normalizeToLF (replaceUnit LF [CR; LF] s) = s.
Proof.
  intros Hno. unfold normalizeToLF.
  rewrite replaceCRLFbyLF_expand by assumption.
  now apply replaceUnit_absent.
Qed.

(** What a whole-document replacement does to the state. *)
Lemma run_replaceWholeDocument (st : EditorState) (converted : jsstring) :
  run (fun s => replaceWholeDocument s converted) st
  = Done {| doc := converted; selection := selection st;
            currentLanguage := currentLanguage st |}.
Proof.
  unfold run, replaceWholeDocument. simpl.
  destruct (streq (doc st) converted) eqn:E; simpl.
  - apply streq_true_iff in E. destruct st; simpl in *. now subst.
  - unfold dispatch; simpl. f_equal. f_equal.
    rewrite skipn_all2 by lia. now rewrite app_nil_r.
Qed.

Lemma run_convertToLF (st : EditorState) :
  run convertToLF st
  = Done {| doc := normalizeToLF (doc st); selection := selection st;
            currentLanguage := currentLanguage st |}.
Proof. apply (run_replaceWholeDocument st (normalizeToLF (doc st))). Qed.

Lemma run_convertToCRLF (st : EditorState) :
  run convertToCRLF st
  = Done {| doc := replaceUnit LF [CR; LF] (normalizeToLF (doc st));
            selection := selection st;
            currentLanguage := currentLanguage st |}.
Proof.
  apply (run_replaceWholeDocument st (replaceUnit LF [CR; LF] (normalizeToLF (doc st)))).
Qed.

End LineEndings.

(** ** detectLineEnding *)

Section DetectLineEnding.

Lemma percent_zero (total : Z) : Qeq (percent 0%Z total) (inject_Z 0).
Proof.
  unfold percent, Qdiv. change (inject_Z 0) with 0%Q.
  rewrite Qmult_0_l. rewrite Qmult_0_l. reflexivity.
Qed.

(** The least of the three shares is 0 as soon as one terminator type
    is absent, whatever the other two are. *)
Lemma min_share_absent (a b c total : Z) :
  a = 0%Z \/ b = 0%Z \/ c = 0%Z ->
  Qle_bool (Qmin (percent a total) (Qmin (percent b total) (percent c total)))
           (inject_Z 10) = true.
Proof.
  intros H. apply Qle_bool_iff.
  assert (H10 : Qle (inject_Z 0) (inject_Z 10)) by discriminate.
  destruct H as [-> | [-> | ->]].
  - eapply Qle_trans; [apply Q.le_min_l|]. now rewrite percent_zero.
  - eapply Qle_trans; [apply Q.le_min_r|].
    eapply Qle_trans; [apply Q.le_min_l|]. now rewrite percent_zero.
  - eapply Qle_trans; [apply Q.le_min_r|].
    eapply Qle_trans; [apply Q.le_min_r|]. now rewrite percent_zero.
Qed.

(** [detectLineEnding] answers MIXED only when all three terminator
    types occur in the document. *)
Lemma detectLineEnding_mixed_all_three (content : jsstring) :
  detectLineEndingOf content = LE_MIXED ->
  let n := countTerminators content noTerminatorCounts in
  crlfCount n <> 0%Z /\ crCount n <> 0%Z /\ lfCount n <> 0%Z.
Proof.
  unfold detectLineEndingOf. fold noTerminatorCounts.
  set (n := countTerminators content noTerminatorCounts).
  intros H. simpl.
  destruct (Z.eq_dec (crlfCount n) 0) as [Ha|Ha];
    [|destruct (Z.eq_dec (crCount n) 0) as [Hb|Hb];
      [|destruct (Z.eq_dec (lfCount n) 0) as [Hc|Hc]; [|now auto]]].
  all: exfalso.
  all: match type of H with context [Qle_bool ?q ?t] =>
         assert (Hq : Qle_bool q t = true) by (apply min_share_absent; auto)
       end.
  all: rewrite Hq in H; rewrite andb_false_r in H.
  all: repeat match type of H with
         | (if ?b then _ else _) = _ => destruct b; try discriminate
         end.
Qed.

End DetectLineEnding.

(** The loop of [detectLineEnding] on the string "a\r\nb\r\nc\n", which
    no document of the editor holds: it counts 2 CRLF, 0 CR and 1 LF,
    and the answer is CRLF, the least share being taken over all three
    types. *)
Lemma detectLineEndingOf_crlf_crlf_lf :
  countTerminators doc_crlf_crlf_lf noTerminatorCounts
    = {| crlfCount := 2; crCount := 0; lfCount := 1 |}
  /\ detectLineEndingOf doc_crlf_crlf_lf = LE_CRLF.
Proof. split; reflexivity. Qed.

(** C9. On a document without CR, convertToLF dispatches nothing, and
    convertToLF, convertToCRLF, convertToLF in a row end in the state
    they started from: the same content, under the same selection. *)
Theorem convertToLF_CRLF_LF_roundtrip (st : EditorState) :
  ~ In CR (doc st) ->
  convertToLF st = Done None
  /\ exists st1 st2 st3,
       run convertToLF st = Done st1
       /\ run convertToCRLF st1 = Done st2
       /\ run convertToLF st2 = Done st3
       /\ doc st3 = doc st
       /\ st3 = st.
Proof.
  intros Hno. split.
  - unfold convertToLF, replaceWholeDocument.
    rewrite normalizeToLF_noCR by assumption. now rewrite streq_refl.
  - eexists. eexists. eexists.
    split; [apply run_convertToLF|].
    split; [apply run_convertToCRLF|].
    split; [apply run_convertToLF|].
    cbn [doc selection currentLanguage].
    rewrite !(normalizeToLF_noCR _ Hno).
    rewrite (normalizeToLF_expand _ Hno).
    destruct st; simpl; split; reflexivity.
Qed.

Lemma convertToLF_CRLF_LF_roundtrip_witness :
  convertToLF (cursorAt doc_lf_lf 1 None) = Done None
  /\ exists st1 st2 st3,
       run convertToLF (cursorAt doc_lf_lf 1 None) = Done st1
       /\ run convertToCRLF st1 = Done st2
       /\ run convertToLF st2 = Done st3
       /\ doc st3 = doc (cursorAt doc_lf_lf 1 None)
       /\ st3 = cursorAt doc_lf_lf 1 None.
Proof.
  apply (convertToLF_CRLF_LF_roundtrip (cursorAt doc_lf_lf 1 None)).
  simpl. intros [H | [H | [H | [H | []]]]]; discriminate H.
Defined.

(** ** toggleLineComment *)

Section ToggleLineComment.

(** A line is its leading white space, its trimmed text, and its
    trailing white space. *)
Lemma trim_decompose (s : jsstring) :
  exists trail, s = leadingWhitespace s ++ trim s ++ trail.
Proof.
  exists (rev (takeWhile isSpace (rev (dropWhile isSpace s)))).
  unfold leadingWhitespace, trim.
  rewrite <- rev_app_distr, takeWhile_dropWhile, rev_involutive.
  now rewrite takeWhile_dropWhile.
Qed.

(** Commenting: the marker and one space go right after the leading
    white space of the line. *)
Lemma toggledText_comment (m lineText : jsstring) :
  startsWith m (trim lineText) = false ->
  toggledText m lineText
  = leadingWhitespace lineText ++ m ++ [SPACE] ++ dropWhile isSpace lineText.
Proof.
  intros H. unfold toggledText. rewrite H.
  unfold substringFrom, leadingWhitespace. now rewrite skipn_takeWhile.
Qed.

(** Uncommenting: the first occurrence of the marker goes, and one
    white-space code unit after it when there is one. *)
Lemma toggledText_uncomment (m lineText : jsstring) :
  startsWith m (trim lineText) = true ->
  exists pre post,
    lineText = pre ++ m ++ post
    /\ (forall j, j < length pre -> startsWith m (skipn j lineText) = false)
    /\ toggledText m lineText = pre ++ dropOneSpace post.
Proof.
  intros H. unfold toggledText. rewrite H, indexOf_zero.
  destruct (indexOf0 m lineText) as [k|] eqn:E.
  - destruct (indexOf0_Some _ _ _ E) as (Hle & Hst & Hfirst).
    exists (firstn k lineText), (skipn (k + length m) lineText).
    assert (Hlen : length (firstn k lineText) = k)
      by (rewrite length_firstn; lia).
    split; [|split].
    + rewrite <- (firstn_skipn k lineText) at 1. f_equal.
      rewrite (startsWith_true _ _ Hst) at 1. f_equal.
      rewrite skipn_skipn. f_equal. lia.
    + intros j Hj. apply Hfirst. lia.
    + unfold substring, substringFrom. simpl skipn at 1.
      now rewrite Nat.sub_0_r.
  - exfalso.
    destruct (trim_decompose lineText) as [trail Hd].
    apply startsWith_iff in H as [t Ht].
    pose proof (indexOf0_None _ _ (length (leadingWhitespace lineText)) E) as Hn.
    rewrite Hd in Hn at 2.
    rewrite skipn_app, skipn_all, Nat.sub_diag in Hn. simpl in Hn.
    rewrite Ht, <- app_assoc, startsWith_app in Hn. discriminate.
Qed.

Lemma getCommentSyntax_spaceFree (st : EditorState) :
  spaceFree (getCommentSyntax st) = true.
Proof.
  unfold getCommentSyntax.
  repeat match goal with
         | |- context [if ?b then _ else _] => destruct b
         end; reflexivity.
Qed.

Lemma spaceFree_cons (m : jsstring) :
  spaceFree m = true ->
  exists c m', m = c :: m' /\ isSpace c = false.
Proof.
  unfold spaceFree. destruct m as [|c m']; [discriminate|].
  simpl. intros H. apply andb_true_iff in H as [H _].
  exists c, m'. split; [reflexivity|]. now apply negb_true_iff.
Qed.

Lemma spaceFree_last (m : jsstring) :
  spaceFree m = true ->
  exists m' c, m = m' ++ [c] /\ isSpace c = false.
Proof.
  unfold spaceFree. intros H. apply andb_true_iff in H as [Hne Hall].
  destruct (exists_last (l := m)) as (m' & c & ->).
  { intros ->. discriminate. }
  exists m', c. split; [reflexivity|].
  rewrite forallb_app in Hall. apply andb_true_iff in Hall as [_ Hc].
  simpl in Hc. rewrite andb_true_r in Hc. now apply negb_true_iff.
Qed.

(** The trimmed text of what follows some white space and starts with
    a marker free of white space starts with that marker. *)
Lemma trim_indent_marker (ind m rest : jsstring) :
  forallb isSpace ind = true ->
  spaceFree m = true ->
  startsWith m (trim (ind ++ m ++ rest)) = true.
Proof.
  intros Hind Hm.
  destruct (spaceFree_cons _ Hm) as (c & m1 & Em & Hc).
  destruct (spaceFree_last _ Hm) as (m2 & d & Em' & Hd).
  unfold trim. rewrite dropWhile_all_app by assumption.
  assert (E1 : dropWhile isSpace (m ++ rest) = m ++ rest).
  { rewrite Em. simpl. now rewrite Hc. }
  assert (E2 : rev (dropWhile isSpace (rev (m ++ rest)))
               = m ++ rev (dropWhile isSpace (rev rest))).
  { rewrite Em'. rewrite !rev_app_distr. simpl.
    rewrite (dropWhile_app_stop isSpace (rev rest) (rev m2) d Hd).
    rewrite rev_app_distr. simpl. now rewrite rev_involutive. }
  rewrite E1, E2.
  apply startsWith_app.
Qed.

Lemma startsWith_space_marker (m s : jsstring) (c : ascii) :
  spaceFree m = true -> isSpace c = true -> startsWith m (c :: s) = false.
Proof.
  intros Hm Hc. destruct (spaceFree_cons _ Hm) as (d & m' & -> & Hd).
  simpl. destruct (Ascii.eqb d c) eqn:E; [|reflexivity].
  apply Ascii.eqb_eq in E. subst d. congruence.
Qed.

(** Toggling a line that carries no comment twice gives the line back. *)
Lemma toggledText_twice (m lineText : jsstring) :
  spaceFree m = true ->
  startsWith m (trim lineText) = false ->
  toggledText m (toggledText m lineText) = lineText.
Proof.
  intros Hm Hno.
  rewrite (toggledText_comment _ _ Hno).
  set (ind := leadingWhitespace lineText).
  set (rest := dropWhile isSpace lineText).
  assert (Hind : forallb isSpace ind = true) by apply takeWhile_all.
  unfold toggledText.
  rewrite (trim_indent_marker ind m ([SPACE] ++ rest) Hind Hm).
  rewrite indexOf_zero.
  rewrite (indexOf0_first m (ind ++ m ++ [SPACE] ++ rest) (length ind)).
  - unfold substring, substringFrom. simpl skipn at 1.
    rewrite Nat.sub_0_r, firstn_app, firstn_all, Nat.sub_diag. simpl firstn.
    rewrite app_nil_r.
    rewrite skipn_app.
    rewrite (skipn_all2 ind) by lia.
    replace (length ind + length m - length ind) with (length m) by lia.
    rewrite skipn_app, skipn_all, Nat.sub_diag. simpl.
    unfold ind, rest, leadingWhitespace. apply takeWhile_dropWhile.
  - rewrite skipn_app, skipn_all, Nat.sub_diag. simpl. apply startsWith_app.
  - intros j Hj. rewrite skipn_app.
    replace (j - length ind) with 0 by lia. simpl skipn at 2.
    destruct (skipn j ind) as [|c r] eqn:E.
    + exfalso. apply (f_equal (@length ascii)) in E.
      rewrite length_skipn in E. simpl in E. lia.
    + simpl app. apply startsWith_space_marker; [assumption|].
      assert (Hin : In c ind).
      { rewrite <- (firstn_skipn j ind), E. apply in_or_app. right. now left. }
      rewrite forallb_forall in Hind. now apply Hind.
  - rewrite length_app. lia.
Qed.

End ToggleLineComment.

(** On the line [ln] of the cursor toggleLineComment replaces the text
    of the line: when the trimmed text does not start with the marker,
    by the leading white space, the marker, one space and the rest of
    the line; when it does, by the line without the first occurrence of
    the marker and without one white-space code unit after it, if there
    is one. The cursor of the transaction is the old start of the
    selection, moved by the length of the marker plus one: forward when
    commenting, backward when uncommenting. *)
Lemma toggleLineComment_transaction (st : EditorState) (ln : Line) :
  lineAt (doc st) (selFrom (selection st)) = Done ln ->
  exists newText a,
    toggleLineComment st
    = Done (Some {| changes := [{| chFrom := from ln; chTo := to ln;
                                   insert := newText |}];
                    newSelection := {| anchor := a; head := a |} |})
    /\ let m := getCommentSyntax st in
       if startsWith m (trim (text ln))
       then (exists pre post,
                text ln = pre ++ m ++ post
                /\ (forall j, j < length pre ->
                              startsWith m (skipn j (text ln)) = false)
                /\ newText = pre ++ dropOneSpace post)
            /\ a = (selFrom (selection st) - Z.of_nat (length m) - 1)%Z
       else newText
            = leadingWhitespace (text ln) ++ m ++ [SPACE]
                ++ dropWhile isSpace (text ln)
            /\ toggledText m newText = text ln
            /\ a = (selFrom (selection st) + Z.of_nat (length m) + 1)%Z.
Proof.
  intros Hln.
  unfold toggleLineComment. rewrite Hln. cbn [bind].
  pose proof (getCommentSyntax_spaceFree st) as Hm.
  destruct (spaceFree_cons _ Hm) as (c & m' & Em & _).
  rewrite Em. rewrite <- Em.
  eexists. eexists. split; [reflexivity|].
  cbv zeta.
  destruct (startsWith (getCommentSyntax st) (trim (text ln))) eqn:E.
  - destruct (toggledText_uncomment _ _ E) as (pre & post & H1 & H2 & H3).
    split; [exists pre, post; auto | lia].
  - split; [now apply toggledText_comment|].
    split; [now apply toggledText_twice | lia].
Qed.

(** Uncommenting with the cursor in the marker, or right after it: the
    cursor of the transaction lies before the document, and the editor
    refuses the transaction. *)
Lemma toggleLineComment_refused (st : EditorState) (ln : Line) :
  lineAt (doc st) (selFrom (selection st)) = Done ln ->
  startsWith (getCommentSyntax st) (trim (text ln)) = true ->
  (selFrom (selection st) <= Z.of_nat (length (getCommentSyntax st)))%Z ->
  viewRun toggleLineComment st = RangeError.
Proof.
  intros Hln Hs Hsel.
  destruct (toggleLineComment_transaction st ln Hln) as (newText & a & Htr & Hwhat).
  cbv zeta in Hwhat. rewrite Hs in Hwhat. destruct Hwhat as [_ Ha].
  unfold viewRun. rewrite Htr. cbn [bind].
  unfold viewDispatch. cbn [changes newSelection].
  destruct (forallb _ _); [|reflexivity].
  cbv zeta. unfold selectionInRange, selFrom at 1. cbn [anchor head].
  rewrite Z.min_id.
  assert (Hneg : (0 <=? a)%Z = false) by (apply Z.leb_gt; lia).
  rewrite Hneg. reflexivity.
Qed.

(** C7. In a JavaScript file, toggleLineComment turns "  foo();" into
    "  // foo();" and, applied again, turns it back. But uncommenting
    does not always remove the marker: on the line "// x" with the
    cursor after the first slash, the transaction replaces the line by
    "x" and puts the cursor at 1 - 2 - 1 = -2, before the document; the
    editor refuses it and the line stays commented. *)
Theorem toggleLineComment_cursor_before_document :
  (exists st1,
      viewRun toggleLineComment st_foo = Done st1
      /\ doc st1 = str "  // foo();"
      /\ exists st2,
           viewRun toggleLineComment st1 = Done st2 /\ doc st2 = str "  foo();")
  /\ editorState st_commented
  /\ toggledText (getCommentSyntax st_commented) (doc st_commented) = str "x"
  /\ toggleLineComment st_commented
     = Done (Some {| changes := [{| chFrom := 0; chTo := 4; insert := str "x" |}];
                     newSelection := {| anchor := -2; head := -2 |} |})
  /\ viewRun toggleLineComment st_commented = RangeError.
Proof.
  split; [|split; [|split; [|split]]].
  - eexists. split; [reflexivity|]. split; [reflexivity|].
    eexists. split; reflexivity.
  - split.
    + unfold noCR. cbn. intros [H | [H | [H | [H | []]]]]; discriminate H.
    + unfold wellFormed. cbn. lia.
  - reflexivity.
  - reflexivity.
  - reflexivity.
Qed.

(** ** outdentSelection *)

(** The anchor of the new selection never precedes the start of the
    first line of the selection. *)
Lemma outdentSelection_anchor_clamped (st : EditorState) (tr : Transaction) :
  outdentSelection st = Done (Some tr) ->
  exists startLine,
    lineAt (doc st) (selFrom (selection st)) = Done startLine
    /\ (Z.of_nat (from startLine) <= anchor (newSelection tr))%Z.
Proof.
  unfold outdentSelection.
  destruct (lineAt (doc st) (selFrom (selection st))) as [startLine|]; [|discriminate].
  cbn [bind].
  destruct (lineAt (doc st) (selTo (selection st))) as [endLine|]; [|discriminate].
  cbn [bind].
  destruct (outdentLoop _ _ _ _) as [[chs total]|]; [|discriminate].
  cbn [bind]. destruct chs; [discriminate|].
  intros H. injection H as <-. exists startLine. split; [reflexivity|].
  simpl. lia.
Qed.

(** C6. On the line "  foo" with the cursor at offset 0, outdentSelection
    removes the two leading spaces and moves the head of the selection to
    0 - 2 = -2, before the start (offset 0) of the first affected line:
    only the anchor is clamped. *)
Theorem outdentSelection_head_before_line_start :
  lineAt (doc st_indented) (selFrom (selection st_indented))
    = Done {| from := 0; to := 5; number := 1; text := str "  foo" |}
  /\ outdentSelection st_indented
     = Done (Some {| changes := [{| chFrom := 0; chTo := 2; insert := [] |}];
                     newSelection := {| anchor := 0; head := -2 |} |}).
Proof. split; reflexivity. Qed.

(** ** The current match *)

Section CurrentMatch.

Variables (len : nat).

(** What the loop returns lies among the indices it has yet to visit. *)
Lemma currentIndexLoop_bounds (ms : list nat) (c : Z) (i k : nat) :
  currentIndexLoop ms len c i = Some k -> i + 1 <= k <= i + length ms.
Proof.
  revert i. induction ms as [|p ms IH]; intros i H; simpl in H; [discriminate|].
  destruct ((c >=? Z.of_nat p)%Z && (c <=? Z.of_nat (p + len))%Z).
  - injection H as <-. simpl. lia.
  - destruct (c <? Z.of_nat p)%Z.
    + injection H as <-. simpl. lia.
    + apply IH in H. simpl. lia.
Qed.

(** The loop stops at the first match that does not end before the
    cursor. *)
Lemma currentIndexLoop_head (p : nat) (ms : list nat) (c : Z) (i : nat) :
  currentIndexLoop (p :: ms) len c i
  = if (c <=? Z.of_nat (p + len))%Z then Some (i + 1)
    else currentIndexLoop ms len c (S i).
Proof.
  simpl. rewrite Z.geb_leb.
  destruct (Z.leb_spec (Z.of_nat p) c), (Z.leb_spec c (Z.of_nat (p + len))),
    (Z.ltb_spec c (Z.of_nat p)); simpl; try reflexivity; lia.
Qed.

Lemma currentIndexLoop_mono (ms : list nat) (c1 c2 : Z) (i : nat) :
  (c1 <= c2)%Z ->
  match currentIndexLoop ms len c1 i, currentIndexLoop ms len c2 i with
  | Some a, Some b => a <= b
  | Some a, None => a <= i + length ms
  | None, Some _ => False
  | None, None => True
  end.
Proof.
  intros Hc. revert i. induction ms as [|p ms IH]; intros i; [exact I|].
  rewrite !currentIndexLoop_head.
  destruct (Z.leb_spec c1 (Z.of_nat (p + len))) as [E1|E1];
    destruct (Z.leb_spec c2 (Z.of_nat (p + len))) as [E2|E2].
  - lia.
  - destruct (currentIndexLoop ms len c2 (S i)) as [b|] eqn:Eb.
    + apply currentIndexLoop_bounds in Eb. lia.
    + simpl. lia.
  - lia.
  - specialize (IH (S i)).
    destruct (currentIndexLoop ms len c1 (S i)), (currentIndexLoop ms len c2 (S i));
      simpl; try lia; auto.
Qed.

Lemma currentMatchIndex_mono (ms : list nat) (c1 c2 : Z) :
  (c1 <= c2)%Z -> currentMatchIndex ms len c1 <= currentMatchIndex ms len c2.
Proof.
  intros Hc. unfold currentMatchIndex.
  pose proof (currentIndexLoop_mono ms c1 c2 0 Hc) as H.
  destruct (currentIndexLoop ms len c1 0) as [a|] eqn:Ea;
    destruct (currentIndexLoop ms len c2 0) as [b|] eqn:Eb; simpl in *;
    try lia; try contradiction.
Qed.

Lemma currentMatchIndex_bounds (ms : list nat) (c : Z) :
  ms <> [] -> 1 <= currentMatchIndex ms len c <= length ms.
Proof.
  intros Hne. unfold currentMatchIndex.
  destruct (currentIndexLoop ms len c 0) as [a|] eqn:Ea.
  - apply currentIndexLoop_bounds in Ea. lia.
  - destruct ms; [congruence|]. simpl. lia.
Qed.

Lemma currentMatchIndex_past_all (ms : list nat) (c : Z) :
  (forall p, In p ms -> (Z.of_nat (p + len) < c)%Z) ->
  currentMatchIndex ms len c = length ms.
Proof.
  intros Hall. unfold currentMatchIndex.
  assert (H : forall i, currentIndexLoop ms len c i = None).
  { induction ms as [|p ms IH]; intros i; [reflexivity|].
    rewrite currentIndexLoop_head.
    destruct (Z.leb_spec c (Z.of_nat (p + len))) as [E|E].
    - specialize (Hall p (or_introl eq_refl)). lia.
    - apply IH. intros q Hq. apply Hall. now right. }
  now rewrite H.
Qed.

(** The index is that of the first match that does not end before the
    cursor. *)
Lemma currentMatchIndex_first (ms : list nat) (c : Z) (k : nat) :
  currentIndexLoop ms len c 0 = Some k ->
  exists p, nth_error ms (k - 1) = Some p
            /\ (c <= Z.of_nat (p + len))%Z
            /\ forall j q, j < k - 1 -> nth_error ms j = Some q ->
                           (Z.of_nat (q + len) < c)%Z.
Proof.
  assert (G : forall i, currentIndexLoop ms len c i = Some k ->
            exists p, nth_error ms (k - 1 - i) = Some p
                      /\ (c <= Z.of_nat (p + len))%Z
                      /\ forall j q, j < k - 1 - i -> nth_error ms j = Some q ->
                                     (Z.of_nat (q + len) < c)%Z).
  { induction ms as [|p ms IH]; intros i H; [discriminate|].
    rewrite currentIndexLoop_head in H.
    destruct (Z.leb_spec c (Z.of_nat (p + len))) as [E|E].
    - injection H as <-. exists p.
      replace (i + 1 - 1 - i) with 0 by lia. repeat split; [lia|].
      intros j q Hj. lia.
    - pose proof (currentIndexLoop_bounds _ _ _ _ H) as Hb.
      destruct (IH (S i) H) as (p' & Hn & Hle & Hbefore).
      exists p'. replace (k - 1 - i) with (S (k - 1 - S i)) by lia.
      repeat split; [exact Hn|exact Hle|].
      intros [|j] q Hj Hq.
      + simpl in Hq. injection Hq as <-. lia.
      + simpl in Hq. apply (Hbefore j); [lia|exact Hq]. }
  intros H. specialize (G 0 H). now rewrite Nat.sub_0_r in G.
Qed.

End CurrentMatch.

(** C5. For a fixed, non-empty list of matches the current-match index
    lies between 1 and the number of matches, it does not decrease when
    the cursor moves forward, and it is the number of matches once the
    cursor is past the end of every match. *)
Theorem currentMatchIndex_monotonic (ms : list nat) (len : nat) (c1 c2 : Z) :
  ms <> [] ->
  (c1 < c2)%Z ->
  currentMatchIndex ms len c1 <= currentMatchIndex ms len c2
  /\ 1 <= currentMatchIndex ms len c1 <= length ms
  /\ ((forall p, In p ms -> (Z.of_nat (p + len) < c2)%Z) ->
      currentMatchIndex ms len c2 = length ms).
Proof.
  intros Hne Hc. split; [|split].
  - apply currentMatchIndex_mono. lia.
  - now apply currentMatchIndex_bounds.
  - apply currentMatchIndex_past_all.
Qed.

Lemma currentMatchIndex_monotonic_witness :
  currentMatchIndex [3; 12; 17] 3 4 <= currentMatchIndex [3; 12; 17] 3 21
  /\ 1 <= currentMatchIndex [3; 12; 17] 3 4 <= length [3; 12; 17]
  /\ ((forall p, In p [3; 12; 17] -> (Z.of_nat (p + 3) < 21)%Z) ->
      currentMatchIndex [3; 12; 17] 3 21 = length [3; 12; 17]).
Proof.
  apply (currentMatchIndex_monotonic [3; 12; 17] 3 4 21).
  - discriminate.
  - lia.
Defined.

(** ** The search layer *)

Section SearchLayer.

Context {E : RegExpEngine}.

Lemma scanFrom_hit (m : Matcher) (s : jsstring) (i n e : nat) :
  m s i = Some e -> scanFrom m s i n = Some (i, e).
Proof. intros H. destruct n; simpl; now rewrite H. Qed.

Lemma scanFrom_Some (m : Matcher) (s : jsstring) (i n j e : nat) :
  scanFrom m s i n = Some (j, e) -> i <= j /\ j <= i + n /\ m s j = Some e.
Proof.
  revert i. induction n as [|n IH]; intros i Es; simpl in Es.
  - destruct (m s i) eqn:Em; [|discriminate].
    injection Es as <- <-. repeat split; auto; lia.
  - destruct (m s i) eqn:Em.
    + injection Es as <- <-. repeat split; auto; lia.
    + apply IH in Es. destruct Es as (H1 & H2 & H3). repeat split; auto; lia.
Qed.

Lemma exec_hit (m : Matcher) (s : jsstring) (i e : nat) :
  i <= length s -> m s i = Some e -> exec m s i = (Some (i, e), e).
Proof.
  intros Hi H. unfold exec.
  destruct (Nat.ltb_spec (length s) i); [lia|].
  now rewrite (scanFrom_hit m s i _ e H).
Qed.

Lemma maxArrayLength_pos : (0 < maxArrayLength)%Z.
Proof. reflexivity. Qed.

Lemma push_room {A : Type} (array : list A) (x : A) :
  (Z.of_nat (length array) < maxArrayLength)%Z -> push array x = Ret (array ++ [x]).
Proof. intros H. unfold push. destruct (Z.ltb_spec (Z.of_nat (length array)) maxArrayLength); [reflexivity|lia]. Qed.

Lemma push_full {A : Type} (array : list A) (x : A) :
  (maxArrayLength <= Z.of_nat (length array))%Z -> push array x = Throw.
Proof. intros H. unfold push. destruct (Z.ltb_spec (Z.of_nat (length array)) maxArrayLength); [lia|reflexivity]. Qed.



(** With a matcher that succeeds at every index the [exec] loops never
    see [null]: an empty match leaves [lastIndex] where it is, and there
    is one at the end of the text at the latest. They end when the array
    is full, by the [RangeError] of [push]. *)
Lemma execLoopSpans_overflows (m : Matcher) (s : jsstring) :
  matchesEverywhere m s ->
  forall k fuel i acc,
    i <= length s ->
    Z.to_nat maxArrayLength - length acc <= k -> k < fuel ->
    execLoopSpans fuel m s i acc = Throw.
Proof.
  intros Hm. induction k as [|k IH]; intros fuel i acc Hi Hk Hf;
    (destruct fuel as [|fuel]; [lia|]); cbn [execLoopSpans];
    destruct (Hm i Hi) as (e & He & Hle);
    rewrite (exec_hit m s i e Hi He).
  - now rewrite push_full by lia.
  - destruct (Z.ltb_spec (Z.of_nat (length acc)) maxArrayLength) as [Hlt|Hge].
    + rewrite push_room by exact Hlt. cbn [cbind].
      apply IH; [lia|rewrite length_app; cbn [length]; lia|lia].
    + now rewrite push_full by exact Hge.
Qed.

Lemma execLoopPositions_overflows (m : Matcher) (s : jsstring) :
  matchesEverywhere m s ->
  forall k fuel i acc,
    i <= length s ->
    Z.to_nat maxArrayLength - length acc <= k -> k < fuel ->
    execLoopPositions fuel m s i acc = Throw.
Proof.
  intros Hm. induction k as [|k IH]; intros fuel i acc Hi Hk Hf;
    (destruct fuel as [|fuel]; [lia|]); cbn [execLoopPositions];
    destruct (Hm i Hi) as (e & He & Hle);
    rewrite (exec_hit m s i e Hi He).
  - now rewrite push_full by lia.
  - destruct (Z.ltb_spec (Z.of_nat (length acc)) maxArrayLength) as [Hlt|Hge].
    + rewrite push_room by exact Hlt. cbn [cbind].
      apply IH; [lia|rewrite length_app; cbn [length]; lia|lia].
    + now rewrite push_full by exact Hge.
Qed.

(** [String.prototype.match] steps over an empty match, so its loop
    ends: fuel for one round per index, and one more, is enough. *)
Lemma matchCount_terminates (m : Matcher) (s : jsstring) :
  (forall i e, i <= length s -> m s i = Some e -> i <= e) ->
  forall n i count fuel,
    length s + 1 - i <= n -> n < fuel ->
    exists r, matchCount fuel m s i count = Ret r.
Proof.
  intros Hfwd. induction n as [|n IHn]; intros i count fuel Hn Hf.
  - destruct fuel as [|fuel]; [lia|]. simpl. unfold exec.
    destruct (Nat.ltb_spec (length s) i); [|lia]. now exists count.
  - destruct fuel as [|fuel]; [lia|]. simpl. unfold exec.
    destruct (Nat.ltb_spec (length s) i); [now exists count|].
    destruct (scanFrom m s i (length s - i)) as [[j e]|] eqn:Es;
      [|now exists count].
    destruct (scanFrom_Some m s i _ j e Es) as (Hij & Hjn & Hmj).
    pose proof (Hfwd j e ltac:(lia) Hmj) as Hje.
    apply IHn; [|lia].
    destruct (Nat.eqb_spec (e - j) 0); lia.
Qed.

(** The first dispatch of [find] stores the query and leaves the
    highlights alone. *)
Lemma dispatch_setSearchQuery (fuel : nat) (st : SearchState) (q : SearchQuery)
    (sel : option Selection) :
  dispatchEffects fuel st [setSearchQuery q] sel
  = Ret {| editor := {| doc := doc (editor st);
                        selection := match sel with
                                     | Some s => s
                                     | None => selection (editor st)
                                     end;
                        currentLanguage := currentLanguage (editor st) |};
           searchQuery := q;
           highlights := highlights st |}.
Proof. reflexivity. Qed.

(** A pattern the engine rejects: the highlight field falls back to
    the empty decoration set. *)
Lemma highlight_invalid_regex (fuel : nat) (decorations : DecorationSet)
    (text : jsstring) (q : CustomSearchQuery) (rest : list StateEffect) :
  csRegexp q = true ->
  RegExp_new (csSearch q) (gFlags (csCaseSensitive q)) = None ->
  customSearchHighlight_update fuel decorations text (setCustomSearch (Some q) :: rest)
  = Ret Decoration_none.
Proof.
  intros Hr Hbad. simpl. destruct (csSearch q) eqn:Es; [reflexivity|].
  unfold highlightSpans, newRegExp. now rewrite Hr, Es, Hbad.
Qed.

Lemma countMatches_invalid_regex (fuel : nat) (content searchText : jsstring)
    (options : SearchOptions) :
  regexp options = true ->
  RegExp_new searchText (gFlags (caseSensitive options)) = None ->
  countMatches fuel content searchText options = Ret 0.
Proof.
  intros Hr Hbad. unfold countMatches. destruct searchText; [reflexivity|].
  unfold newRegExp. now rewrite Hr, Hbad.
Qed.

Lemma getCurrentMatchIndex_invalid_regex (fuel : nat) (content : jsstring)
    (cursorPos : Z) (searchText : jsstring) (options : SearchOptions) :
  regexp options = true ->
  RegExp_new searchText (gFlags (caseSensitive options)) = None ->
  getCurrentMatchIndex fuel content cursorPos searchText options = Ret 0.
Proof.
  intros Hr Hbad. unfold getCurrentMatchIndex.
  rewrite (countMatches_invalid_regex fuel content searchText options Hr Hbad).
  destruct searchText; reflexivity.
Qed.

(** The literal branch of [countMatches]. *)
Lemma countMatches_literal (fuel : nat) (t q : jsstring) (cs : bool) :
  q <> [] ->
  countMatches fuel t q (literalOptions cs)
  = tryCatch (indexOfLoopCount fuel (foldCase cs t) (foldCase cs q) 0 0) (Ret 0).
Proof. intros Hq. destruct q; [congruence|reflexivity]. Qed.

(** The literal branch of [getCurrentMatchIndex]. *)
Lemma getCurrentMatchIndex_literal_unfold (fuel : nat) (t : jsstring) (cursorPos : Z)
    (q : jsstring) (cs : bool) :
  q <> [] ->
  getCurrentMatchIndex fuel t cursorPos q (literalOptions cs)
  = (totalMatches <~ countMatches fuel t q (literalOptions cs) ;;
     if totalMatches =? 0 then Ret 0
     else tryCatch
            (matchPositions <~
               indexOfLoopPositions fuel (foldCase cs t) (foldCase cs q) 0 [] ;;
             Ret (currentMatchIndex matchPositions (length q) cursorPos))
            (Ret 1)).
Proof. intros Hq. destruct q; [congruence|reflexivity]. Qed.




(** [countMatches] catches what it throws. *)
Lemma countMatches_no_throw (fuel : nat) (content searchText : jsstring)
    (options : SearchOptions) :
  countMatches fuel content searchText options <> Throw.
Proof.
  unfold countMatches. destruct searchText; [discriminate|].
  unfold tryCatch.
  match goal with
  | |- match ?x with _ => _ end <> _ => destruct x eqn:Ex
  end; discriminate.
Qed.

Lemma matchCount_ge (m : Matcher) (s : jsstring) (fuel i count r : nat) :
  matchCount fuel m s i count = Ret r -> count <= r.
Proof.
  revert i count. induction fuel as [|fuel IH]; intros i count H; [discriminate|].
  simpl in H. destruct (exec m s i) as [[[j e]|] li].
  - apply IH in H. lia.
  - injection H as <-. lia.
Qed.

(** A regex query the engine compiles, to a matcher whose matches end
    no earlier than they start: [countMatches] and
    [getCurrentMatchIndex] return. *)
Lemma countMatches_regex_returns (fuel : nat) (content searchText : jsstring)
    (options : SearchOptions) (m : Matcher) :
  regexp options = true ->
  RegExp_new searchText (gFlags (caseSensitive options)) = Some m ->
  (forall i e, i <= length content -> m content i = Some e -> i <= e) ->
  length content + 1 < fuel ->
  exists r, countMatches fuel content searchText options = Ret r.
Proof.
  intros Hr Hnew Hfwd Hf. unfold countMatches.
  destruct searchText as [|c r]; [now eexists|].
  unfold newRegExp. rewrite Hr, Hnew. cbn [cbind].
  destruct (matchCount_terminates m content Hfwd (length content + 1) 0 0 fuel)
    as [k Hk]; [lia|lia|].
  exists k. now rewrite Hk.
Qed.


(** With a matcher that succeeds at every index of the content, as the
    matcher of a pattern that matches the empty string does,
    [getCurrentMatchIndex] leaves its loop by the [RangeError] of [push]
    and answers 1. *)
Lemma getCurrentMatchIndex_overflows (fuel : nat) (content : jsstring)
    (cursorPos : Z) (searchText : jsstring) (options : SearchOptions) (m : Matcher) :
  searchText <> [] ->
  regexp options = true ->
  RegExp_new searchText (gFlags (caseSensitive options)) = Some m ->
  matchesEverywhere m content ->
  Z.to_nat maxArrayLength + length content + 1 < fuel ->
  getCurrentMatchIndex fuel content cursorPos searchText options = Ret 1.
Proof.
  intros Hne Hr Hnew Hm Hf.
  assert (Hfwd : forall i e, i <= length content -> m content i = Some e -> i <= e).
  { intros i e Hi He. destruct (Hm i Hi) as (e' & He' & Hle).
    rewrite He in He'. injection He' as <-. lia. }
  unfold getCurrentMatchIndex.
  destruct (countMatches_regex_returns fuel content searchText options m Hr Hnew Hfwd)
    as [n Hn]; [lia|].
  rewrite Hn. destruct searchText as [|c r]; [congruence|]. cbn [cbind].
  assert (Hpos : 1 <= n).
  { unfold countMatches, newRegExp in Hn. rewrite Hr, Hnew in Hn. cbn [cbind] in Hn.
    destruct fuel as [|fuel]; [lia|]. cbn [matchCount] in Hn.
    destruct (Hm 0 (Nat.le_0_l _)) as (e & He & _).
    rewrite (exec_hit m content 0 e (Nat.le_0_l _) He) in Hn.
    unfold tryCatch in Hn.
    match type of Hn with
    | match ?x with _ => _ end = _ => destruct x as [k| |] eqn:Ek
    end; try discriminate.
    - injection Hn as <-. now apply matchCount_ge in Ek.
    - injection Hn as <-. exfalso.
      pose proof maxArrayLength_pos as Hmax.
      destruct (matchCount_terminates m content Hfwd (length content + 1)
                  (if e - 0 =? 0 then S e else e) 1 fuel) as [k Hk]; [lia|lia|].
      congruence. }
  destruct (Nat.eqb_spec n 0); [lia|].
  unfold newRegExp. rewrite Hr, Hnew. cbn [cbind].
  rewrite (execLoopPositions_overflows m content Hm (Z.to_nat maxArrayLength) fuel 0 []
             (Nat.le_0_l _) ltac:(lia) ltac:(lia)).
  reflexivity.
Qed.

(** What a find that returns has done. *)
Lemma find_returns (fuel : nat) (st : SearchState) (c : ascii) (r : jsstring)
    (options : SearchOptions) (st' : SearchState) (info : SearchInfo) :
  find fuel st (c :: r) options = Ret (st', info) ->
  doc (editor st') = doc (editor st)
  /\ selection (editor st') = selection (editor st)
  /\ searchQuery st' = {| sqSearch := c :: r;
                          sqCaseSensitive := caseSensitive options;
                          sqRegexp := regexp options;
                          sqWholeWord := wholeWord options |}
  /\ countMatches fuel (doc (editor st)) (c :: r) options = Ret (count info)
  /\ getCurrentMatchIndex fuel (doc (editor st)) (selFrom (selection (editor st)))
       (c :: r) options = Ret (currentIndex info).
Proof.
  unfold find. rewrite dispatch_setSearchQuery. cbn [cbind].
  unfold dispatchEffects.
  cbn [doc editor selection highlights currentLanguage searchQuery searchQuery_update].
  match goal with
  | |- cbind (cbind ?h _) _ = _ -> _ => destruct h as [hl| |]
  end; cbn [cbind]; try discriminate.
  cbn [doc editor selection].
  destruct (countMatches fuel (doc (editor st)) (c :: r) options) as [n| |];
    cbn [cbind]; try discriminate.
  destruct (getCurrentMatchIndex fuel (doc (editor st))
              (selFrom (selection (editor st))) (c :: r) options) as [k| |];
    cbn [cbind]; try discriminate.
  intros H. injection H as <- <-. repeat split.
Qed.

(** [find] with a search text that is not empty. *)
Lemma find_nonempty (fuel : nat) (st : SearchState) (q : jsstring)
    (options : SearchOptions) :
  q <> [] ->
  find fuel st q options
  = (st1 <~ dispatchEffects fuel st
              [setSearchQuery {| sqSearch := q;
                                 sqCaseSensitive := caseSensitive options;
                                 sqRegexp := regexp options;
                                 sqWholeWord := wholeWord options |}]
              (Some (selection (editor st))) ;;
     st2 <~ dispatchEffects fuel st1
              [setCustomSearch (Some {| csSearch := q;
                                        csCaseSensitive := caseSensitive options;
                                        csRegexp := regexp options;
                                        csWholeWord := wholeWord options;
                                        csCursorPos := selFrom (selection (editor st1)) |})]
              None ;;
     matches <~ countMatches fuel (doc (editor st2)) q options ;;
     currentIndex <~ getCurrentMatchIndex fuel (doc (editor st2))
                       (selFrom (selection (editor st2))) q options ;;
     Ret (st2, {| count := matches; currentIndex := currentIndex |})).
Proof. intros Hq. destruct q; [congruence|reflexivity]. Qed.

(** The highlight field on a query whose text is not empty. *)
Lemma highlight_nonempty (fuel : nat) (decorations : DecorationSet) (text : jsstring)
    (query : CustomSearchQuery) (rest : list StateEffect) :
  csSearch query <> [] ->
  customSearchHighlight_update fuel decorations text
    (setCustomSearch (Some query) :: rest)
  = tryCatch (matches <~ highlightSpans fuel text query ;;
              buildDecorations (csCursorPos query) matches None)
             (Ret Decoration_none).
Proof.
  intros Hq. cbn [customSearchHighlight_update].
  destruct (csSearch query); [congruence|reflexivity].
Qed.

End SearchLayer.

(** ** The reference engine *)

Section ReferenceEngine.

(** The star of one code unit matches at every index, the empty string
    if nothing else. *)
Lemma matchPieces_star (ic : bool) (c : ascii) (s : jsstring) :
  forall prev i,
  exists e, matchPieces ic [PUnit c true] prev s i = Some e
            /\ i <= e <= i + length s.
Proof.
  induction s as [|d s IH]; intros prev i.
  - exists i. simpl. split; [reflexivity|lia].
  - destruct (IH (Some d) (S i)) as (e & He & Hle).
    cbn [matchPieces] in He |- *.
    destruct (unitMatches ic c d).
    + exists e. rewrite He. split; [reflexivity|simpl; lia].
    + exists i. split; [reflexivity|simpl; lia].
Qed.

Lemma pieceMatcher_star_everywhere (ic : bool) (c : ascii) (s : jsstring) :
  matchesEverywhere (pieceMatcher ic [PUnit c true]) s.
Proof.
  intros i Hi. unfold pieceMatcher.
  destruct (Nat.ltb_spec (length s) i); [lia|].
  destruct (matchPieces_star ic c (skipn i s)
              (match i with 0 => None | S j => nth_error s j end) i)
    as (e & He & Hle).
  exists e. split; [exact He|]. rewrite length_skipn in Hle. lia.
Qed.

Lemma pieceMatcher_forward (ic : bool) (ps : list Piece) (s : jsstring) (i e : nat) :
  pieceMatcher ic ps s i = Some e -> i <= e.
Proof.
  unfold pieceMatcher. destruct (length s <? i); [discriminate|].
  generalize (match i with 0 => None | S j => nth_error s j end).
  generalize (skipn i s). clear s. revert i e.
  induction ps as [|[c [|]|] ps IH]; intros i e s prev H.
  - simpl in H. injection H as <-. lia.
  - revert prev i H. induction s as [|d s IHs]; intros prev i H.
    + cbn [matchPieces] in H. now apply IH in H.
    + cbn [matchPieces] in H. destruct (unitMatches ic c d).
      * match type of H with
        | match ?x with _ => _ end = _ => destruct x as [e'|] eqn:Ex
        end.
        -- injection H as <-. apply IHs in Ex. lia.
        -- now apply IH in H.
      * now apply IH in H.
  - simpl in H. destruct s as [|d s]; [discriminate|].
    destruct (unitMatches ic c d); [|discriminate]. apply IH in H. lia.
  - simpl in H. destruct (xorb _ _); [|discriminate]. now apply IH in H.
Qed.

End ReferenceEngine.

(** What find gives for the regex query "a*", which matches the empty
    string: the loops of the highlight field and of getCurrentMatchIndex
    leave by the [RangeError] of [push], so that no match is highlighted
    and the index is 1, whatever the cursor; the count, taken with
    [String.prototype.match], is that of the matches. *)
Lemma find_empty_match_result (text : jsstring) (cursor : Z) (fuel : nat) :
  Z.to_nat maxArrayLength + length text + 1 < fuel ->
  exists st' r,
    find (E := referenceEngine) fuel (searchOn text cursor) (str "a*") regexOptions
    = Ret (st', {| count := r; currentIndex := 1 |})
    /\ highlights st' = Decoration_none
    /\ countMatches (E := referenceEngine) fuel text (str "a*") regexOptions = Ret r.
Proof.
  intros Hf.
  pose proof (pieceMatcher_star_everywhere true "a"%char text) as Hm.
  assert (Hfwd : forall i e, i <= length text ->
                             pieceMatcher true [PUnit "a"%char true] text i = Some e ->
                             i <= e)
    by (intros i e _; apply pieceMatcher_forward).
  destruct (countMatches_regex_returns (E := referenceEngine) fuel text (str "a*")
              regexOptions _ eq_refl eq_refl Hfwd) as [r Hr]; [lia|].
  pose proof (getCurrentMatchIndex_overflows (E := referenceEngine) fuel text
                (selFrom {| anchor := cursor; head := cursor |}) (str "a*")
                regexOptions _ ltac:(discriminate) eq_refl eq_refl Hm Hf) as Hi.
  assert (Hh : customSearchHighlight_update (E := referenceEngine) fuel [] text
                 [setCustomSearch (Some (starHighlight
                    (selFrom {| anchor := cursor; head := cursor |})))]
               = Ret Decoration_none).
  { change (customSearchHighlight_update (E := referenceEngine) fuel [] text
              [setCustomSearch (Some (starHighlight
                 (selFrom {| anchor := cursor; head := cursor |})))])
      with (tryCatch
              (matches <~ execLoopSpans fuel (pieceMatcher true [PUnit "a"%char true])
                            text 0 [] ;;
               buildDecorations (selFrom {| anchor := cursor; head := cursor |})
                 matches None)
              (Ret Decoration_none)).
    rewrite (execLoopSpans_overflows _ _ Hm (Z.to_nat maxArrayLength) fuel 0 []
               (Nat.le_0_l _) ltac:(lia) ltac:(lia)).
    reflexivity. }
  rewrite (find_nonempty (E := referenceEngine) fuel (searchOn text cursor) (str "a*")
             regexOptions ltac:(discriminate)).
  rewrite dispatch_setSearchQuery. cbn [cbind].
  unfold dispatchEffects.
  cbn [doc editor selection highlights currentLanguage searchQuery searchQuery_update
       searchOn cursorAt regexOptions caseSensitive regexp wholeWord].
  change {| csSearch := str "a*"; csCaseSensitive := false; csRegexp := true;
            csWholeWord := false;
            csCursorPos := selFrom {| anchor := cursor; head := cursor |} |}
    with (starHighlight (selFrom {| anchor := cursor; head := cursor |})).
  change {| caseSensitive := false; regexp := true; wholeWord := false |}
    with regexOptions.
  rewrite Hh. cbn [cbind doc editor selection]. rewrite Hr. cbn [cbind].
  rewrite Hi. cbn [cbind].
  eexists. eexists. split; [reflexivity|]. split; reflexivity.
Qed.



(** C3. A regex query the engine rejects: find answers with no match and
    index 0, leaves the document alone and the highlights empty, and
    the highlight field on its own gives the empty decoration set; all
    of it whatever the fuel, no loop being entered. *)
Theorem find_invalid_regex {E : RegExpEngine} (fuel : nat) (st : SearchState)
    (searchText : jsstring) (options : SearchOptions) :
  regexp options = true ->
  RegExp_new searchText (gFlags (caseSensitive options)) = None ->
  (exists st',
      find fuel st searchText options = Ret (st', {| count := 0; currentIndex := 0 |})
      /\ highlights st' = Decoration_none
      /\ doc (editor st') = doc (editor st))
  /\ forall decorations cursorPos,
       customSearchHighlight_update fuel decorations (doc (editor st))
         [setCustomSearch (Some {| csSearch := searchText;
                                   csCaseSensitive := caseSensitive options;
                                   csRegexp := regexp options;
                                   csWholeWord := wholeWord options;
                                   csCursorPos := cursorPos |})]
       = Ret Decoration_none.
Proof.
  intros Hr Hbad. split.
  - destruct searchText as [|c r] eqn:Es.
    + eexists. split; [reflexivity|]. split; reflexivity.
    + unfold find. rewrite dispatch_setSearchQuery. cbn [cbind].
      unfold dispatchEffects at 1.
      cbn [doc editor selection highlights currentLanguage searchQuery].
      rewrite highlight_invalid_regex by assumption. cbn [cbind].
      cbn [doc editor selection].
      rewrite (countMatches_invalid_regex fuel _ (c :: r) options Hr Hbad).
      cbn [cbind].
      rewrite (getCurrentMatchIndex_invalid_regex fuel _ _ (c :: r) options Hr Hbad).
      cbn [cbind]. eexists. split; [reflexivity|]. split; reflexivity.
  - intros decorations cursorPos. now apply highlight_invalid_regex.
Qed.

Lemma find_invalid_regex_witness :
  (exists st',
      find (E := referenceEngine) 0 (searchOn (str "f(x)") 2) (str "(")
           regexOptions
      = Ret (st', {| count := 0; currentIndex := 0 |})
      /\ highlights st' = Decoration_none
      /\ doc (editor st') = str "f(x)")
  /\ forall decorations cursorPos,
       customSearchHighlight_update (E := referenceEngine) 0 decorations
         (str "f(x)")
         [setCustomSearch (Some {| csSearch := str "(";
                                   csCaseSensitive := false;
                                   csRegexp := true;
                                   csWholeWord := false;
                                   csCursorPos := cursorPos |})]
       = Ret Decoration_none.
Proof.
  apply (find_invalid_regex (E := referenceEngine) 0 (searchOn (str "f(x)") 2)
           (str "(") regexOptions).
  - reflexivity.
  - reflexivity.
Defined.

(** C10. find with the empty search text answers with no match and
    index 0; the stored query is the empty one, no highlight is left,
    and the document and the selection are as they were. *)
Theorem find_empty_search_text {E : RegExpEngine} (fuel : nat) (st : SearchState)
    (options : SearchOptions) :
  exists st',
    find fuel st [] options = Ret (st', {| count := 0; currentIndex := 0 |})
    /\ searchQuery st' = emptyQuery
    /\ sqSearch (searchQuery st') = []
    /\ highlights st' = Decoration_none
    /\ doc (editor st') = doc (editor st)
    /\ selection (editor st') = selection (editor st).
Proof.
  eexists. split; [reflexivity|]. repeat split.
Qed.

(** ** The literal scan *)

Section LiteralScan.

Lemma startsWith_length (p x : jsstring) :
  startsWith p x = true -> length p <= length x.
Proof.
  intros H. apply startsWith_iff in H as [t ->]. rewrite length_app. lia.
Qed.

Lemma startsWith_firstn (p x : jsstring) :
  startsWith p x = true <-> firstn (length p) x = p.
Proof.
  split.
  - intros H. apply startsWith_iff in H as [t ->].
    now rewrite firstn_app, firstn_all, Nat.sub_diag, app_nil_r.
  - intros H. rewrite <- (firstn_skipn (length p) x), H. apply startsWith_app.
Qed.

Lemma occursAt_bound (p s : jsstring) (r : nat) :
  p <> [] -> occursAt p s r = true -> r + length p <= length s.
Proof.
  intros Hp H. unfold occursAt in H.
  pose proof (startsWith_length _ _ H) as Hl. rewrite length_skipn in Hl.
  destruct p; [congruence|]. simpl in *. lia.
Qed.

Lemma indexOf_Some_spec (p s : jsstring) (pos q : nat) :
  p <> [] ->
  indexOf p s pos = Some q ->
  pos <= q /\ occursAt p s q = true
  /\ forall r, pos <= r -> r < q -> occursAt p s r = false.
Proof.
  intros Hp H. unfold indexOf in H.
  destruct (indexOf0 p (skipn pos s)) as [k|] eqn:E; [|discriminate].
  simpl in H. injection H as <-.
  destruct (indexOf0_Some _ _ _ E) as (Hk & Hst & Hfirst).
  rewrite skipn_skipn in Hst.
  assert (Hpos : pos <= length s).
  { destruct (Nat.le_gt_cases pos (length s)) as [Hle|Hgt]; [exact Hle|].
    exfalso. rewrite skipn_all2 in Hst by lia.
    destruct p; [congruence|discriminate]. }
  rewrite Nat.min_l by exact Hpos.
  split; [lia|]. split.
  - unfold occursAt. now rewrite (Nat.add_comm pos k).
  - intros r Hr1 Hr2. unfold occursAt.
    specialize (Hfirst (r - pos)). rewrite skipn_skipn in Hfirst.
    replace (r - pos + pos) with r in Hfirst by lia. apply Hfirst. lia.
Qed.

Lemma indexOf_None_spec (p s : jsstring) (pos : nat) :
  indexOf p s pos = None -> forall r, pos <= r -> occursAt p s r = false.
Proof.
  intros H r Hr. unfold indexOf in H.
  destruct (indexOf0 p (skipn pos s)) as [k|] eqn:E; [discriminate|].
  pose proof (indexOf0_None _ _ (r - pos) E) as Hn.
  rewrite skipn_skipn in Hn. unfold occursAt.
  now replace (r - pos + pos) with r in Hn by lia.
Qed.

(** Both [indexOf] loops end, on the matches of the leftmost scan; the
    array of the positions has room for them in a text shorter than the
    greatest array. *)
Lemma indexOfLoops_scan (s p : jsstring) :
  p <> [] ->
  forall n fuel pos acc count,
    length s + 1 - pos <= n -> n < fuel ->
    (Z.of_nat (length acc + (length s - pos)) < maxArrayLength)%Z ->
    exists ps,
      indexOfLoopPositions fuel s p pos acc = Ret (acc ++ ps)
      /\ indexOfLoopCount fuel s p pos count = Ret (count + length ps)
      /\ leftmostScan s p pos ps.
Proof.
  intros Hp. induction n as [|n IH]; intros fuel pos acc count Hn Hf Hroom.
  - destruct fuel as [|fuel]; [lia|]. cbn [indexOfLoopPositions indexOfLoopCount].
    destruct (indexOf p s pos) as [q|] eqn:E.
    + destruct (indexOf_Some_spec _ _ _ _ Hp E) as (Hq & Hocc & _).
      apply (occursAt_bound _ _ _ Hp) in Hocc.
      destruct p; [congruence|]. cbn [length] in Hocc. lia.
    + exists []. rewrite app_nil_r, Nat.add_0_r. repeat split.
      constructor. now apply indexOf_None_spec.
  - destruct fuel as [|fuel]; [lia|]. cbn [indexOfLoopPositions indexOfLoopCount].
    destruct (indexOf p s pos) as [q|] eqn:E.
    + destruct (indexOf_Some_spec _ _ _ _ Hp E) as (Hq & Hocc & Hfirst).
      assert (Hlen : 1 <= length p) by (destruct p; [congruence|cbn [length]; lia]).
      pose proof (occursAt_bound _ _ _ Hp Hocc) as Hb.
      rewrite push_room by lia. cbn [cbind].
      destruct (IH fuel (q + length p) (acc ++ [q]) (S count)) as (ps & H1 & H2 & H3);
        [lia|lia|rewrite length_app; cbn [length]; lia|].
      exists (q :: ps). rewrite H1, H2, <- app_assoc. cbn [app length].
      repeat split; [f_equal; lia|]. now constructor.
    + exists []. rewrite app_nil_r, Nat.add_0_r. repeat split.
      constructor. now apply indexOf_None_spec.
Qed.

(** The leftmost scan from an offset is one list of matches. *)
Lemma leftmostScan_unique (s p : jsstring) (pos : nat) (l1 l2 : list nat) :
  leftmostScan s p pos l1 -> leftmostScan s p pos l2 -> l1 = l2.
Proof.
  intros H1. revert l2. induction H1 as [pos Hnone | pos q rest Hq Hocc Hfirst Hrest IH];
    intros l2 H2; inversion H2 as [pos' Hnone' | pos' q' rest' Hq' Hocc' Hfirst' Hrest']; subst.
  - reflexivity.
  - rewrite (Hnone q' Hq') in Hocc'. discriminate.
  - rewrite (Hnone' q Hq) in Hocc. discriminate.
  - assert (q = q').
    { destruct (Nat.lt_trichotomy q q') as [Hlt | [Heq | Hgt]]; [|exact Heq|].
      - rewrite (Hfirst' q Hq Hlt) in Hocc. discriminate.
      - rewrite (Hfirst q' Hq' Hgt) in Hocc'. discriminate. }
    subst q'. f_equal. now apply IH.
Qed.

Lemma leftmostScan_lower (s p : jsstring) (pos : nat) (l : list nat) :
  leftmostScan s p pos l -> Forall (fun q => pos <= q) l.
Proof.
  induction 1 as [pos Hnone | pos q rest Hq Hocc Hfirst Hrest IH]; constructor.
  - exact Hq.
  - eapply Forall_impl; [|exact IH]. simpl. intros a Ha. lia.
Qed.

(** Its matches do not overlap and come in ascending order. *)
Lemma leftmostScan_sorted (s p : jsstring) (pos : nat) (l : list nat) :
  leftmostScan s p pos l ->
  StronglySorted (fun a b => a + length p <= b) l.
Proof.
  induction 1 as [pos Hnone | pos q rest Hq Hocc Hfirst Hrest IH]; constructor.
  - exact IH.
  - now apply leftmostScan_lower in Hrest.
Qed.

Lemma leftmostScan_occurs (s p : jsstring) (pos : nat) (l : list nat) :
  leftmostScan s p pos l -> Forall (fun q => occursAt p s q = true) l.
Proof.
  induction 1; constructor; assumption.
Qed.

(** It misses no match: every occurrence starts inside a match of
    the scan. *)
Lemma leftmostScan_exhaustive (s p : jsstring) (pos : nat) (l : list nat) :
  leftmostScan s p pos l ->
  forall r, pos <= r -> occursAt p s r = true ->
            exists q, In q l /\ q <= r < q + length p.
Proof.
  induction 1 as [pos Hnone | pos q rest Hq Hocc Hfirst Hrest IH]; intros r Hr Hoc.
  - rewrite (Hnone r Hr) in Hoc. discriminate.
  - destruct (Nat.lt_ge_cases r q) as [Hlt|Hge].
    + rewrite (Hfirst r Hr Hlt) in Hoc. discriminate.
    + destruct (Nat.lt_ge_cases r (q + length p)) as [Hin|Hout].
      * exists q. split; [now left|lia].
      * destruct (IH r Hout Hoc) as (q' & Hq' & Hb).
        exists q'. split; [now right|exact Hb].
Qed.

Lemma length_foldCase (cs : bool) (s : jsstring) :
  length (foldCase cs s) = length s.
Proof. destruct cs; simpl; [reflexivity|apply length_map]. Qed.

Lemma foldCase_skipn (cs : bool) (s : jsstring) (n : nat) :
  skipn n (foldCase cs s) = foldCase cs (skipn n s).
Proof. destruct cs; simpl; [reflexivity|apply skipn_map]. Qed.

Lemma foldCase_firstn (cs : bool) (s : jsstring) (n : nat) :
  firstn n (foldCase cs s) = foldCase cs (firstn n s).
Proof. destruct cs; simpl; [reflexivity|apply firstn_map]. Qed.

(** A match of the folded pattern in the folded text is a piece of
    the text that folds to the folded pattern. *)
Lemma occursAt_foldCase (cs : bool) (t q : jsstring) (r : nat) :
  occursAt (foldCase cs q) (foldCase cs t) r = true
  <-> foldCase cs (substring r (r + length q) t) = foldCase cs q.
Proof.
  unfold occursAt, substring.
  rewrite startsWith_firstn, foldCase_skipn, foldCase_firstn, length_foldCase.
  now replace (r + length q - r) with (length q) by lia.
Qed.

End LiteralScan.

Section LiteralHighlight.

Lemma scanFrom_first (m : Matcher) (s : jsstring) (i n j e : nat) :
  scanFrom m s i n = Some (j, e) ->
  forall r, i <= r -> r < j -> m s r = None.
Proof.
  revert i. induction n as [|n IH]; intros i Es r Hr1 Hr2; simpl in Es.
  - destruct (m s i) eqn:Em; [|discriminate]. injection Es as <- <-. lia.
  - destruct (m s i) eqn:Em.
    + injection Es as <- <-. lia.
    + destruct (Nat.eq_dec r i) as [->|Hne]; [exact Em|].
      apply (IH (S i) Es); lia.
Qed.

Lemma scanFrom_None (m : Matcher) (s : jsstring) (i n : nat) :
  scanFrom m s i n = None ->
  forall r, i <= r -> r <= i + n -> m s r = None.
Proof.
  revert i. induction n as [|n IH]; intros i Es r Hr1 Hr2; simpl in Es.
  - destruct (m s i) eqn:Em; [discriminate|].
    now replace r with i by lia.
  - destruct (m s i) eqn:Em; [discriminate|].
    destruct (Nat.eq_dec r i) as [->|Hne]; [exact Em|].
    apply (IH (S i) Es); lia.
Qed.

Variables (t q : jsstring) (cs : bool) (m : Matcher).
Hypothesis q_nonempty : q <> [].
Hypothesis m_literal : forall i, i <= length t -> m t i = literalMatcher cs q t i.

Lemma foldCase_nonempty : foldCase cs q <> [].
Proof.
  intros H. apply (f_equal (@length ascii)) in H.
  rewrite length_foldCase in H. destruct q; [congruence|discriminate].
Qed.

Lemma literal_hit (j e : nat) :
  j <= length t -> m t j = Some e ->
  occursAt (foldCase cs q) (foldCase cs t) j = true /\ e = j + length q.
Proof.
  intros Hj H. rewrite (m_literal j Hj) in H. unfold literalMatcher in H.
  destruct (occursAt (foldCase cs q) (foldCase cs t) j); [|discriminate].
  injection H as <-. auto.
Qed.

Lemma literal_miss (r : nat) :
  r <= length t -> m t r = None ->
  occursAt (foldCase cs q) (foldCase cs t) r = false.
Proof.
  intros Hr H. rewrite (m_literal r Hr) in H. unfold literalMatcher in H.
  now destruct (occursAt (foldCase cs q) (foldCase cs t) r).
Qed.

Lemma occursAt_beyond (r : nat) :
  length t < r -> occursAt (foldCase cs q) (foldCase cs t) r = false.
Proof.
  intros Hr. destruct (occursAt (foldCase cs q) (foldCase cs t) r) eqn:E;
    [|reflexivity].
  apply (occursAt_bound _ _ _ foldCase_nonempty) in E.
  rewrite !length_foldCase in E. lia.
Qed.

(** The [exec] loop of the highlight field, run on the regex of a
    literal, ends on the spans of the leftmost scan. *)
Lemma execLoopSpans_literal :
  forall n fuel i acc,
    i <= length t -> length t + 1 - i <= n -> n < fuel ->
    (Z.of_nat (length acc + (length t - i)) < maxArrayLength)%Z ->
    exists ps,
      execLoopSpans fuel m t i acc = Ret (acc ++ map (spanOf (length q)) ps)
      /\ leftmostScan (foldCase cs t) (foldCase cs q) i ps.
Proof.
  induction n as [|n IH]; intros fuel i acc Hi Hn Hf Hroom; [lia|].
  destruct fuel as [|fuel]; [lia|]. cbn [execLoopSpans]. unfold exec.
  destruct (Nat.ltb_spec (length t) i); [lia|].
  destruct (scanFrom m t i (length t - i)) as [[j e]|] eqn:Es.
  - destruct (scanFrom_Some m t i _ j e Es) as (Hij & Hjn & Hmj).
    assert (Hj : j <= length t) by lia.
    destruct (literal_hit j e Hj Hmj) as [Hocc ->].
    pose proof (occursAt_bound _ _ _ foldCase_nonempty Hocc) as Hb.
    rewrite !length_foldCase in Hb.
    assert (Hlen : 1 <= length q) by (destruct q; [congruence|cbn [length]; lia]).
    cbv zeta. rewrite push_room by lia. cbn [cbind].
    destruct (IH fuel (j + length q)
                (acc ++ [{| spanFrom := j; spanTo := j + (j + length q - j) |}]))
      as (ps & H1 & H2); [lia|lia|lia|rewrite length_app; cbn [length]; lia|].
    exists (j :: ps). rewrite H1, <- app_assoc. cbn [app map]. split.
    + unfold spanOf at 2. repeat f_equal. lia.
    + constructor; [exact Hij|exact Hocc| |].
      * intros r Hr1 Hr2. apply literal_miss; [lia|].
        apply (scanFrom_first m t i _ j _ Es r Hr1 Hr2).
      * now rewrite length_foldCase.
  - exists []. rewrite app_nil_r. split; [reflexivity|].
    constructor. intros r Hr.
    destruct (Nat.le_gt_cases r (length t)) as [Hle|Hgt].
    + apply literal_miss; [exact Hle|].
      apply (scanFrom_None m t i _ Es r Hr). lia.
    + now apply occursAt_beyond.
Qed.

End LiteralHighlight.

(** The reference engine compiles an escaped literal to a matcher of
    that literal. *)
Section ReferenceLiterals.

Lemma isSyntaxChar_backslash : isSyntaxChar BACKSLASH = true.
Proof. reflexivity. Qed.

Lemma isSyntaxChar_star : isSyntaxChar STAR = true.
Proof. reflexivity. Qed.

Lemma escapeRegExp_head (q : jsstring) :
  match escapeRegExp q with
  | x :: _ => Ascii.eqb x STAR = false
  | [] => q = []
  end.
Proof.
  destruct q as [|c q]; [reflexivity|]. simpl.
  destruct (isSyntaxChar c) eqn:Ec; simpl.
  - reflexivity.
  - apply Ascii.eqb_neq. intros ->.
    rewrite isSyntaxChar_star in Ec. discriminate.
Qed.

Lemma parsePattern_unit (c : ascii) (x : jsstring) :
  isSyntaxChar c = false -> headNotStar x ->
  parsePattern (c :: x) = option_map (cons (PUnit c false)) (parsePattern x).
Proof.
  intros Ec Hx.
  assert (Hb : Ascii.eqb c BACKSLASH = false).
  { apply Ascii.eqb_neq. intros ->.
    rewrite isSyntaxChar_backslash in Ec. discriminate. }
  destruct x as [|d rest]; simpl in Hx |- *; rewrite Hb, Ec; [reflexivity|].
  now rewrite Hx.
Qed.

Lemma parsePattern_escapedUnit (c : ascii) (x : jsstring) :
  isSyntaxChar c = true -> headNotStar x ->
  parsePattern (BACKSLASH :: c :: x)
  = option_map (cons (PUnit c false)) (parsePattern x).
Proof.
  intros Ec Hx.
  destruct x as [|d rest]; simpl in Hx |- *; rewrite Ec; [reflexivity|].
  now rewrite Hx.
Qed.

Lemma parsePattern_escaped (q : jsstring) :
  parsePattern (escapeRegExp q) = Some (map (fun c => PUnit c false) q).
Proof.
  induction q as [|c q IH]; [reflexivity|].
  change (escapeRegExp (c :: q))
    with ((if isSyntaxChar c then [BACKSLASH; c] else [c]) ++ escapeRegExp q).
  assert (Hh : headNotStar (escapeRegExp q)).
  { pose proof (escapeRegExp_head q) as Hh. unfold headNotStar.
    now destruct (escapeRegExp q). }
  destruct (isSyntaxChar c) eqn:Ec; simpl app.
  - rewrite (parsePattern_escapedUnit c _ Ec Hh), IH. reflexivity.
  - rewrite (parsePattern_unit c _ Ec Hh), IH. reflexivity.
Qed.

Lemma matchPieces_literal (ic : bool) (q : jsstring) :
  forall prev s i,
    matchPieces ic (map (fun c => PUnit c false) q) prev s i
    = if startsWith (foldCase (negb ic) q) (foldCase (negb ic) s)
      then Some (i + length q) else None.
Proof.
  induction q as [|c q IH]; intros prev s i.
  - simpl. destruct ic; simpl; f_equal; lia.
  - destruct s as [|d s].
    + destruct ic; reflexivity.
    + cbn [map matchPieces]. unfold unitMatches.
      destruct ic; cbn [negb foldCase toLowerCase map startsWith].
      * destruct (Ascii.eqb (lowerUnit c) (lowerUnit d)); [|reflexivity].
        rewrite IH. cbn [negb foldCase andb length].
        now replace (S i + length q) with (i + S (length q)) by lia.
      * destruct (Ascii.eqb c d); [|reflexivity].
        rewrite IH. cbn [negb foldCase andb length].
        now replace (S i + length q) with (i + S (length q)) by lia.
Qed.

Lemma referenceEngine_literals (q : jsstring) (cs : bool) :
  exists m, RegExp_new (RegExpEngine := referenceEngine) (escapeRegExp q) (gFlags cs)
            = Some m
            /\ forall s i, i <= length s -> m s i = literalMatcher cs q s i.
Proof.
  exists (pieceMatcher (negb cs) (map (fun c => PUnit c false) q)). split.
  - cbn [RegExp_new referenceEngine]. rewrite parsePattern_escaped.
    now destruct cs.
  - intros s i Hi. unfold pieceMatcher, literalMatcher, occursAt.
    destruct (Nat.ltb_spec (length s) i); [lia|].
    rewrite matchPieces_literal, negb_involutive.
    now rewrite foldCase_skipn.
Qed.

Lemma referenceEngine_compilesLiteralsExactly : compilesLiteralsExactly referenceEngine.
Proof. intros q. apply (referenceEngine_literals q true). Qed.

End ReferenceLiterals.

(** In a literal search getCurrentMatchIndex is the current match among
    the positions of the leftmost scan, so it does not decrease when the
    cursor moves forward. *)
Lemma getCurrentMatchIndex_literal {E : RegExpEngine} (t q : jsstring) (cs : bool)
    (cursorPos : Z) :
  q <> [] ->
  (Z.of_nat (length t) < maxArrayLength)%Z ->
  exists ps,
    leftmostScan (foldCase cs t) (foldCase cs q) 0 ps
    /\ getCurrentMatchIndex (length t + 2) t cursorPos q (literalOptions cs)
       = Ret (currentMatchIndex ps (length q) cursorPos).
Proof.
  intros Hq Hroom.
  assert (Hfq : foldCase cs q <> []).
  { intros H. apply (f_equal (@length ascii)) in H.
    rewrite length_foldCase in H. destruct q; [congruence|discriminate]. }
  destruct (indexOfLoops_scan (foldCase cs t) (foldCase cs q) Hfq
              (length t + 1) (length t + 2) 0 [] 0) as (ps & Hpos & Hcount & Hscan);
    [rewrite length_foldCase; lia|lia|rewrite length_foldCase; cbn [length]; lia|].
  exists ps. split; [exact Hscan|].
  rewrite (getCurrentMatchIndex_literal_unfold _ _ _ _ _ Hq).
  rewrite (countMatches_literal _ _ _ _ Hq), Hcount, Hpos.
  cbn [tryCatch cbind Nat.add app].
  destruct ps as [|p ps]; reflexivity.
Qed.

Lemma getCurrentMatchIndex_literal_monotonic {E : RegExpEngine} (t q : jsstring)
    (cs : bool) (c1 c2 : Z) :
  q <> [] ->
  (Z.of_nat (length t) < maxArrayLength)%Z ->
  (c1 <= c2)%Z ->
  exists k1 k2,
    getCurrentMatchIndex (length t + 2) t c1 q (literalOptions cs) = Ret k1
    /\ getCurrentMatchIndex (length t + 2) t c2 q (literalOptions cs) = Ret k2
    /\ k1 <= k2.
Proof.
  intros Hq Hroom Hc.
  destruct (getCurrentMatchIndex_literal t q cs c1 Hq Hroom) as (ps1 & Hs1 & H1).
  destruct (getCurrentMatchIndex_literal t q cs c2 Hq Hroom) as (ps2 & Hs2 & H2).
  assert (ps2 = ps1) by (eapply leftmostScan_unique; eassumption). subst ps2.
  eexists. eexists. split; [exact H1|]. split; [exact H2|].
  now apply currentMatchIndex_mono.
Qed.

(** The literal search where the regex of the escaped literal matches
    as [toLowerCase] folds: on code units below 256 with the [i] flag,
    and on every text without it. The [indexOf] loop of
    getCurrentMatchIndex ends on a list [ps] of positions, the count of
    countMatches is its length, and the highlight field ends on the
    spans [p, p + length q) of the same positions; these come in
    ascending order without overlap, each lies over a piece of the text
    that is [q] folded, and every occurrence starts inside one. *)
Lemma literal_search_spans_folded {E : RegExpEngine} (t q : jsstring) (cs : bool)
    (cursorPos : Z) (m : Matcher) :
  q <> [] ->
  RegExp_new (escapeRegExp q) (gFlags cs) = Some m ->
  (forall i, i <= length t -> m t i = literalMatcher cs q t i) ->
  (Z.of_nat (length t) < maxArrayLength)%Z ->
  exists ps : list nat,
    let fuel := length t + 2 in
    let spans := map (spanOf (length q)) ps in
    indexOfLoopPositions fuel (foldCase cs t) (foldCase cs q) 0 [] = Ret ps
    /\ countMatches fuel t q (literalOptions cs) = Ret (length ps)
    /\ highlightSpans fuel t (literalHighlight q cs cursorPos) = Ret spans
    /\ StronglySorted (fun a b => spanTo a <= spanFrom b) spans
    /\ Forall (fun sp =>
                 spanFrom sp < spanTo sp <= length t
                 /\ foldCase cs (substring (spanFrom sp) (spanTo sp) t)
                    = foldCase cs q) spans
    /\ leftmostScan (foldCase cs t) (foldCase cs q) 0 ps
    /\ forall r,
         foldCase cs (substring r (r + length q) t) = foldCase cs q ->
         exists sp, In sp spans /\ spanFrom sp <= r < spanTo sp.
Proof.
  intros Hq Hnew Hm Hroom.
  assert (Hfq : foldCase cs q <> []).
  { intros H. apply (f_equal (@length ascii)) in H.
    rewrite length_foldCase in H. destruct q; [congruence|discriminate]. }
  assert (Hlen : 1 <= length q) by (destruct q; [congruence|cbn [length]; lia]).
  destruct (indexOfLoops_scan (foldCase cs t) (foldCase cs q) Hfq
              (length t + 1) (length t + 2) 0 [] 0) as (ps & Hpos & Hcount & Hscan);
    [rewrite length_foldCase; lia|lia|rewrite length_foldCase; cbn [length]; lia|].
  destruct (execLoopSpans_literal t q cs m Hq Hm
              (length t + 1) (length t + 2) 0 []) as (ps' & Hspans & Hscan');
    [lia|lia|lia|cbn [length]; lia|].
  assert (ps' = ps) by (eapply leftmostScan_unique; eassumption). subst ps'.
  pose proof (leftmostScan_sorted _ _ _ _ Hscan) as Hsorted.
  pose proof (leftmostScan_occurs _ _ _ _ Hscan) as Hocc.
  rewrite length_foldCase in Hsorted.
  exists ps. cbv zeta. repeat split.
  - exact Hpos.
  - rewrite (countMatches_literal _ _ _ _ Hq), Hcount. reflexivity.
  - unfold highlightSpans, newRegExp.
    cbn [literalHighlight csRegexp csWholeWord csSearch csCaseSensitive].
    rewrite Hnew. cbn [cbind]. exact Hspans.
  - clear - Hsorted. induction Hsorted as [|a l Hl IH Ha]; simpl; constructor.
    + exact IH.
    + apply Forall_map. eapply Forall_impl; [|exact Ha]. simpl. intros b Hb. exact Hb.
  - apply Forall_map. eapply Forall_impl; [|exact Hocc].
    intros p Hp. cbn [spanOf spanFrom spanTo].
    pose proof (occursAt_bound _ _ _ Hfq Hp) as Hb.
    rewrite !length_foldCase in Hb.
    split; [lia|]. now apply occursAt_foldCase.
  - exact Hscan.
  - intros r Hr. apply occursAt_foldCase in Hr.
    destruct (leftmostScan_exhaustive _ _ _ _ Hscan r (Nat.le_0_l r) Hr)
      as (p & Hin & Hb).
    rewrite length_foldCase in Hb.
    exists (spanOf (length q) p). split; [now apply in_map|exact Hb].
Qed.

(** A case-sensitive literal search, on an engine that compiles an
    escaped literal to a matcher of it, for every text that an array
    can hold the matches of: the positions of getCurrentMatchIndex, the
    count of countMatches and the spans of the highlight field agree;
    the spans come in ascending order without overlap, the piece of the
    text under each is the query, and the scan is the leftmost one, each
    match taken whole before the search goes on. *)
Lemma literal_search_spans_case_sensitive {E : RegExpEngine} (t q : jsstring)
    (cursorPos : Z) :
  q <> [] ->
  compilesLiteralsExactly E ->
  (Z.of_nat (length t) < maxArrayLength)%Z ->
  exists ps : list nat,
    let fuel := length t + 2 in
    let spans := map (spanOf (length q)) ps in
    indexOfLoopPositions fuel t q 0 [] = Ret ps
    /\ countMatches fuel t q (literalOptions true) = Ret (length ps)
    /\ highlightSpans fuel t (literalHighlight q true cursorPos) = Ret spans
    /\ StronglySorted (fun a b => spanTo a <= spanFrom b) spans
    /\ Forall (fun sp =>
                 spanFrom sp < spanTo sp <= length t
                 /\ substring (spanFrom sp) (spanTo sp) t = q) spans
    /\ leftmostScan t q 0 ps
    /\ forall r,
         substring r (r + length q) t = q ->
         exists sp, In sp spans /\ spanFrom sp <= r < spanTo sp.
Proof.
  intros Hq HE Hroom. destruct (HE q) as (m & Hnew & Hm).
  exact (literal_search_spans_folded t q true cursorPos m Hq Hnew (Hm t) Hroom).
Qed.

(** C4. The positions of a literal search that ignores case are those
    of the query in the lower-cased text, and they are used as positions
    of the text itself. On U+0130 followed by "cat cat" and the query
    "cat" the text has the query at 1 and at 5, where the search that minds
    case finds it; lower-casing turns U+0130 into two code units, and
    the search that ignores case counts two matches at 2 and 6: the
    piece of the text from 2 to 5 is "at ", which is not the query
    under any case, and with the cursor at 5, where the second
    occurrence starts, the current match is said to be the first. *)
Theorem literal_search_positions_after_lowercase :
  let content := dotted_cat_cat in
  let searchText := units (str "cat") in
  toLowerCase16 content = Some (105 :: 775 :: units (str "cat cat"))%N
  /\ toLowerCase16 searchText = Some searchText
  /\ literalPositions16 10 content searchText true = Some (Ret [1; 5])
  /\ literalPositions16 10 content searchText false = Some (Ret [2; 6])
  /\ literalCount16 10 content searchText false = Some (Ret 2)
  /\ substring16 1 (1 + length searchText) content = searchText
  /\ substring16 5 (5 + length searchText) content = searchText
  /\ substring16 2 (2 + length searchText) content = units (str "at ")
  /\ toLowerCase16 (units (str "at ")) <> toLowerCase16 searchText
  /\ literalMatchIndex16 10 content 5 searchText true = Some (Ret 2)
  /\ literalMatchIndex16 10 content 5 searchText false = Some (Ret 1).
Proof.
  cbv zeta. repeat split; try (vm_compute; reflexivity).
  vm_compute. discriminate.
Qed.



(** ** Lines of a document *)

Section Lines.

Lemma splitLines_nonempty (d : jsstring) : splitLines d <> [].
Proof.
  destruct d as [|c r]; simpl; [discriminate|].
  destruct (isLF c); [discriminate|]. now destruct (splitLines r).
Qed.

Lemma joinLines_cons (l : jsstring) (ls : list jsstring) :
  ls <> [] -> joinLines (l :: ls) = l ++ LF :: joinLines ls.
Proof. intros H. destruct ls; [congruence|reflexivity]. Qed.

Lemma joinLines_splitLines (d : jsstring) : joinLines (splitLines d) = d.
Proof.
  induction d as [|c r IH]; [reflexivity|]. simpl.
  destruct (isLF c) eqn:Ec.
  - rewrite joinLines_cons by apply splitLines_nonempty.
    apply Ascii.eqb_eq in Ec. subst c. simpl. now rewrite IH.
  - destruct (splitLines r) as [|l ls] eqn:Es.
    + now apply splitLines_nonempty in Es.
    + destruct ls as [|l' ls'].
      * simpl in *. now subst.
      * rewrite joinLines_cons by discriminate.
        rewrite joinLines_cons in IH by discriminate.
        rewrite <- IH. reflexivity.
Qed.

Lemma splitLines_noLF (d : jsstring) : Forall noLF (splitLines d).
Proof.
  induction d as [|c r IH]; simpl.
  - constructor; [|constructor]. intros [].
  - destruct (isLF c) eqn:Ec.
    + constructor; [intros []|exact IH].
    + destruct (splitLines r) as [|l ls].
      * constructor; [|constructor]. intros [H|[]]. subst c.
        unfold isLF in Ec. now rewrite Ascii.eqb_refl in Ec.
      * inversion IH as [|? ? Hl Hls]; subst. constructor; [|exact Hls].
        intros [H|H]; [|now apply Hl]. subst c.
        unfold isLF in Ec. now rewrite Ascii.eqb_refl in Ec.
Qed.

Lemma splitLines_single (l : jsstring) : noLF l -> splitLines l = [l].
Proof.
  induction l as [|c r IH]; intros H; [reflexivity|]. simpl.
  assert (Hc : isLF c = false).
  { unfold isLF. apply Ascii.eqb_neq. intros ->. apply H. now left. }
  rewrite Hc, IH; [reflexivity|]. intros Hin. apply H. now right.
Qed.

Lemma splitLines_line_feed (l rest : jsstring) :
  noLF l -> splitLines (l ++ LF :: rest) = l :: splitLines rest.
Proof.
  induction l as [|c r IH]; intros H; [reflexivity|]. simpl.
  assert (Hc : isLF c = false).
  { unfold isLF. apply Ascii.eqb_neq. intros ->. apply H. now left. }
  rewrite Hc, IH; [reflexivity|]. intros Hin. apply H. now right.
Qed.

Lemma splitLines_joinLines (ls : list jsstring) :
  ls <> [] -> Forall noLF ls -> splitLines (joinLines ls) = ls.
Proof.
  induction ls as [|l ls IH]; intros Hne Hall; [congruence|].
  inversion Hall as [|? ? Hl Hls]; subst.
  destruct ls as [|l' ls'].
  - simpl. now apply splitLines_single.
  - rewrite joinLines_cons by discriminate.
    rewrite splitLines_line_feed by assumption.
    f_equal. apply IH; [discriminate|assumption].
Qed.

Lemma linesBefore_app (a b : list jsstring) :
  linesBefore (a ++ b) = linesBefore a ++ linesBefore b.
Proof. apply flat_map_app. Qed.

(** A document is the lines before a range, the lines of the range and
    the lines after it. *)
Lemma joinLines_before (pre rest : list jsstring) :
  rest <> [] -> joinLines (pre ++ rest) = linesBefore pre ++ joinLines rest.
Proof.
  intros Hr. induction pre as [|a pre IH]; [reflexivity|].
  simpl app. rewrite joinLines_cons.
  - rewrite IH. unfold linesBefore. simpl. now rewrite <- !app_assoc.
  - destruct pre; simpl; [exact Hr|discriminate].
Qed.

Lemma joinLines_head (a : jsstring) (post : list jsstring) :
  joinLines (a :: post) = a ++ linesAfter post.
Proof.
  revert a. induction post as [|b post IH]; intros a.
  - simpl. now rewrite app_nil_r.
  - rewrite joinLines_cons by discriminate. rewrite IH. reflexivity.
Qed.

Lemma joinLines_after (mid post : list jsstring) :
  mid <> [] -> joinLines (mid ++ post) = joinLines mid ++ linesAfter post.
Proof.
  intros Hm. induction mid as [|a mid IH]; [congruence|].
  destruct mid as [|b mid].
  - simpl app. apply joinLines_head.
  - change ((a :: b :: mid) ++ post) with (a :: (b :: mid) ++ post).
    rewrite joinLines_cons by discriminate.
    rewrite IH by discriminate.
    rewrite (joinLines_cons a (b :: mid)) by discriminate.
    now rewrite <- app_assoc.
Qed.

Lemma joinLines_range (pre mid post : list jsstring) :
  mid <> [] ->
  joinLines (pre ++ mid ++ post) = linesBefore pre ++ joinLines mid ++ linesAfter post.
Proof.
  intros Hm. rewrite joinLines_before.
  - now rewrite joinLines_after.
  - destruct mid; [congruence|discriminate].
Qed.

Lemma lineStart_before (pre rest : list jsstring) :
  lineStart (pre ++ rest) (length pre) = length (linesBefore pre).
Proof.
  induction pre as [|a pre IH]; simpl.
  - now destruct rest.
  - rewrite IH. unfold linesBefore. simpl.
    rewrite !length_app. simpl. lia.
Qed.

(** The length of a range of lines that ends with the line [l]. *)
Lemma length_joinLines_last (mid : list jsstring) (l : jsstring) :
  length (joinLines (mid ++ [l])) = length (linesBefore mid) + length l.
Proof.
  rewrite joinLines_before by discriminate. simpl. now rewrite length_app.
Qed.

(** The line that holds an offset of the line [l], [k] code units from
    its start. *)
Lemma lineIndexAt_in_line (pre : list jsstring) (l : jsstring) (rest : list jsstring)
    (k : nat) :
  k <= length l ->
  lineIndexAt (pre ++ l :: rest) (length (linesBefore pre) + k) = Some (length pre).
Proof.
  intros Hk. induction pre as [|a pre IH]; simpl.
  - destruct (Nat.leb_spec k (length l)); [reflexivity|lia].
  - unfold linesBefore in *. simpl. rewrite !length_app. simpl.
    destruct (Nat.leb_spec (length a + 1 + length (flat_map (fun l0 => l0 ++ [LF]) pre) + k)
                (length a)); [lia|].
    replace (length a + 1 + length (flat_map (fun l0 => l0 ++ [LF]) pre) + k - length a - 1)
      with (length (flat_map (fun l0 => l0 ++ [LF]) pre) + k) by lia.
    now rewrite IH.
Qed.

Lemma lineIndexAt_total (ls : list jsstring) (pos : nat) :
  ls <> [] -> pos <= length (joinLines ls) ->
  exists k, lineIndexAt ls pos = Some k /\ k < length ls.
Proof.
  revert pos. induction ls as [|l ls IH]; intros pos Hne Hpos; [congruence|].
  simpl lineIndexAt. destruct (Nat.leb_spec pos (length l)).
  - exists 0. split; [reflexivity|simpl; lia].
  - destruct ls as [|l' ls'].
    + simpl in Hpos. lia.
    + rewrite joinLines_cons in Hpos by discriminate.
      rewrite length_app in Hpos.
      change (length (LF :: joinLines (l' :: ls')))
        with (S (length (joinLines (l' :: ls')))) in Hpos.
      destruct (IH (pos - length l - 1)) as (k & Hk & Hlt); [discriminate|lia|].
      exists (S k). rewrite Hk. split; [reflexivity|simpl in *; lia].
Qed.

End Lines.

(** ** A range of lines in a document *)

Section LineRange.

Variable d : jsstring.

(** The line after the lines [a]. *)
Lemma line_after (a : list jsstring) (l : jsstring) (b : list jsstring) :
  splitLines d = a ++ l :: b ->
  line d (S (length a))
  = Done {| from := length (linesBefore a);
            to := length (linesBefore a) + length l;
            number := S (length a);
            text := l |}.
Proof.
  intros HL. unfold line, lineCount. rewrite HL.
  rewrite length_app. simpl length.
  destruct (Nat.leb_spec (S (length a)) (length a + S (length b))); [|lia].
  simpl andb. cbv iota.
  rewrite ?Nat.sub_0_r.
  replace (S (length a) - 1) with (length a) by lia.
  now rewrite lineStart_before, nth_middle.
Qed.

(** The line at an offset [k] code units into the line after [a]. *)
Lemma lineAt_after (a : list jsstring) (l : jsstring) (b : list jsstring) (k : nat) :
  splitLines d = a ++ l :: b ->
  k <= length l ->
  lineAt d (Z.of_nat (length (linesBefore a) + k))
  = Done {| from := length (linesBefore a);
            to := length (linesBefore a) + length l;
            number := S (length a);
            text := l |}.
Proof.
  intros HL Hk. unfold lineAt.
  destruct (Z.ltb_spec (Z.of_nat (length (linesBefore a) + k)) 0); [lia|].
  rewrite Nat2Z.id, HL, (lineIndexAt_in_line a l b k Hk).
  apply (line_after a l b HL).
Qed.

Lemma collectLines_range (mid a b : list jsstring) :
  splitLines d = a ++ mid ++ b ->
  collectLines d (S (length a)) (length mid) = Done mid.
Proof.
  revert a. induction mid as [|x mid IH]; intros a HL; [reflexivity|].
  simpl length. cbn [collectLines].
  rewrite (line_after a x (mid ++ b) HL). cbn [bind text].
  specialize (IH (a ++ [x])). rewrite length_app in IH. simpl length in IH.
  replace (length a + 1) with (S (length a)) in IH by lia.
  rewrite IH; [reflexivity|]. now rewrite <- app_assoc.
Qed.

Lemma line_Done (n : nat) (ln : Line) :
  line d n = Done ln ->
  1 <= n <= lineCount d /\ number ln = n /\ text ln = nth (n - 1) (splitLines d) [].
Proof.
  unfold line. destruct (Nat.leb_spec 1 n); [|discriminate].
  destruct (Nat.leb_spec n (lineCount d)); [|discriminate].
  simpl. intros Heq. injection Heq as <-. simpl. repeat split; lia.
Qed.

Lemma collectLines_inv (c i : nat) (ls : list jsstring) :
  collectLines d i c = Done ls ->
  1 <= c ->
  exists a b, splitLines d = a ++ ls ++ b /\ i = S (length a) /\ length ls = c.
Proof.
  revert i ls. induction c as [|c IH]; intros i ls H Hc; [lia|].
  cbn [collectLines] in H.
  destruct (line d i) as [ln|] eqn:El; [|discriminate]. cbn [bind] in H.
  destruct (collectLines d (S i) c) as [rest|] eqn:Er; [|discriminate].
  cbn [bind] in H. injection H as <-.
  destruct (line_Done i ln El) as ((Hi1 & Hi2) & _ & Ht). unfold lineCount in Hi2.
  destruct (nth_split (splitLines d) [] (n := i - 1)) as (l1 & l2 & HL & Hl1); [lia|].
  rewrite <- Ht in HL.
  destruct c as [|c].
  - simpl in Er. injection Er as <-.
    exists l1, l2. repeat split; [exact HL|lia].
  - destruct (IH (S i) rest Er) as (a' & b' & HL' & Hi & Hlen); [lia|].
    assert (Ha : a' = l1 ++ [text ln]).
    { assert (H1 : firstn i (splitLines d) = a').
      { rewrite HL'. rewrite firstn_app.
        replace (i - length a') with 0 by lia.
        rewrite firstn_all2 by lia. simpl. apply app_nil_r. }
      rewrite <- H1, HL. rewrite firstn_app, firstn_all2 by lia.
      now replace (i - length l1) with 1 by lia. }
    exists l1, b'. split; [|split; [lia|simpl; lia]].
    rewrite HL', Ha, <- app_assoc. reflexivity.
Qed.

(** Replacing the range of the lines [mid] by a text. *)
Lemma replace_range (pre mid post : list jsstring) (x : jsstring) :
  mid <> [] ->
  splitLines d = pre ++ mid ++ post ->
  applyChanges 0
    [{| chFrom := length (linesBefore pre);
        chTo := length (linesBefore pre) + length (joinLines mid);
        insert := x |}] d
  = linesBefore pre ++ x ++ linesAfter post.
Proof.
  intros Hm HL.
  assert (Hd : d = linesBefore pre ++ joinLines mid ++ linesAfter post).
  { rewrite <- (joinLines_splitLines d), HL. now apply joinLines_range. }
  cbn [applyChanges chFrom chTo insert]. rewrite !Nat.sub_0_r.
  rewrite Hd at 1 2.
  rewrite firstn_app, firstn_all, Nat.sub_diag. simpl firstn. rewrite app_nil_r.
  rewrite skipn_app.
  rewrite skipn_all2 by lia. simpl app.
  replace (length (linesBefore pre) + length (joinLines mid) - length (linesBefore pre))
    with (length (joinLines mid)) by lia.
  rewrite skipn_app, skipn_all, Nat.sub_diag. reflexivity.
Qed.

End LineRange.

(** ** Sorting *)

Section Sorting.

Variable cmp : jsstring -> jsstring -> Z.
Hypothesis cmp_total : forall a b, (cmp a b <= 0)%Z \/ (cmp b a <= 0)%Z.

Lemma insertSorted_perm (x : jsstring) (l : list jsstring) :
  Permutation (insertSorted cmp x l) (x :: l).
Proof.
  induction l as [|y l IH]; simpl; [reflexivity|].
  destruct (cmp x y <=? 0)%Z; [reflexivity|].
  rewrite IH. apply perm_swap.
Qed.

Lemma arraySort_perm (l : list jsstring) : Permutation (arraySort cmp l) l.
Proof.
  induction l as [|x l IH]; simpl; [reflexivity|].
  rewrite insertSorted_perm. now constructor.
Qed.

Lemma insertSorted_sorted (x : jsstring) (l : list jsstring) :
  Sorted (fun a b => (cmp a b <= 0)%Z) l ->
  Sorted (fun a b => (cmp a b <= 0)%Z) (insertSorted cmp x l).
Proof.
  induction l as [|y l IH]; intros Hs; simpl.
  - repeat constructor.
  - destruct (Z.leb_spec (cmp x y) 0) as [Hle|Hgt].
    + constructor; [exact Hs|]. now constructor.
    + inversion Hs as [|? ? Hl Hhd]; subst. constructor; [now apply IH|].
      destruct l as [|z l]; simpl.
      * constructor. destruct (cmp_total y x); [assumption|lia].
      * destruct (cmp x z <=? 0)%Z.
        -- constructor. destruct (cmp_total y x); [assumption|lia].
        -- inversion Hhd; subst. now constructor.
Qed.

Lemma arraySort_sorted (l : list jsstring) :
  Sorted (fun a b => (cmp a b <= 0)%Z) (arraySort cmp l).
Proof.
  induction l as [|x l IH]; simpl; [constructor|]. now apply insertSorted_sorted.
Qed.

(** Sorting leaves a sorted array as it is. *)
Lemma arraySort_of_sorted (l : list jsstring) :
  Sorted (fun a b => (cmp a b <= 0)%Z) l -> arraySort cmp l = l.
Proof.
  induction l as [|x l IH]; intros Hs; [reflexivity|].
  inversion Hs as [|? ? Hl Hhd]; subst. simpl. rewrite (IH Hl).
  destruct l as [|y l]; [reflexivity|]. simpl.
  inversion Hhd; subst.
  destruct (Z.leb_spec (cmp x y) 0); [reflexivity|lia].
Qed.

Lemma arraySort_idempotent (l : list jsstring) :
  arraySort cmp (arraySort cmp l) = arraySort cmp l.
Proof. apply arraySort_of_sorted, arraySort_sorted. Qed.

End Sorting.

Lemma someDiffers_same (pre l : list jsstring) :
  someDiffers l (pre ++ l) (length pre) = false.
Proof.
  revert pre. induction l as [|x l IH]; intros pre; [reflexivity|].
  simpl. rewrite nth_error_app2, Nat.sub_diag by lia. simpl.
  rewrite streq_refl. simpl.
  specialize (IH (pre ++ [x])). rewrite <- app_assoc, length_app in IH.
  simpl in IH. now replace (length pre + 1) with (S (length pre)) in IH by lia.
Qed.

Lemma someDiffers_refl (l : list jsstring) : someDiffers l l 0 = false.
Proof. apply (someDiffers_same [] l). Qed.

(** ** sortLinesAscending, sortLinesDescending *)

Section SortLines.

Variable cmp : jsstring -> jsstring -> Z.
Hypothesis cmp_total : forall a b, (cmp a b <= 0)%Z \/ (cmp b a <= 0)%Z.

Lemma length_joinLines_two (ls : list jsstring) :
  2 <= length ls -> 1 <= length (joinLines ls).
Proof.
  intros H. destruct ls as [|a [|b ls]]; [simpl in H; lia|simpl in H; lia|].
  rewrite joinLines_cons by discriminate. rewrite length_app. simpl. lia.
Qed.

(** What the first pass dispatches: the lines of a range of at least
    two lines give way to the same lines sorted, and the selection is
    put over them. *)
Lemma sortLinesWith_dispatch_inv (st : EditorState) (tr : Transaction) :
  sortLinesWith cmp st = Done (Some tr) ->
  exists a lines b,
    splitLines (doc st) = a ++ lines ++ b
    /\ 2 <= length lines
    /\ tr = {| changes :=
                 [{| chFrom := length (linesBefore a);
                     chTo := length (linesBefore a) + length (joinLines lines);
                     insert := joinLines (arraySort cmp lines) |}];
               newSelection :=
                 {| anchor := Z.of_nat (length (linesBefore a));
                    head := Z.of_nat (length (linesBefore a)
                                      + length (joinLines (arraySort cmp lines))) |} |}.
Proof.
  unfold sortLinesWith. intros H.
  destruct (lineRange st) as [[s e]|]; [|discriminate]. cbn [bind] in H.
  destruct (collectLines (doc st) s (S e - s)) as [lines|] eqn:Ec; [|discriminate].
  cbn [bind] in H.
  destruct (someDiffers lines (arraySort cmp lines) 0) eqn:Ed; [|discriminate].
  cbn [negb] in H.
  destruct (line (doc st) s) as [ls|] eqn:Els; [|discriminate]. cbn [bind] in H.
  destruct (line (doc st) e) as [le|] eqn:Ele; [|discriminate]. cbn [bind] in H.
  injection H as <-.
  assert (Hlen2 : 2 <= length lines).
  { destruct lines as [|x [|y lines]]; simpl length; try lia.
    - simpl in Ed. discriminate.
    - simpl in Ed. rewrite streq_refl in Ed. discriminate. }
  assert (Hc : 1 <= S e - s).
  { destruct (S e - s); [|lia]. simpl in Ec. injection Ec as <-. simpl in Hlen2. lia. }
  destruct (collectLines_inv (doc st) _ _ _ Ec Hc) as (a & b & HL & Hs & Hlen).
  exists a, lines, b. split; [exact HL|]. split; [exact Hlen2|].
  destruct lines as [|x lines'] eqn:El; [simpl in Hlen2; lia|].
  assert (Hfrom : from ls = length (linesBefore a)).
  { rewrite Hs, (line_after (doc st) a x (lines' ++ b) HL) in Els.
    injection Els as <-. reflexivity. }
  assert (Hto : to le = length (linesBefore a) + length (joinLines (x :: lines'))).
  { destruct (exists_last (l := x :: lines')) as (front & y & Ey); [discriminate|].
    rewrite Ey in HL, Hlen |- *. rewrite length_app in Hlen. simpl length in Hlen.
    assert (HL' : splitLines (doc st) = (a ++ front) ++ y :: b).
    { rewrite HL, <- !app_assoc. reflexivity. }
    assert (He : e = S (length (a ++ front))) by (rewrite length_app; lia).
    rewrite He, (line_after (doc st) (a ++ front) y b HL') in Ele.
    injection Ele as <-. cbn [to].
    rewrite linesBefore_app, length_app, length_joinLines_last. lia. }
  rewrite Hfrom, Hto. reflexivity.
Qed.

(** A pass over a range that is sorted and selected dispatches nothing. *)
Lemma sortLinesWith_sorted_range (st : EditorState) (a mid b : list jsstring) :
  splitLines (doc st) = a ++ mid ++ b ->
  2 <= length mid ->
  Sorted (fun x y => (cmp x y <= 0)%Z) mid ->
  selection st
  = {| anchor := Z.of_nat (length (linesBefore a));
       head := Z.of_nat (length (linesBefore a) + length (joinLines mid)) |} ->
  sortLinesWith cmp st = Done None.
Proof.
  intros HL Hlen Hsorted Hsel.
  pose proof (length_joinLines_two mid Hlen) as Hj.
  assert (Hrange : lineRange st = Done (S (length a), length a + length mid)).
  { unfold lineRange, selEmpty, selFrom, selTo. rewrite Hsel. cbn [anchor head].
    destruct (Z.eqb_spec (Z.of_nat (length (linesBefore a)))
                (Z.of_nat (length (linesBefore a) + length (joinLines mid)))); [lia|].
    rewrite Z.min_l, Z.max_r by lia.
    destruct mid as [|x mid'] eqn:Em; [simpl in Hlen; lia|].
    rewrite <- (Nat.add_0_r (length (linesBefore a))) at 1.
    rewrite (lineAt_after (doc st) a x (mid' ++ b) 0 HL (Nat.le_0_l _)). cbn [bind].
    destruct (exists_last (l := x :: mid')) as (front & y & Ey); [discriminate|].
    rewrite Ey in HL |- *.
    assert (HL' : splitLines (doc st) = (a ++ front) ++ y :: b).
    { rewrite HL, <- !app_assoc. reflexivity. }
    replace (length (linesBefore a) + length (joinLines (front ++ [y])))
      with (length (linesBefore (a ++ front)) + length y)
      by (rewrite linesBefore_app, length_app, length_joinLines_last; lia).
    rewrite (lineAt_after (doc st) (a ++ front) y b (length y) HL' (Nat.le_refl _)).
    cbn [bind number]. rewrite !length_app. simpl length. do 2 f_equal. lia. }
  unfold sortLinesWith. rewrite Hrange. cbn [bind].
  replace (S (length a + length mid) - S (length a)) with (length mid) by lia.
  rewrite (collectLines_range (doc st) mid a b HL). cbn [bind].
  rewrite (arraySort_of_sorted cmp mid Hsorted), someDiffers_refl. reflexivity.
Qed.

(** The second pass of a sort dispatches nothing. *)
Lemma sortLinesWith_second_pass (st : EditorState) (tr : Transaction) :
  sortLinesWith cmp st = Done (Some tr) ->
  sortLinesWith cmp (dispatch st tr) = Done None.
Proof.
  intros H.
  destruct (sortLinesWith_dispatch_inv st tr H) as (a & lines & b & HL & Hlen & ->).
  pose proof (arraySort_perm cmp lines) as Hperm.
  assert (Hlen' : 2 <= length (arraySort cmp lines))
    by (rewrite (Permutation_length Hperm); exact Hlen).
  assert (Hne : lines <> []) by (destruct lines; [simpl in Hlen; lia|discriminate]).
  assert (Hne' : arraySort cmp lines <> [])
    by (destruct (arraySort cmp lines); [simpl in Hlen'; lia|discriminate]).
  apply (sortLinesWith_sorted_range _ a (arraySort cmp lines) b).
  - unfold dispatch. cbn [doc changes].
    rewrite (replace_range (doc st) a lines b _ Hne HL).
    rewrite <- joinLines_range by exact Hne'.
    apply splitLines_joinLines.
    + destruct a; [|discriminate]. simpl.
      destruct (arraySort cmp lines); [congruence|discriminate].
    + pose proof (splitLines_noLF (doc st)) as Hall. rewrite HL in Hall.
      apply Forall_app in Hall as [Ha Hall]. apply Forall_app in Hall as [Hm Hb].
      apply Forall_app. split; [exact Ha|]. apply Forall_app. split; [|exact Hb].
      eapply Permutation_Forall; [|exact Hm]. now symmetry.
  - exact Hlen'.
  - now apply arraySort_sorted.
  - reflexivity.
Qed.

Lemma line_total (d : jsstring) (n : nat) :
  1 <= n <= lineCount d -> exists ln, line d n = Done ln /\ number ln = n.
Proof.
  intros [H1 H2]. unfold line.
  destruct (Nat.leb_spec 1 n); [|lia]. destruct (Nat.leb_spec n (lineCount d)); [|lia].
  simpl. eexists. split; reflexivity.
Qed.

Lemma lineAt_total (d : jsstring) (pos : Z) :
  (0 <= pos <= Z.of_nat (length d))%Z ->
  exists ln, lineAt d pos = Done ln /\ 1 <= number ln <= lineCount d.
Proof.
  intros Hpos. unfold lineAt. destruct (Z.ltb_spec pos 0); [lia|].
  destruct (lineIndexAt_total (splitLines d) (Z.to_nat pos)) as (k & Hk & Hlt).
  - apply splitLines_nonempty.
  - rewrite joinLines_splitLines. lia.
  - rewrite Hk. destruct (line_total d (S k)) as (ln & Hln & Hn);
      [unfold lineCount; lia|].
    exists ln. split; [exact Hln|]. unfold lineCount. lia.
Qed.

Lemma collectLines_total (d : jsstring) (c i : nat) :
  1 <= i -> i + c <= S (lineCount d) -> exists ls, collectLines d i c = Done ls.
Proof.
  revert i. induction c as [|c IH]; intros i H1 H2; [now exists []|].
  cbn [collectLines].
  destruct (line_total d i) as (ln & Hln & _); [lia|]. rewrite Hln. cbn [bind].
  destruct (IH (S i)) as (ls & Hls); [lia|lia|]. rewrite Hls. cbn [bind].
  now eexists.
Qed.

(** On a state whose selection lies in the document the pass runs to
    its end. *)
Lemma sortLinesWith_total (st : EditorState) :
  wellFormed st -> exists r, sortLinesWith cmp st = Done r.
Proof.
  intros [Ha Hh].
  assert (Hrange : exists s e, lineRange st = Done (s, e)
                               /\ 1 <= s <= lineCount (doc st)
                               /\ 1 <= e <= lineCount (doc st)).
  { unfold lineRange. destruct (selEmpty (selection st)).
    - exists 1, (lineCount (doc st)). split; [reflexivity|].
      pose proof (splitLines_nonempty (doc st)) as Hne. unfold lineCount.
      destruct (splitLines (doc st)); [congruence|simpl; lia].
    - destruct (lineAt_total (doc st) (selFrom (selection st))) as (ls & Hls & Hs);
        [unfold selFrom; lia|].
      destruct (lineAt_total (doc st) (selTo (selection st))) as (le & Hle & He);
        [unfold selTo; lia|].
      exists (number ls), (number le). rewrite Hls, Hle. cbn [bind]. auto. }
  destruct Hrange as (s & e & Hr & Hs & He).
  unfold sortLinesWith. rewrite Hr. cbn [bind].
  destruct (collectLines_total (doc st) (S e - s) s) as (lines & Hl); [lia|lia|].
  rewrite Hl. cbn [bind].
  destruct (negb (someDiffers lines (arraySort cmp lines) 0)); [now eexists|].
  destruct (line_total (doc st) s Hs) as (ls & Hls & _).
  destruct (line_total (doc st) e He) as (le & Hle & _).
  rewrite Hls, Hle. cbn [bind]. now eexists.
Qed.

(** A sort, run twice: the first pass ends, and the second dispatches
    nothing and leaves the state of the first. *)
Lemma sortLinesWith_twice (st : EditorState) :
  wellFormed st ->
  exists st1,
    run (sortLinesWith cmp) st = Done st1
    /\ sortLinesWith cmp st1 = Done None
    /\ run (sortLinesWith cmp) st1 = Done st1.
Proof.
  intros Hwf. destruct (sortLinesWith_total st Hwf) as (r & Hr).
  assert (H2 : sortLinesWith cmp
                 (match r with Some tr => dispatch st tr | None => st end)
               = Done None).
  { destruct r as [tr|]; [now apply sortLinesWith_second_pass|exact Hr]. }
  eexists. unfold run. rewrite Hr. cbn [bind]. split; [reflexivity|].
  split; [exact H2|]. now rewrite H2.
Qed.

End SortLines.

Section ReferenceCollator.

Lemma compareUnits_total (a b : jsstring) :
  (compareUnits a b <= 0)%Z \/ (compareUnits b a <= 0)%Z.
Proof.
  revert b. induction a as [|x a IH]; intros [|y b]; simpl; try lia.
  destruct (Nat.ltb_spec (nat_of_ascii x) (nat_of_ascii y));
    destruct (Nat.ltb_spec (nat_of_ascii y) (nat_of_ascii x)); try lia.
  apply IH.
Qed.

Lemma compareUnits_trans (a b c : jsstring) :
  (compareUnits a b <= 0)%Z -> (compareUnits b c <= 0)%Z ->
  (compareUnits a c <= 0)%Z.
Proof.
  revert b c. induction a as [|x a IH]; intros [|y b] [|z c]; simpl; try lia.
  destruct (Nat.ltb_spec (nat_of_ascii x) (nat_of_ascii y));
    destruct (Nat.ltb_spec (nat_of_ascii y) (nat_of_ascii x));
    destruct (Nat.ltb_spec (nat_of_ascii y) (nat_of_ascii z));
    destruct (Nat.ltb_spec (nat_of_ascii z) (nat_of_ascii y));
    destruct (Nat.ltb_spec (nat_of_ascii x) (nat_of_ascii z));
    destruct (Nat.ltb_spec (nat_of_ascii z) (nat_of_ascii x));
    try lia.
  apply IH.
Qed.

Lemma referenceCollator_consistent : consistentComparator compareUnits.
Proof.
  split; [exact compareUnits_total|exact compareUnits_trans].
Qed.

End ReferenceCollator.

(** C8. On a state whose selection lies in the document, with a
    collation that orders the strings consistently: sortLinesAscending
    runs to its end, and run again on the state it leaves it finds the
    lines in order, dispatches nothing and leaves that state as it is;
    and so does sortLinesDescending. *)
Theorem sortLines_second_pass_no_dispatch {C : Collator} (st : EditorState) :
  consistentComparator localeCompare ->
  wellFormed st ->
  (exists st1,
      run sortLinesAscending st = Done st1
      /\ sortLinesAscending st1 = Done None
      /\ run sortLinesAscending st1 = Done st1)
  /\ (exists st1,
         run sortLinesDescending st = Done st1
         /\ sortLinesDescending st1 = Done None
         /\ run sortLinesDescending st1 = Done st1).
Proof.
  intros [Htotal _] Hwf. split.
  - apply (sortLinesWith_twice (fun a b => localeCompare a b)); [|exact Hwf].
    intros a b. apply Htotal.
  - apply (sortLinesWith_twice (fun a b => localeCompare b a)); [|exact Hwf].
    intros a b. apply Htotal.
Qed.

Lemma sortLines_second_pass_no_dispatch_witness :
  (exists st1,
      run (sortLinesAscending (C := referenceCollator)) (cursorAt doc_b_a_c 0 None)
      = Done st1
      /\ sortLinesAscending (C := referenceCollator) st1 = Done None
      /\ run (sortLinesAscending (C := referenceCollator)) st1 = Done st1)
  /\ (exists st1,
         run (sortLinesDescending (C := referenceCollator)) (cursorAt doc_b_a_c 0 None)
         = Done st1
         /\ sortLinesDescending (C := referenceCollator) st1 = Done None
         /\ run (sortLinesDescending (C := referenceCollator)) st1 = Done st1).
Proof.
  apply (sortLines_second_pass_no_dispatch (C := referenceCollator)
           (cursorAt doc_b_a_c 0 None)).
  - exact referenceCollator_consistent.
  - unfold wellFormed. simpl. lia.
Defined.

(** ** Line endings, further *)

Section LineEndingConversions.

Lemma replaceUnit_removes (c : ascii) (rep s : jsstring) :
  ~ In c rep -> ~ In c (replaceUnit c rep s).
Proof.
  intros Hrep. induction s as [|d r IH]; simpl; [intros []|].
  destruct (Ascii.eqb d c) eqn:E.
  - intros Hin. apply in_app_or in Hin as [H|H]; [now apply Hrep|now apply IH].
  - intros [H|H]; [|now apply IH]. subst d. now rewrite Ascii.eqb_refl in E.
Qed.

Lemma normalizeToLF_has_no_CR (s : jsstring) : ~ In CR (normalizeToLF s).
Proof.
  unfold normalizeToLF. apply replaceUnit_removes.
  intros [H|[]]. discriminate H.
Qed.

Lemma normalizeToLF_idempotent (s : jsstring) :
  normalizeToLF (normalizeToLF s) = normalizeToLF s.
Proof. apply normalizeToLF_noCR, normalizeToLF_has_no_CR. Qed.

(** Turning every LF into CR and back gives the text one started from,
    when it had no CR of its own. *)
Lemma replaceCRLFbyLF_noLF (s : jsstring) :
  ~ In LF s -> replaceCRLFbyLF s = s.
Proof.
  induction s as [|c r IH]; intros Hno; simpl; [reflexivity|].
  assert (Hr : ~ In LF r) by (intros Hin; apply Hno; now right).
  destruct (isCR c); [|now rewrite IH].
  destruct r as [|d r']; [reflexivity|].
  assert (Hd : isLF d = false).
  { unfold isLF. apply Ascii.eqb_neq. intros ->. apply Hr. now left. }
  rewrite Hd. now rewrite IH.
Qed.

Lemma replaceUnit_back (c d : ascii) (s : jsstring) :
  ~ In d s -> replaceUnit d [c] (replaceUnit c [d] s) = s.
Proof.
  induction s as [|x r IH]; intros Hno; simpl; [reflexivity|].
  assert (Hr : ~ In d r) by (intros Hin; apply Hno; now right).
  destruct (Ascii.eqb x c) eqn:E.
  - apply Ascii.eqb_eq in E. subst x. simpl. rewrite Ascii.eqb_refl. simpl.
    now rewrite IH.
  - simpl. destruct (Ascii.eqb x d) eqn:E'.
    + apply Ascii.eqb_eq in E'. subst x. exfalso. apply Hno. now left.
    + now rewrite IH.
Qed.

Lemma normalizeToLF_fromCR (s : jsstring) :
  ~ In CR s -> normalizeToLF (replaceUnit LF [CR] s) = s.
Proof.
  intros Hno. unfold normalizeToLF.
  rewrite replaceCRLFbyLF_noLF.
  - now apply replaceUnit_back.
  - apply replaceUnit_removes. intros [H|[]]. discriminate H.
Qed.

Lemma run_convertToCR (st : EditorState) :
  run convertToCR st
  = Done {| doc := replaceUnit LF [CR] (normalizeToLF (doc st));
            selection := selection st;
            currentLanguage := currentLanguage st |}.
Proof.
  apply (run_replaceWholeDocument st (replaceUnit LF [CR] (normalizeToLF (doc st)))).
Qed.

Lemma replaceWholeDocument_same (st : EditorState) :
  replaceWholeDocument st (doc st) = Done None.
Proof. unfold replaceWholeDocument. now rewrite streq_refl. Qed.

End LineEndingConversions.

(** X2. After any of the three conversions a convertToLF gives the
    content that a convertToLF of the original document gives: the
    conversions to CRLF and to CR lose nothing that the one to LF
    keeps. *)
Theorem convertToLF_after_any_conversion (st : EditorState) :
  exists stLF stCRLF stCR stA stB,
    run convertToLF st = Done stLF
    /\ run convertToCRLF st = Done stCRLF
    /\ run convertToCR st = Done stCR
    /\ run convertToLF stCRLF = Done stA
    /\ run convertToLF stCR = Done stB
    /\ stA = stLF /\ stB = stLF.
Proof.
  pose proof (normalizeToLF_has_no_CR (doc st)) as Hno.
  do 5 eexists.
  split; [apply run_convertToLF|].
  split; [apply run_convertToCRLF|].
  split; [apply run_convertToCR|].
  split; [apply run_convertToLF|].
  split; [apply run_convertToLF|].
  cbn [doc selection currentLanguage].
  rewrite (normalizeToLF_expand _ Hno), (normalizeToLF_fromCR _ Hno).
  split; reflexivity.
Qed.

(** ** detectLineEnding, further *)

Section DetectByCounts.

Lemma includes_unit (c : ascii) (s : jsstring) :
  includes [c] s = true <-> In c s.
Proof.
  unfold includes. split.
  - destruct (indexOf0 [c] s) as [k|] eqn:E; [|discriminate]. intros _.
    destruct (indexOf0_Some _ _ _ E) as (_ & Hst & _).
    apply startsWith_iff in Hst as [t Ht].
    rewrite <- (firstn_skipn k s), Ht. apply in_or_app. right. now left.
  - intros Hin. destruct (indexOf0 [c] s) as [k|] eqn:E; [reflexivity|].
    exfalso. apply in_split in Hin as (l1 & l2 & ->).
    pose proof (indexOf0_None _ _ (length l1) E) as Hn.
    rewrite skipn_app, skipn_all, Nat.sub_diag in Hn. simpl in Hn.
    now rewrite Ascii.eqb_refl in Hn.
Qed.

Lemma countTerminators_none (s : jsstring) (n : TerminatorCounts) :
  ~ In CR s -> ~ In LF s -> countTerminators s n = n.
Proof.
  revert n. induction s as [|c r IH]; intros n Hcr Hlf; [reflexivity|].
  simpl.
  assert (Hc : isCR c = false).
  { unfold isCR. apply Ascii.eqb_neq. intros ->. apply Hcr. now left. }
  assert (Hl : isLF c = false).
  { unfold isLF. apply Ascii.eqb_neq. intros ->. apply Hlf. now left. }
  rewrite Hc, Hl. apply IH; intros Hin; [apply Hcr|apply Hlf]; now right.
Qed.

(** The test on [includes] at the head of [detectLineEnding] changes
    nothing: its answer is the one the counts give. *)
Lemma detectLineEndingOf_counts (content : jsstring) :
  detectLineEndingOf content
  = lineEndingOfCounts (countTerminators content noTerminatorCounts).
Proof.
  unfold detectLineEndingOf. fold noTerminatorCounts.
  destruct (negb (includes [CR; LF] content)
            && negb (includes [CR] content && negb (includes [CR; LF] content))
            && negb (includes [LF] content && negb (includes [CR; LF] content)))
    eqn:Eb; [|reflexivity].
  apply andb_true_iff in Eb as [Eb Hlf]. apply andb_true_iff in Eb as [Hcrlf Hcr].
  apply negb_true_iff in Hcrlf. rewrite Hcrlf in Hcr, Hlf. simpl in Hcr, Hlf.
  rewrite andb_true_r in Hcr, Hlf.
  apply negb_true_iff in Hcr. apply negb_true_iff in Hlf.
  rewrite countTerminators_none; [reflexivity| |].
  - intros Hin. apply includes_unit in Hin. congruence.
  - intros Hin. apply includes_unit in Hin. congruence.
Qed.

Lemma countTerminators_nonneg (s : jsstring) :
  forall n,
    (0 <= crlfCount n)%Z -> (0 <= crCount n)%Z -> (0 <= lfCount n)%Z ->
    (0 <= crlfCount (countTerminators s n))%Z
    /\ (0 <= crCount (countTerminators s n))%Z
    /\ (0 <= lfCount (countTerminators s n))%Z.
Proof.
  assert (G : forall k (s : jsstring), length s <= k -> forall n,
              (0 <= crlfCount n)%Z -> (0 <= crCount n)%Z -> (0 <= lfCount n)%Z ->
              (0 <= crlfCount (countTerminators s n))%Z
              /\ (0 <= crCount (countTerminators s n))%Z
              /\ (0 <= lfCount (countTerminators s n))%Z).
  { induction k as [|k IH]; intros s0 Hk n H1 H2 H3.
    - destruct s0; [simpl; auto|simpl in Hk; lia].
    - destruct s0 as [|c r]; [simpl; auto|]. simpl in Hk. simpl.
      destruct (isCR c).
      + destruct r as [|d r'].
        * simpl. repeat split; lia.
        * destruct (isLF d).
          -- apply IH; simpl in *; lia.
          -- apply IH; simpl in *; lia.
      + destruct (isLF c); apply IH; simpl in *; lia. }
  intros n. apply (G (length s) s (Nat.le_refl _)).
Qed.

Lemma percent_above_ten (c t : Z) :
  (0 < t)%Z -> (Qlt (inject_Z 10) (percent c t) <-> (t < 10 * c)%Z).
Proof.
  intros Ht. destruct t as [|p|p]; try lia.
  unfold percent, Qdiv, Qlt, Qmult, Qinv, inject_Z. cbn [Qnum Qden].
  rewrite ?Pos.mul_1_l, ?Pos.mul_1_r, ?Z.mul_1_r. lia.
Qed.

Lemma Qle_bool_false_lt (a b : Q) : Qle_bool a b = false <-> Qlt b a.
Proof.
  split.
  - intros H. apply Qnot_le_lt. intros Hle. apply Qle_bool_iff in Hle. congruence.
  - intros H. destruct (Qle_bool a b) eqn:E; [|reflexivity].
    apply Qle_bool_iff in E. exfalso. now apply (Qlt_not_le _ _ H).
Qed.

(** MIXED is for three types present, each with more than a tenth of
    the terminators. *)
Lemma lineEndingOfCounts_mixed (n : TerminatorCounts) :
  (0 <= crlfCount n)%Z -> (0 <= crCount n)%Z -> (0 <= lfCount n)%Z ->
  (lineEndingOfCounts n = LE_MIXED
   <-> let total := (crlfCount n + crCount n + lfCount n)%Z in
       (total < 10 * crlfCount n)%Z /\ (total < 10 * crCount n)%Z
       /\ (total < 10 * lfCount n)%Z).
Proof.
  intros Ha Hb Hc. unfold lineEndingOfCounts. cbv zeta.
  set (total := (crlfCount n + crCount n + lfCount n)%Z).
  destruct (Z.eqb_spec total 0) as [H0|H0].
  - split; [discriminate|]. intros (H1 & H2 & H3). lia.
  - assert (Ht : (0 < total)%Z) by (unfold total; lia).
    destruct (Qle_bool _ _) eqn:Eq.
    + rewrite andb_false_r. split.
      * repeat match goal with
               | |- context [if ?b then _ else _] => destruct b
               end; discriminate.
      * intros (H1 & H2 & H3). exfalso.
        apply (percent_above_ten _ _ Ht) in H1, H2, H3.
        apply Qle_bool_iff in Eq.
        apply (Qlt_not_le _ _ (proj2 (Q.min_glb_lt_iff _ _ _)
                                 (conj H1 (proj2 (Q.min_glb_lt_iff _ _ _) (conj H2 H3))))).
        exact Eq.
    + apply Qle_bool_false_lt in Eq.
      apply Q.min_glb_lt_iff in Eq as [H1 Eq].
      apply Q.min_glb_lt_iff in Eq as [H2 H3].
      apply (percent_above_ten _ _ Ht) in H1, H2, H3.
      assert (Hp : (present (crlfCount n) + present (crCount n)
                    + present (lfCount n) >? 1)%Z = true).
      { unfold present.
        destruct (Z.gtb_spec (crlfCount n) 0); [|lia].
        destruct (Z.gtb_spec (crCount n) 0); [|lia].
        destruct (Z.gtb_spec (lfCount n) 0); [|lia]. reflexivity. }
      rewrite Hp. simpl. split; [intros _; auto|reflexivity].
Qed.

(** One type of terminator only, [k] times. *)
Lemma lineEndingOfCounts_single (k : Z) :
  (0 < k)%Z ->
  lineEndingOfCounts {| crlfCount := k; crCount := 0; lfCount := 0 |} = LE_CRLF
  /\ lineEndingOfCounts {| crlfCount := 0; crCount := k; lfCount := 0 |} = LE_CR
  /\ lineEndingOfCounts {| crlfCount := 0; crCount := 0; lfCount := k |} = LE_LF.
Proof.
  intros Hk. unfold lineEndingOfCounts, present. cbn [crlfCount crCount lfCount].
  rewrite !Z.add_0_r, !Z.add_0_l.
  destruct (Z.eqb_spec k 0); [lia|].
  destruct (Z.gtb_spec k 0); [|lia]. simpl.
  destruct (Z.geb_spec k 0); [|lia].
  destruct (Z.geb_spec 0 k); [lia|]. simpl. auto.
Qed.

Lemma countLF_nonneg (s : jsstring) : (0 <= countLF s)%Z.
Proof. unfold countLF. lia. Qed.

Lemma countLF_pos (s : jsstring) : In LF s <-> (0 < countLF s)%Z.
Proof.
  unfold countLF. rewrite (count_occ_In ascii_dec). lia.
Qed.

Lemma countLF_cons (c : ascii) (s : jsstring) :
  countLF (c :: s) = ((if isLF c then 1 else 0) + countLF s)%Z.
Proof.
  unfold countLF, isLF. simpl. destruct (ascii_dec c LF) as [->|Hne].
  - rewrite Ascii.eqb_refl. lia.
  - apply Ascii.eqb_neq in Hne. rewrite Hne. lia.
Qed.

(** The counts of a text of LF terminators, and of the same text with
    CRLF or CR for each of them. *)
Lemma countTerminators_LF (s : jsstring) :
  ~ In CR s ->
  forall n, countTerminators s n
            = {| crlfCount := crlfCount n; crCount := crCount n;
                 lfCount := lfCount n + countLF s |}.
Proof.
  induction s as [|c r IH]; intros Hno n.
  - cbn. rewrite Z.add_0_r. now destruct n.
  - assert (Hc : isCR c = false).
    { unfold isCR. apply Ascii.eqb_neq. intros ->. apply Hno. now left. }
    assert (Hr : ~ In CR r) by (intros Hin; apply Hno; now right).
    simpl countTerminators. rewrite Hc, countLF_cons.
    destruct (isLF c); remember (_ + countLF r)%Z as k eqn:Ek;
      rewrite (IH Hr); cbn [crlfCount crCount lfCount]; f_equal; lia.
Qed.

Lemma countTerminators_CRLF (s : jsstring) :
  ~ In CR s ->
  forall n, countTerminators (replaceUnit LF [CR; LF] s) n
            = {| crlfCount := crlfCount n + countLF s; crCount := crCount n;
                 lfCount := lfCount n |}.
Proof.
  induction s as [|c r IH]; intros Hno n.
  - cbn. rewrite Z.add_0_r. now destruct n.
  - assert (Hc : isCR c = false).
    { unfold isCR. apply Ascii.eqb_neq. intros ->. apply Hno. now left. }
    assert (Hr : ~ In CR r) by (intros Hin; apply Hno; now right).
    rewrite countLF_cons. simpl replaceUnit. fold (isLF c).
    destruct (isLF c) eqn:El; remember (_ + countLF r)%Z as k eqn:Ek.
    + simpl. rewrite (IH Hr). cbn [crlfCount crCount lfCount]. f_equal; lia.
    + simpl. rewrite Hc, El, (IH Hr). f_equal; lia.
Qed.

Lemma countTerminators_CR (s : jsstring) :
  ~ In CR s ->
  forall n, countTerminators (replaceUnit LF [CR] s) n
            = {| crlfCount := crlfCount n; crCount := crCount n + countLF s;
                 lfCount := lfCount n |}.
Proof.
  induction s as [|c r IH]; intros Hno n.
  - cbn. rewrite Z.add_0_r. now destruct n.
  - assert (Hc : isCR c = false).
    { unfold isCR. apply Ascii.eqb_neq. intros ->. apply Hno. now left. }
    assert (Hr : ~ In CR r) by (intros Hin; apply Hno; now right).
    rewrite countLF_cons. simpl replaceUnit. fold (isLF c).
    destruct (isLF c) eqn:El; remember (_ + countLF r)%Z as k eqn:Ek.
    + assert (Hnext : ~ In LF (replaceUnit LF [CR] r)).
      { apply replaceUnit_removes. intros [H|[]]. discriminate H. }
      simpl app. cbn [countTerminators]. change (isCR CR) with true. cbv iota.
      destruct (replaceUnit LF [CR] r) as [|d r'] eqn:Er.
      * specialize (IH Hr {| crlfCount := crlfCount n; crCount := crCount n + 1;
                             lfCount := lfCount n |}).
        cbn [countTerminators] in IH |- *. cbn [crlfCount crCount lfCount] in IH.
        injection IH as E. f_equal. lia.
      * assert (Hd : isLF d = false).
        { unfold isLF. apply Ascii.eqb_neq. intros ->. apply Hnext. now left. }
        rewrite Hd, (IH Hr). cbn [crlfCount crCount lfCount]. f_equal; lia.
    + simpl. rewrite Hc, El, (IH Hr). f_equal; lia.
Qed.

Lemma hasLineBreak_replaceCRLFbyLF (s : jsstring) :
  hasLineBreak (replaceCRLFbyLF s) = hasLineBreak s.
Proof.
  assert (G : forall k (s : jsstring), length s <= k ->
              hasLineBreak (replaceCRLFbyLF s) = hasLineBreak s).
  { induction k as [|k IH]; intros s0 Hk.
    - destruct s0; [reflexivity|simpl in Hk; lia].
    - destruct s0 as [|c r]; [reflexivity|]. simpl in Hk. simpl.
      destruct (isCR c) eqn:Ec.
      + destruct r as [|d r'].
        * simpl. now rewrite Ec.
        * destruct (isLF d) eqn:Ed.
          -- simpl. reflexivity.
          -- simpl hasLineBreak at 1. rewrite Ec. reflexivity.
      + simpl. rewrite Ec. f_equal. apply IH. lia. }
  apply (G (length s) s (Nat.le_refl _)).
Qed.

Lemma In_LF_replaceCR (s : jsstring) :
  In LF (replaceUnit CR [LF] s) <-> hasLineBreak s = true.
Proof.
  induction s as [|c r IH]; simpl; [split; [intros []|discriminate]|].
  fold (isCR c). destruct (isCR c) eqn:Ec; simpl.
  - split; auto.
  - rewrite IH. destruct (isLF c) eqn:El; simpl.
    + split; [reflexivity|]. intros _. left.
      unfold isLF in El. now apply Ascii.eqb_eq in El.
    + split; [|auto]. intros [H|H]; [|exact H].
      subst c. unfold isLF in El. now rewrite Ascii.eqb_refl in El.
Qed.

Lemma In_LF_normalizeToLF (s : jsstring) :
  In LF (normalizeToLF s) <-> hasLineBreak s = true.
Proof.
  unfold normalizeToLF. now rewrite In_LF_replaceCR, hasLineBreak_replaceCRLFbyLF.
Qed.

Lemma countLF_normalizeToLF (s : jsstring) :
  if hasLineBreak s then (0 < countLF (normalizeToLF s))%Z
  else countLF (normalizeToLF s) = 0%Z.
Proof.
  pose proof (In_LF_normalizeToLF s) as H. pose proof (countLF_pos (normalizeToLF s)) as H'.
  pose proof (countLF_nonneg (normalizeToLF s)).
  destruct (hasLineBreak s).
  - apply H'. now apply H.
  - destruct (Z.eq_dec (countLF (normalizeToLF s)) 0); [assumption|].
    assert (Hin : In LF (normalizeToLF s)) by (apply H'; lia).
    apply H in Hin. discriminate.
Qed.

End DetectByCounts.

(** X3. detectLineEnding answers MIXED exactly when its loop has counted
    terminators of all three types and each type has more than a tenth
    of them. *)
Theorem detectLineEnding_mixed_iff (st : EditorState) :
  let n := countTerminators (doc st) noTerminatorCounts in
  let total := (crlfCount n + crCount n + lfCount n)%Z in
  detectLineEnding st = LE_MIXED
  <-> (total < 10 * crlfCount n)%Z /\ (total < 10 * crCount n)%Z
      /\ (total < 10 * lfCount n)%Z.
Proof.
  cbv zeta. unfold detectLineEnding. rewrite detectLineEndingOf_counts.
  destruct (countTerminators_nonneg (doc st) noTerminatorCounts) as (Ha & Hb & Hc);
    try (simpl; lia).
  now apply lineEndingOfCounts_mixed.
Qed.

(** ** The conversions and detectLineEnding in the editor *)

Section InTheEditor.

Lemma detectLineEndingOf_noCR (s : jsstring) :
  noCR s -> detectLineEndingOf s = LE_LF.
Proof.
  intros Hno. rewrite detectLineEndingOf_counts, (countTerminators_LF _ Hno).
  cbn [noTerminatorCounts crlfCount crCount lfCount]. rewrite Z.add_0_l.
  pose proof (countLF_nonneg s) as H0.
  destruct (Z.eq_dec (countLF s) 0) as [->|Hne]; [reflexivity|].
  apply lineEndingOfCounts_single. lia.
Qed.

Lemma replaceUnit_In (c x : ascii) (rep s : jsstring) :
  In c s -> In x rep -> In x (replaceUnit c rep s).
Proof.
  intros Hc Hx. induction s as [|d r IH]; [destruct Hc|]. simpl.
  destruct (Ascii.eqb d c) eqn:E.
  - apply in_or_app. now left.
  - right. apply IH. destruct Hc as [->|Hc]; [|exact Hc].
    rewrite Ascii.eqb_refl in E. discriminate.
Qed.

Lemma hasLineBreak_noCR (d : jsstring) :
  noCR d -> (hasLineBreak d = true <-> In LF d).
Proof.
  intros Hno. rewrite <- In_LF_normalizeToLF. now rewrite normalizeToLF_noCR.
Qed.

(** The editor takes a replacement of the whole document by a text that
    is stored as the document is, and ends in the state it was in. *)
Lemma viewDispatch_whole_document (st : EditorState) (converted : jsstring) :
  editorState st ->
  storedText converted = doc st ->
  viewDispatch st
    {| changes := [{| chFrom := 0; chTo := length (doc st); insert := converted |}];
       newSelection := selection st |}
  = Done st.
Proof.
  intros [Hno [Ha Hh]] Hstored. unfold viewDispatch.
  cbn [changes forallb map storedChange insert chFrom chTo applyChanges newSelection].
  unfold changeInRange. cbn [chFrom chTo Nat.leb].
  rewrite Nat.leb_refl. cbn [andb].
  rewrite Hstored, !Nat.sub_0_r, skipn_all. cbn [firstn app]. rewrite app_nil_r.
  unfold selectionInRange, selFrom, selTo.
  destruct (Z.leb_spec 0 (Z.min (anchor (selection st)) (head (selection st))));
    [|lia].
  destruct (Z.leb_spec (Z.max (anchor (selection st)) (head (selection st)))
              (Z.of_nat (length (doc st)))); [|lia].
  cbn [andb]. now destruct st.
Qed.

(** A conversion to a text with CR, on a document with a line feed:
    the replacement is dispatched, and the editor stores it as the
    document was. *)
Lemma convert_in_editor (st : EditorState) (rep : jsstring) :
  editorState st ->
  In CR rep ->
  normalizeToLF (replaceUnit LF rep (doc st)) = doc st ->
  if hasLineBreak (doc st)
  then exists tr,
         replaceWholeDocument st (replaceUnit LF rep (normalizeToLF (doc st)))
         = Done (Some tr)
         /\ viewDispatch st tr = Done st
  else replaceWholeDocument st (replaceUnit LF rep (normalizeToLF (doc st)))
       = Done None.
Proof.
  intros Hst Hrep Hback. destruct Hst as [Hno Hwf].
  rewrite (normalizeToLF_noCR _ Hno).
  pose proof (hasLineBreak_noCR _ Hno) as Hlb.
  destruct (hasLineBreak (doc st)).
  - assert (Hlf : In LF (doc st)) by now apply Hlb.
    unfold replaceWholeDocument.
    destruct (streq (doc st) (replaceUnit LF rep (doc st))) eqn:E.
    + apply streq_true_iff in E. exfalso. apply Hno. rewrite E.
      now apply replaceUnit_In.
    + eexists. split; [reflexivity|].
      apply viewDispatch_whole_document; [now split|exact Hback].
  - rewrite replaceUnit_absent.
    + apply replaceWholeDocument_same.
    + intros Hlf. apply Hlb in Hlf. discriminate.
Qed.


End InTheEditor.

(** C1. The editor created with the content "a\r\nb\r\nc\n" holds the
    document "a\nb\nc\n", and detectLineEnding answers LF on it, not
    MIXED; and so it does on every content: the text it reads, the
    document joined with LF, holds no CR for its loop to count. *)
Theorem detectLineEnding_crlf_crlf_lf :
  doc (createState doc_crlf_crlf_lf None) = doc_a_b_c
  /\ detectLineEnding (createState doc_crlf_crlf_lf None) = LE_LF
  /\ detectLineEnding (createState doc_crlf_crlf_lf None) <> LE_MIXED
  /\ forall content language,
       detectLineEnding (createState content language) = LE_LF.
Proof.
  split; [reflexivity|]. split; [reflexivity|]. split; [discriminate|].
  intros content language. unfold detectLineEnding, createState. cbn [doc].
  apply detectLineEndingOf_noCR. apply normalizeToLF_has_no_CR.
Qed.

(** X1. In a state of the editor convertToLF dispatches nothing.
    convertToCRLF and convertToCR dispatch nothing on a document of one
    line; on any other they dispatch the replacement of the document,
    which the editor takes and stores with its line breaks as they
    were: the state after it is the state before it, and a second call
    dispatches the same again. *)
Theorem convert_leaves_content (st : EditorState) :
  editorState st ->
  convertToLF st = Done None
  /\ if hasLineBreak (doc st)
     then (exists tr, convertToCRLF st = Done (Some tr) /\ viewDispatch st tr = Done st)
          /\ (exists tr, convertToCR st = Done (Some tr) /\ viewDispatch st tr = Done st)
     else convertToCRLF st = Done None /\ convertToCR st = Done None.
Proof.
  intros Hst. pose proof Hst as [Hno _]. split.
  - unfold convertToLF. rewrite (normalizeToLF_noCR _ Hno).
    apply replaceWholeDocument_same.
  - pose proof (convert_in_editor st [CR; LF] Hst (or_introl eq_refl)
                  (normalizeToLF_expand _ Hno)) as H1.
    pose proof (convert_in_editor st [CR] Hst (or_introl eq_refl)
                  (normalizeToLF_fromCR _ Hno)) as H2.
    unfold convertToCRLF, convertToCR.
    destruct (hasLineBreak (doc st)); split; assumption.
Qed.

Lemma convert_leaves_content_witness :
  convertToLF (cursorAt doc_a_b_c 2 None) = Done None
  /\ if hasLineBreak (doc (cursorAt doc_a_b_c 2 None))
     then (exists tr, convertToCRLF (cursorAt doc_a_b_c 2 None) = Done (Some tr)
                      /\ viewDispatch (cursorAt doc_a_b_c 2 None) tr
                         = Done (cursorAt doc_a_b_c 2 None))
          /\ (exists tr, convertToCR (cursorAt doc_a_b_c 2 None) = Done (Some tr)
                         /\ viewDispatch (cursorAt doc_a_b_c 2 None) tr
                            = Done (cursorAt doc_a_b_c 2 None))
     else convertToCRLF (cursorAt doc_a_b_c 2 None) = Done None
          /\ convertToCR (cursorAt doc_a_b_c 2 None) = Done None.
Proof.
  apply (convert_leaves_content (cursorAt doc_a_b_c 2 None)).
  split.
  - unfold noCR. simpl. intuition discriminate.
  - unfold wellFormed. simpl. lia.
Defined.

(** X4. In a state of the editor detectLineEnding answers LF, and so it
    does after each of the three conversions, which end in the state
    they were called in. *)
Theorem detectLineEnding_in_editor (st : EditorState) :
  editorState st ->
  detectLineEnding st = LE_LF
  /\ viewRun convertToLF st = Done st
  /\ viewRun convertToCRLF st = Done st
  /\ viewRun convertToCR st = Done st.
Proof.
  intros Hst. pose proof Hst as [Hno _]. split.
  - now apply detectLineEndingOf_noCR.
  - pose proof (convert_in_editor st [CR; LF] Hst (or_introl eq_refl)
                  (normalizeToLF_expand _ Hno)) as H1.
    pose proof (convert_in_editor st [CR] Hst (or_introl eq_refl)
                  (normalizeToLF_fromCR _ Hno)) as H2.
    unfold viewRun, convertToLF, convertToCRLF, convertToCR.
    split; [|split].
    + rewrite (normalizeToLF_noCR _ Hno), replaceWholeDocument_same. reflexivity.
    + destruct (hasLineBreak (doc st)).
      * destruct H1 as (tr1 & E1 & D1). rewrite E1. cbn [bind]. exact D1.
      * rewrite H1. reflexivity.
    + destruct (hasLineBreak (doc st)).
      * destruct H2 as (tr2 & E2 & D2). rewrite E2. cbn [bind]. exact D2.
      * rewrite H2. reflexivity.
Qed.

Lemma detectLineEnding_in_editor_witness :
  detectLineEnding (cursorAt doc_a_b_c 2 None) = LE_LF
  /\ viewRun convertToLF (cursorAt doc_a_b_c 2 None) = Done (cursorAt doc_a_b_c 2 None)
  /\ viewRun convertToCRLF (cursorAt doc_a_b_c 2 None)
     = Done (cursorAt doc_a_b_c 2 None)
  /\ viewRun convertToCR (cursorAt doc_a_b_c 2 None) = Done (cursorAt doc_a_b_c 2 None).
Proof.
  apply (detectLineEnding_in_editor (cursorAt doc_a_b_c 2 None)).
  split.
  - unfold noCR. simpl. intuition discriminate.
  - unfold wellFormed. simpl. lia.
Defined.

(** ** Commands over a range of lines *)

Section RangePass.

(** The range of a pass that dispatches: its lines in the document, and
    the offsets the change is made at. *)
Lemma range_inv (d : jsstring) (s e : nat) (lines : list jsstring) (ls le : Line) :
  collectLines d s (S e - s) = Done lines ->
  lines <> [] ->
  line d s = Done ls ->
  line d e = Done le ->
  exists a b,
    splitLines d = a ++ lines ++ b
    /\ s = S (length a) /\ e = length a + length lines
    /\ from ls = length (linesBefore a)
    /\ to le = length (linesBefore a) + length (joinLines lines).
Proof.
  intros Ec Hne Els Ele.
  assert (Hc : 1 <= S e - s).
  { destruct (S e - s); [|lia]. simpl in Ec. injection Ec as <-. congruence. }
  destruct (collectLines_inv d _ _ _ Ec Hc) as (a & b & HL & Hs & Hlen).
  exists a, b. split; [exact HL|]. split; [exact Hs|]. split; [lia|].
  destruct lines as [|x lines'] eqn:El; [congruence|].
  split.
  - rewrite Hs, (line_after d a x (lines' ++ b) HL) in Els.
    injection Els as <-. reflexivity.
  - destruct (exists_last (l := x :: lines')) as (front & y & Ey); [discriminate|].
    rewrite Ey in HL, Hlen |- *. rewrite length_app in Hlen. simpl length in Hlen.
    assert (HL' : splitLines d = (a ++ front) ++ y :: b).
    { rewrite HL, <- !app_assoc. reflexivity. }
    assert (He : e = S (length (a ++ front))) by (rewrite length_app; lia).
    rewrite He, (line_after d (a ++ front) y b HL') in Ele.
    injection Ele as <-. cbn [to].
    rewrite linesBefore_app, length_app, length_joinLines_last. lia.
Qed.

(** The range of a selection that covers the lines [mid]. *)
Lemma lineRange_covering (st : EditorState) (a mid b : list jsstring) :
  splitLines (doc st) = a ++ mid ++ b ->
  mid <> [] ->
  1 <= length (joinLines mid) ->
  selection st
  = {| anchor := Z.of_nat (length (linesBefore a));
       head := Z.of_nat (length (linesBefore a) + length (joinLines mid)) |} ->
  lineRange st = Done (S (length a), length a + length mid).
Proof.
  intros HL Hne Hj Hsel.
  unfold lineRange, selEmpty, selFrom, selTo. rewrite Hsel. cbn [anchor head].
  destruct (Z.eqb_spec (Z.of_nat (length (linesBefore a)))
              (Z.of_nat (length (linesBefore a) + length (joinLines mid)))); [lia|].
  rewrite Z.min_l, Z.max_r by lia.
  destruct mid as [|x mid'] eqn:Em; [congruence|].
  rewrite <- (Nat.add_0_r (length (linesBefore a))) at 1.
  rewrite (lineAt_after (doc st) a x (mid' ++ b) 0 HL (Nat.le_0_l _)). cbn [bind].
  destruct (exists_last (l := x :: mid')) as (front & y & Ey); [discriminate|].
  rewrite Ey in HL |- *.
  assert (HL' : splitLines (doc st) = (a ++ front) ++ y :: b).
  { rewrite HL, <- !app_assoc. reflexivity. }
  replace (length (linesBefore a) + length (joinLines (front ++ [y])))
    with (length (linesBefore (a ++ front)) + length y)
    by (rewrite linesBefore_app, length_app, length_joinLines_last; lia).
  rewrite (lineAt_after (doc st) (a ++ front) y b (length y) HL' (Nat.le_refl _)).
  cbn [bind number]. rewrite !length_app. simpl length. do 2 f_equal. lia.
Qed.

Lemma joinLines_linesLeft (new : list jsstring) :
  joinLines (linesLeft new) = joinLines new.
Proof. now destruct new. Qed.

Lemma linesLeft_nonempty (new : list jsstring) : linesLeft new <> [].
Proof. destruct new; discriminate. Qed.

Lemma linesLeft_noLF (new : list jsstring) :
  Forall noLF new -> Forall noLF (linesLeft new).
Proof.
  destruct new; [|auto]. intros _. constructor; [intros []|constructor].
Qed.

(** The lines of the document after the range of [lines] has been
    replaced by the text of [new]. *)
Lemma replace_range_lines (d : jsstring) (a lines b new : list jsstring) :
  splitLines d = a ++ lines ++ b ->
  lines <> [] ->
  Forall noLF new ->
  splitLines
    (applyChanges 0
       [{| chFrom := length (linesBefore a);
           chTo := length (linesBefore a) + length (joinLines lines);
           insert := joinLines new |}] d)
  = a ++ linesLeft new ++ b.
Proof.
  intros HL Hne Hnew.
  rewrite (replace_range d a lines b _ Hne HL).
  rewrite <- joinLines_linesLeft.
  rewrite <- joinLines_range by apply linesLeft_nonempty.
  apply splitLines_joinLines.
  - pose proof (linesLeft_nonempty new). destruct a; [|discriminate]. simpl.
    destruct (linesLeft new); [congruence|discriminate].
  - pose proof (splitLines_noLF d) as Hall. rewrite HL in Hall.
    apply Forall_app in Hall as [Ha Hall]. apply Forall_app in Hall as [_ Hb].
    apply Forall_app. split; [exact Ha|]. apply Forall_app. split; [|exact Hb].
    now apply linesLeft_noLF.
Qed.

Variable f : list jsstring -> option (list jsstring).
Hypothesis f_nil : f [] = None.

(** What a pass dispatches. *)
Lemma rangePass_inv (st : EditorState) (tr : Transaction) :
  rangePass f st = Done (Some tr) ->
  exists a lines b new,
    splitLines (doc st) = a ++ lines ++ b
    /\ lines <> []
    /\ f lines = Some new
    /\ tr = {| changes :=
                 [{| chFrom := length (linesBefore a);
                     chTo := length (linesBefore a) + length (joinLines lines);
                     insert := joinLines new |}];
               newSelection :=
                 {| anchor := Z.of_nat (length (linesBefore a));
                    head := Z.of_nat (length (linesBefore a)
                                      + length (joinLines new)) |} |}.
Proof.
  unfold rangePass. intros H.
  destruct (lineRange st) as [[s e]|]; [|discriminate]. cbn [bind] in H.
  destruct (collectLines (doc st) s (S e - s)) as [lines|] eqn:Ec; [|discriminate].
  cbn [bind] in H.
  destruct (f lines) as [new|] eqn:Ef; [|discriminate].
  destruct (line (doc st) s) as [ls|] eqn:Els; [|discriminate]. cbn [bind] in H.
  destruct (line (doc st) e) as [le|] eqn:Ele; [|discriminate]. cbn [bind] in H.
  injection H as <-.
  assert (Hne : lines <> []) by (intros ->; congruence).
  destruct (range_inv (doc st) s e lines ls le Ec Hne Els Ele)
    as (a & b & HL & _ & _ & Hfrom & Hto).
  exists a, lines, b, new. rewrite Hfrom, Hto. auto.
Qed.

(** A pass over a covered range of lines that [f] leaves alone
    dispatches nothing. *)
Lemma rangePass_nothing (st : EditorState) (a mid b : list jsstring) :
  splitLines (doc st) = a ++ mid ++ b ->
  mid <> [] ->
  1 <= length (joinLines mid) ->
  selection st
  = {| anchor := Z.of_nat (length (linesBefore a));
       head := Z.of_nat (length (linesBefore a) + length (joinLines mid)) |} ->
  f mid = None ->
  rangePass f st = Done None.
Proof.
  intros HL Hne Hj Hsel Hf. unfold rangePass.
  rewrite (lineRange_covering st a mid b HL Hne Hj Hsel). cbn [bind].
  replace (S (length a + length mid) - S (length a)) with (length mid) by lia.
  rewrite (collectLines_range (doc st) mid a b HL). cbn [bind].
  now rewrite Hf.
Qed.

Hypothesis f_stable : forall lines new, f lines = Some new -> f new = None.
Hypothesis f_noLF :
  forall lines new, f lines = Some new -> Forall noLF lines -> Forall noLF new.

Lemma range_noLF (d : jsstring) (a lines b : list jsstring) :
  splitLines d = a ++ lines ++ b -> Forall noLF lines.
Proof.
  intros HL. pose proof (splitLines_noLF d) as Hall. rewrite HL in Hall.
  apply Forall_app in Hall as [_ Hall]. now apply Forall_app in Hall as [Hm _].
Qed.

(** The second pass dispatches nothing, when the first has left a
    selection that is not empty. *)
Lemma rangePass_second (st : EditorState) (tr : Transaction) :
  rangePass f st = Done (Some tr) ->
  selEmpty (newSelection tr) = false ->
  rangePass f (dispatch st tr) = Done None.
Proof.
  intros H Hsel.
  destruct (rangePass_inv st tr H) as (a & lines & b & new & HL & Hne & Hf & ->).
  unfold selEmpty in Hsel. cbn [newSelection anchor head] in Hsel.
  apply Z.eqb_neq in Hsel.
  assert (Hj : 1 <= length (joinLines new)) by lia.
  assert (Hnew : new <> []) by (intros ->; simpl in Hj; lia).
  pose proof (f_noLF lines new Hf (range_noLF _ _ _ _ HL)) as Hno.
  apply (rangePass_nothing _ a new b).
  - unfold dispatch. cbn [doc changes].
    rewrite (replace_range_lines (doc st) a lines b new HL Hne Hno).
    destruct new; [congruence|reflexivity].
  - exact Hnew.
  - exact Hj.
  - reflexivity.
  - now apply (f_stable lines).
Qed.

End RangePass.

(** ** removeDuplicateLines *)

Section UniqueLines.

Lemma setHas_In (seen : list jsstring) (l : jsstring) :
  setHas seen l = true <-> In l seen.
Proof.
  unfold setHas. rewrite existsb_exists. split.
  - intros (x & Hx & Heq). apply streq_true_iff in Heq. now subst.
  - intros H. exists l. split; [exact H|apply streq_refl].
Qed.

(** [seen] and [uniqueLines] hold the same lines all along; [uniqueOf]
    is what the loop makes of them. *)
Lemma uniqueLoop_same (lines s : list jsstring) :
  fst (uniqueLoop lines (s, s)) = snd (uniqueLoop lines (s, s)).
Proof.
  revert s. induction lines as [|l rest IH]; intros s; [reflexivity|].
  simpl. destruct (negb (setHas s l)); apply IH.
Qed.

Lemma uniqueLoop_step (l : jsstring) (rest s : list jsstring) :
  snd (uniqueLoop (l :: rest) (s, s))
  = snd (uniqueLoop rest (if setHas s l then (s, s) else (s ++ [l], s ++ [l]))).
Proof. simpl. now destruct (setHas s l). Qed.

Lemma uniqueLoop_extends (lines s : list jsstring) :
  exists d, snd (uniqueLoop lines (s, s)) = s ++ d.
Proof.
  revert s. induction lines as [|l rest IH]; intros s.
  - exists []. simpl. now rewrite app_nil_r.
  - rewrite uniqueLoop_step. destruct (setHas s l).
    + apply IH.
    + destruct (IH (s ++ [l])) as [d Hd]. exists (l :: d).
      rewrite Hd, <- app_assoc. reflexivity.
Qed.

Lemma uniqueLoop_In (lines s : list jsstring) (y : jsstring) :
  In y (snd (uniqueLoop lines (s, s))) <-> In y s \/ In y lines.
Proof.
  revert s. induction lines as [|l rest IH]; intros s.
  - simpl. tauto.
  - rewrite uniqueLoop_step. destruct (setHas s l) eqn:E.
    + rewrite IH. apply setHas_In in E. simpl. split; [tauto|].
      intros [H|[H|H]]; [tauto| |tauto]. subst. tauto.
    + rewrite IH, in_app_iff. simpl. tauto.
Qed.

Lemma uniqueLoop_NoDup (lines s : list jsstring) :
  NoDup s -> NoDup (snd (uniqueLoop lines (s, s))).
Proof.
  revert s. induction lines as [|l rest IH]; intros s Hs; [exact Hs|].
  rewrite uniqueLoop_step. destruct (setHas s l) eqn:E; [now apply IH|].
  apply IH. apply NoDup_app; [exact Hs|repeat constructor; intros []|].
  intros x Hx [H|[]]. subst x. apply setHas_In in Hx. congruence.
Qed.

Lemma uniqueLoop_length (lines s : list jsstring) :
  length (snd (uniqueLoop lines (s, s))) <= length s + length lines
  /\ (length (snd (uniqueLoop lines (s, s))) = length s + length lines
      <-> NoDup lines /\ forall x, In x lines -> ~ In x s).
Proof.
  revert s. induction lines as [|l rest IH]; intros s.
  - simpl. split; [lia|]. split; [intros _; split; [constructor|intros x []]|lia].
  - rewrite uniqueLoop_step. destruct (setHas s l) eqn:E.
    + destruct (IH s) as [Hle _]. simpl length. split; [lia|].
      split; [lia|]. intros [_ Hd]. exfalso.
      apply (Hd l); [now left|now apply setHas_In].
    + destruct (IH (s ++ [l])) as [Hle Hiff].
      rewrite length_app in Hle, Hiff. simpl length in *.
      split; [lia|].
      assert (Hl : ~ In l s) by (intros Hin; apply setHas_In in Hin; congruence).
      split.
      * intros Heq. assert (Heq' : length (snd (uniqueLoop rest (s ++ [l], s ++ [l])))
                                   = length s + 1 + length rest) by lia.
        apply Hiff in Heq' as [Hnd Hd]. split.
        -- constructor; [|exact Hnd]. intros Hin. apply (Hd l Hin).
           apply in_or_app. right. now left.
        -- intros x [->|Hx]; [exact Hl|]. intros Hin. apply (Hd x Hx).
           apply in_or_app. now left.
      * intros [Hnd Hd]. inversion Hnd as [|? ? Hnl Hnd']; subst.
        assert (Hgoal : length (snd (uniqueLoop rest (s ++ [l], s ++ [l])))
                        = length s + 1 + length rest).
        { apply Hiff. split; [exact Hnd'|]. intros x Hx Hin.
          apply in_app_or in Hin as [Hin|[->|[]]].
          - apply (Hd x); [now right|exact Hin].
          - contradiction. }
        lia.
Qed.

Lemma uniqueLoop_app (l1 l2 : list jsstring) (state : list jsstring * list jsstring) :
  uniqueLoop (l1 ++ l2) state = uniqueLoop l2 (uniqueLoop l1 state).
Proof.
  revert state. induction l1 as [|l rest IH]; intros [seen u]; [reflexivity|].
  simpl. destruct (negb (setHas seen l)); apply IH.
Qed.

(** A line is kept where it comes first: before it are the lines that
    come before it in the range. *)
Lemma uniqueLoop_first (l1 : list jsstring) (x : jsstring) (l2 : list jsstring) :
  ~ In x l1 ->
  exists u1 u2,
    snd (uniqueLoop (l1 ++ x :: l2) ([], [])) = u1 ++ x :: u2
    /\ forall y, In y u1 <-> In y l1.
Proof.
  intros Hx. rewrite uniqueLoop_app.
  pose proof (uniqueLoop_same l1 []) as Hsame.
  destruct (uniqueLoop l1 ([], [])) as [seen u1] eqn:E1. simpl in Hsame. subst seen.
  assert (Hin : forall y, In y u1 <-> In y l1).
  { intros y. pose proof (uniqueLoop_In l1 [] y) as H. rewrite E1 in H. simpl in H. tauto. }
  rewrite uniqueLoop_step.
  destruct (setHas u1 x) eqn:E.
  - apply setHas_In in E. apply Hin in E. contradiction.
  - destruct (uniqueLoop_extends l2 (u1 ++ [x])) as [d Hd].
    exists u1, d. rewrite Hd, <- app_assoc. auto.
Qed.

Lemma uniqueChange_None (lines : list jsstring) :
  uniqueChange lines = None <-> NoDup lines.
Proof.
  unfold uniqueChange. destruct (uniqueLoop_length lines []) as [_ Hiff]. simpl in Hiff.
  destruct (Nat.eqb_spec (length (snd (uniqueLoop lines ([], [])))) (length lines)) as [E|E].
  - split; [|reflexivity]. intros _. now apply Hiff in E.
  - split; [discriminate|]. intros Hnd. exfalso. apply E, Hiff. split; [exact Hnd|auto].
Qed.

Lemma uniqueChange_Some (lines new : list jsstring) :
  uniqueChange lines = Some new -> new = snd (uniqueLoop lines ([], [])).
Proof.
  unfold uniqueChange. destruct (_ =? _); [discriminate|]. now intros [= <-].
Qed.

Lemma uniqueChange_stable (lines new : list jsstring) :
  uniqueChange lines = Some new -> uniqueChange new = None.
Proof.
  intros H. apply uniqueChange_Some in H. subst new.
  apply uniqueChange_None, uniqueLoop_NoDup. constructor.
Qed.

Lemma uniqueChange_noLF (lines new : list jsstring) :
  uniqueChange lines = Some new -> Forall noLF lines -> Forall noLF new.
Proof.
  intros H Hall. apply uniqueChange_Some in H. subst new.
  rewrite Forall_forall in *. intros x Hx. apply Hall.
  apply uniqueLoop_In in Hx. destruct Hx as [[]|Hx]. exact Hx.
Qed.

Lemma removeDuplicateLines_rangePass (st : EditorState) :
  removeDuplicateLines st = rangePass uniqueChange st.
Proof.
  unfold removeDuplicateLines, rangePass.
  destruct (lineRange st) as [[s e]|]; [|reflexivity]. cbn [bind].
  destruct (collectLines (doc st) s (S e - s)) as [lines|]; [|reflexivity]. cbn [bind].
  unfold uniqueChange. now destruct (_ =? _).
Qed.

End UniqueLines.

(** X5. When removeDuplicateLines dispatches, the lines of the range had
    a repetition, and the document is left with the lines before the
    range, the lines [u] and the lines after it, where [u] has no
    repetition, holds the same lines as the range, and holds each line
    where it first came: before it are the lines that came before it. *)
Theorem removeDuplicateLines_effect (st : EditorState) (tr : Transaction) :
  removeDuplicateLines st = Done (Some tr) ->
  exists a lines b u,
    splitLines (doc st) = a ++ lines ++ b
    /\ ~ NoDup lines
    /\ splitLines (doc (dispatch st tr)) = a ++ u ++ b
    /\ NoDup u
    /\ (forall x, In x u <-> In x lines)
    /\ (forall l1 x l2,
          lines = l1 ++ x :: l2 -> ~ In x l1 ->
          exists u1 u2, u = u1 ++ x :: u2 /\ forall y, In y u1 <-> In y l1).
Proof.
  intros H. rewrite removeDuplicateLines_rangePass in H.
  destruct (rangePass_inv uniqueChange eq_refl st tr H) as (a & lines & b & u & HL & Hne & Hf & ->).
  pose proof (uniqueChange_Some _ _ Hf) as Hu.
  exists a, lines, b, u. split; [exact HL|]. split.
  - intros Hnd. apply uniqueChange_None in Hnd. congruence.
  - split.
    + unfold dispatch. cbn [doc changes].
      rewrite (replace_range_lines (doc st) a lines b u HL Hne).
      * destruct u as [|x u']; [|reflexivity]. exfalso.
        destruct lines as [|l lines']; [congruence|].
        assert (Hin : In l []).
        { rewrite Hu. apply uniqueLoop_In. right. now left. }
        destruct Hin.
      * apply (uniqueChange_noLF lines u Hf). apply (range_noLF _ _ _ _ HL).
    + subst u. split; [apply uniqueLoop_NoDup; constructor|]. split.
      * intros x. rewrite uniqueLoop_In. simpl. tauto.
      * intros l1 x l2 -> Hx. now apply uniqueLoop_first.
Qed.

Lemma removeDuplicateLines_effect_witness :
  exists a lines b u,
    splitLines doc_a_b_a = a ++ lines ++ b
    /\ ~ NoDup lines
    /\ splitLines
         (doc (dispatch (cursorAt doc_a_b_a 0 None)
                 (dispatched (removeDuplicateLines (cursorAt doc_a_b_a 0 None)))))
       = a ++ u ++ b
    /\ NoDup u
    /\ (forall x, In x u <-> In x lines)
    /\ (forall l1 x l2,
          lines = l1 ++ x :: l2 -> ~ In x l1 ->
          exists u1 u2, u = u1 ++ x :: u2 /\ forall y, In y u1 <-> In y l1).
Proof.
  apply (removeDuplicateLines_effect (cursorAt doc_a_b_a 0 None)
           (dispatched (removeDuplicateLines (cursorAt doc_a_b_a 0 None)))).
  reflexivity.
Defined.

(** X6. removeDuplicateLines dispatches nothing exactly when no line of
    its range comes twice. *)
Theorem removeDuplicateLines_no_dispatch_iff (st : EditorState) (s e : nat)
    (lines : list jsstring) :
  lineRange st = Done (s, e) ->
  collectLines (doc st) s (S e - s) = Done lines ->
  (removeDuplicateLines st = Done None <-> NoDup lines).
Proof.
  intros Hr Hc. rewrite removeDuplicateLines_rangePass. unfold rangePass.
  rewrite Hr. cbn [bind]. rewrite Hc. cbn [bind].
  rewrite <- uniqueChange_None.
  destruct (uniqueChange lines) as [new|]; [|tauto].
  split; [|discriminate].
  destruct (line (doc st) s); [|discriminate]. cbn [bind].
  destruct (line (doc st) e); discriminate.
Qed.

Lemma removeDuplicateLines_no_dispatch_iff_witness :
  removeDuplicateLines (cursorAt doc_b_a_c 0 None) = Done None
  <-> NoDup [["b"%char]; ["a"%char]; ["c"%char]; []].
Proof.
  apply (removeDuplicateLines_no_dispatch_iff (cursorAt doc_b_a_c 0 None) 1 4).
  - reflexivity.
  - reflexivity.
Defined.

(** X7. A second removeDuplicateLines, on the state the first has left
    with a selection that is not empty, dispatches nothing. *)
Theorem removeDuplicateLines_second_pass (st : EditorState) (tr : Transaction) :
  removeDuplicateLines st = Done (Some tr) ->
  selEmpty (newSelection tr) = false ->
  removeDuplicateLines (dispatch st tr) = Done None.
Proof.
  rewrite !removeDuplicateLines_rangePass.
  apply rangePass_second.
  - reflexivity.
  - exact uniqueChange_stable.
  - exact uniqueChange_noLF.
Qed.

Lemma removeDuplicateLines_second_pass_witness :
  removeDuplicateLines
    (dispatch (cursorAt doc_a_b_a 0 None)
       (dispatched (removeDuplicateLines (cursorAt doc_a_b_a 0 None))))
  = Done None.
Proof.
  apply (removeDuplicateLines_second_pass (cursorAt doc_a_b_a 0 None)
           (dispatched (removeDuplicateLines (cursorAt doc_a_b_a 0 None)))).
  - reflexivity.
  - reflexivity.
Defined.

(** ** trimTrailingSpaces *)

Section TrimTrailing.

Lemma dropWhile_idempotent (f : ascii -> bool) (s : jsstring) :
  dropWhile f (dropWhile f s) = dropWhile f s.
Proof.
  induction s as [|c r IH]; [reflexivity|]. simpl.
  destruct (f c) eqn:E; [exact IH|]. simpl. now rewrite E.
Qed.

Lemma dropWhile_first (f : ascii -> bool) (s : jsstring) (c : ascii) (r : jsstring) :
  dropWhile f s = c :: r -> f c = false.
Proof.
  induction s as [|d s IH]; simpl; [discriminate|].
  destruct (f d) eqn:E; [exact IH|]. intros [= <- _]. exact E.
Qed.

Lemma dropWhile_nil (f : ascii -> bool) (s : jsstring) :
  dropWhile f s = [] <-> forallb f s = true.
Proof.
  induction s as [|c r IH]; simpl; [tauto|].
  destruct (f c); simpl; [exact IH|]. split; discriminate.
Qed.

Lemma trimTrailing_idempotent (s : jsstring) :
  trimTrailing (trimTrailing s) = trimTrailing s.
Proof.
  unfold trimTrailing. now rewrite rev_involutive, dropWhile_idempotent.
Qed.

(** A line is its trimmed text and a run of spaces and tabs, and the
    trimmed text does not end with one. *)
Lemma trimTrailing_spec (s : jsstring) :
  exists t, s = trimTrailing s ++ t
            /\ forallb isSpaceOrTab t = true
            /\ forall r c, trimTrailing s = r ++ [c] -> isSpaceOrTab c = false.
Proof.
  unfold trimTrailing.
  exists (rev (takeWhile isSpaceOrTab (rev s))). split; [|split].
  - rewrite <- rev_app_distr, takeWhile_dropWhile. now rewrite rev_involutive.
  - rewrite forallb_forall. intros x Hx. apply in_rev in Hx.
    pose proof (takeWhile_all isSpaceOrTab (rev s)) as Hall.
    rewrite forallb_forall in Hall. now apply Hall.
  - intros r c Hr. apply (f_equal (@rev ascii)) in Hr.
    rewrite rev_involutive, rev_app_distr in Hr. simpl in Hr.
    now apply dropWhile_first in Hr.
Qed.

Lemma trimLoop_spec (d : jsstring) (c : nat) :
  forall i acc b,
    trimLoop d i c acc b
    = (ls <- collectLines d i c ;;
       Done (acc ++ map trimTrailing ls,
             b || existsb (fun l => negb (streq l (trimTrailing l))) ls)).
Proof.
  induction c as [|c IH]; intros i acc b.
  - simpl. now rewrite app_nil_r, orb_false_r.
  - cbn [trimLoop collectLines]. destruct (line d i) as [ln|]; [|reflexivity].
    cbn [bind]. rewrite IH.
    destruct (collectLines d (S i) c) as [rest|]; [|reflexivity]. cbn [bind].
    rewrite <- app_assoc. simpl.
    destruct (streq (text ln) (trimTrailing (text ln))); simpl;
      [reflexivity|now rewrite orb_true_r].
Qed.

Lemma trimTrailingSpaces_rangePass (st : EditorState) :
  trimTrailingSpaces st = rangePass trimChange st.
Proof.
  unfold trimTrailingSpaces, rangePass.
  destruct (lineRange st) as [[s e]|]; [|reflexivity]. cbn [bind].
  rewrite trimLoop_spec.
  destruct (collectLines (doc st) s (S e - s)) as [lines|]; [|reflexivity]. cbn [bind].
  unfold trimChange. simpl. now destruct (existsb _ lines).
Qed.

Lemma trimChange_Some (lines new : list jsstring) :
  trimChange lines = Some new ->
  new = map trimTrailing lines
  /\ exists l, In l lines /\ l <> trimTrailing l.
Proof.
  unfold trimChange. destruct (existsb _ lines) eqn:E; [|discriminate].
  intros [= <-]. split; [reflexivity|].
  apply existsb_exists in E as (l & Hl & Hneq). exists l. split; [exact Hl|].
  apply negb_true_iff in Hneq. intros Heq. rewrite <- Heq, streq_refl in Hneq. discriminate.
Qed.

Lemma trimChange_stable (lines new : list jsstring) :
  trimChange lines = Some new -> trimChange new = None.
Proof.
  intros H. apply trimChange_Some in H as [-> _]. unfold trimChange.
  destruct (existsb _ (map trimTrailing lines)) eqn:E; [|reflexivity].
  apply existsb_exists in E as (l & Hl & Hneq).
  apply in_map_iff in Hl as (l0 & <- & _).
  now rewrite trimTrailing_idempotent, streq_refl in Hneq.
Qed.

Lemma trimChange_noLF (lines new : list jsstring) :
  trimChange lines = Some new -> Forall noLF lines -> Forall noLF new.
Proof.
  intros H Hall. apply trimChange_Some in H as [-> _].
  apply Forall_map. eapply Forall_impl; [|exact Hall].
  intros l Hl Hin. apply Hl.
  destruct (trimTrailing_spec l) as (t & Ht & _). rewrite Ht.
  apply in_or_app. now left.
Qed.

End TrimTrailing.

(** X8. When trimTrailingSpaces dispatches, some line of the range ended
    with a space or a tab, and the document is left with the lines
    before the range, the lines of the range each without its trailing
    run of spaces and tabs, and the lines after it. *)
Theorem trimTrailingSpaces_effect (st : EditorState) (tr : Transaction) :
  trimTrailingSpaces st = Done (Some tr) ->
  exists a lines b new,
    splitLines (doc st) = a ++ lines ++ b
    /\ splitLines (doc (dispatch st tr)) = a ++ new ++ b
    /\ lines <> new
    /\ Forall2 (fun l n =>
                  exists t, l = n ++ t
                            /\ forallb isSpaceOrTab t = true
                            /\ forall r c, n = r ++ [c] -> isSpaceOrTab c = false)
         lines new.
Proof.
  intros H. rewrite trimTrailingSpaces_rangePass in H.
  destruct (rangePass_inv trimChange eq_refl st tr H)
    as (a & lines & b & new & HL & Hne & Hf & ->).
  pose proof (trimChange_noLF _ _ Hf (range_noLF _ _ _ _ HL)) as Hno.
  destruct (trimChange_Some _ _ Hf) as [-> (l & Hl & Hneq)].
  exists a, lines, b, (map trimTrailing lines). split; [exact HL|]. split; [|split].
  - unfold dispatch. cbn [doc changes].
    rewrite (replace_range_lines (doc st) a lines b _ HL Hne Hno).
    destruct lines; [congruence|reflexivity].
  - intros Heq. apply Hneq. clear - Hl Heq.
    induction lines as [|x lines IH]; [destruct Hl|].
    simpl in Heq. injection Heq as Hx Hrest.
    destruct Hl as [->|Hl]; [exact Hx|now apply IH].
  - clear. induction lines as [|x lines IH]; simpl; constructor; [|exact IH].
    apply trimTrailing_spec.
Qed.

Lemma trimTrailingSpaces_effect_witness :
  exists a lines b new,
    splitLines doc_trailing = a ++ lines ++ b
    /\ splitLines
         (doc (dispatch (cursorAt doc_trailing 0 None)
                 (dispatched (trimTrailingSpaces (cursorAt doc_trailing 0 None)))))
       = a ++ new ++ b
    /\ lines <> new
    /\ Forall2 (fun l n =>
                  exists t, l = n ++ t
                            /\ forallb isSpaceOrTab t = true
                            /\ forall r c, n = r ++ [c] -> isSpaceOrTab c = false)
         lines new.
Proof.
  apply (trimTrailingSpaces_effect (cursorAt doc_trailing 0 None)
           (dispatched (trimTrailingSpaces (cursorAt doc_trailing 0 None)))).
  reflexivity.
Defined.

(** X9. A second trimTrailingSpaces, on the state the first has left
    with a selection that is not empty, dispatches nothing. *)
Theorem trimTrailingSpaces_second_pass (st : EditorState) (tr : Transaction) :
  trimTrailingSpaces st = Done (Some tr) ->
  selEmpty (newSelection tr) = false ->
  trimTrailingSpaces (dispatch st tr) = Done None.
Proof.
  rewrite !trimTrailingSpaces_rangePass.
  apply rangePass_second.
  - reflexivity.
  - exact trimChange_stable.
  - exact trimChange_noLF.
Qed.

Lemma trimTrailingSpaces_second_pass_witness :
  trimTrailingSpaces
    (dispatch (cursorAt doc_trailing 0 None)
       (dispatched (trimTrailingSpaces (cursorAt doc_trailing 0 None))))
  = Done None.
Proof.
  apply (trimTrailingSpaces_second_pass (cursorAt doc_trailing 0 None)
           (dispatched (trimTrailingSpaces (cursorAt doc_trailing 0 None)))).
  - reflexivity.
  - reflexivity.
Defined.

(** ** removeBlankLines *)

Section BlankLines.

(** A blank line is one of white space only. *)
Lemma isBlank_iff (l : jsstring) : isBlank l = true <-> forallb isSpace l = true.
Proof.
  unfold isBlank, trim. rewrite streq_true_iff. rewrite <- dropWhile_nil.
  split.
  - intros H. apply (f_equal (@rev ascii)) in H. rewrite rev_involutive in H.
    simpl in H. destruct (dropWhile isSpace l) as [|c r] eqn:E; [reflexivity|].
    exfalso. pose proof (dropWhile_first _ _ _ _ E) as Hc.
    simpl in H. rewrite dropWhile_app_stop in H by exact Hc.
    destruct (dropWhile isSpace (rev r)); discriminate.
  - intros ->. reflexivity.
Qed.

Lemma blankLoop_spec (d : jsstring) (c : nat) :
  forall i acc b,
    blankLoop d i c acc b
    = (ls <- collectLines d i c ;;
       Done (acc ++ filter (fun l => negb (isBlank l)) ls, b || existsb isBlank ls)).
Proof.
  induction c as [|c IH]; intros i acc b.
  - simpl. now rewrite app_nil_r, orb_false_r.
  - cbn [blankLoop collectLines]. destruct (line d i) as [ln|]; [|reflexivity].
    cbn [bind]. destruct (isBlank (text ln)) eqn:E; rewrite IH;
      (destruct (collectLines d (S i) c) as [rest|]; [|reflexivity]); cbn [bind];
      simpl; rewrite E; simpl.
    + now rewrite orb_true_r.
    + now rewrite <- app_assoc.
Qed.

Lemma removeBlankLines_rangePass (st : EditorState) :
  removeBlankLines st = rangePass blankChange st.
Proof.
  unfold removeBlankLines, rangePass.
  destruct (lineRange st) as [[s e]|]; [|reflexivity]. cbn [bind].
  rewrite blankLoop_spec.
  destruct (collectLines (doc st) s (S e - s)) as [lines|]; [|reflexivity]. cbn [bind].
  unfold blankChange. simpl. now destruct (existsb _ lines).
Qed.

Lemma blankChange_Some (lines new : list jsstring) :
  blankChange lines = Some new ->
  new = filter (fun l => negb (isBlank l)) lines
  /\ exists l, In l lines /\ isBlank l = true.
Proof.
  unfold blankChange. destruct (existsb _ lines) eqn:E; [|discriminate].
  intros [= <-]. split; [reflexivity|]. now apply existsb_exists in E.
Qed.

Lemma blankChange_stable (lines new : list jsstring) :
  blankChange lines = Some new -> blankChange new = None.
Proof.
  intros H. apply blankChange_Some in H as [-> _]. unfold blankChange.
  destruct (existsb _ (filter _ lines)) eqn:E; [|reflexivity].
  apply existsb_exists in E as (l & Hl & Hb).
  apply filter_In in Hl as [_ Hl]. now rewrite Hb in Hl.
Qed.

Lemma blankChange_noLF (lines new : list jsstring) :
  blankChange lines = Some new -> Forall noLF lines -> Forall noLF new.
Proof.
  intros H Hall. apply blankChange_Some in H as [-> _].
  rewrite Forall_forall in *. intros l Hl. apply Hall.
  now apply filter_In in Hl as [Hl _].
Qed.

End BlankLines.

(** X10. When removeBlankLines dispatches, some line of the range was of
    white space only, and the document is left with the lines before the
    range, the lines of the range that are not of white space only, in
    their order, and the lines after it; if no line of the range is
    kept, one empty line stands for the range. *)
Theorem removeBlankLines_effect (st : EditorState) (tr : Transaction) :
  removeBlankLines st = Done (Some tr) ->
  exists a lines b,
    splitLines (doc st) = a ++ lines ++ b
    /\ (exists l, In l lines /\ forallb isSpace l = true)
    /\ let kept := filter (fun l => negb (forallb isSpace l)) lines in
       splitLines (doc (dispatch st tr))
       = a ++ match kept with [] => [[]] | _ :: _ => kept end ++ b.
Proof.
  intros H. rewrite removeBlankLines_rangePass in H.
  destruct (rangePass_inv blankChange eq_refl st tr H)
    as (a & lines & b & new & HL & Hne & Hf & ->).
  pose proof (blankChange_noLF _ _ Hf (range_noLF _ _ _ _ HL)) as Hno.
  destruct (blankChange_Some _ _ Hf) as [-> (l & Hl & Hb)].
  exists a, lines, b. split; [exact HL|]. split.
  - exists l. split; [exact Hl|]. now apply isBlank_iff.
  - cbv zeta. unfold dispatch. cbn [doc changes].
    rewrite (replace_range_lines (doc st) a lines b _ HL Hne Hno).
    assert (Hfil : filter (fun l0 => negb (isBlank l0)) lines
                   = filter (fun l0 => negb (forallb isSpace l0)) lines).
    { apply filter_ext. intros x. f_equal.
      pose proof (isBlank_iff x) as Hx.
      destruct (isBlank x), (forallb isSpace x); try reflexivity.
      - destruct Hx as [Hx _]. now specialize (Hx eq_refl).
      - destruct Hx as [_ Hx]. now specialize (Hx eq_refl). }
    rewrite Hfil. reflexivity.
Qed.

Lemma removeBlankLines_effect_witness :
  exists a lines b,
    splitLines doc_blanks = a ++ lines ++ b
    /\ (exists l, In l lines /\ forallb isSpace l = true)
    /\ let kept := filter (fun l => negb (forallb isSpace l)) lines in
       splitLines
         (doc (dispatch (cursorAt doc_blanks 0 None)
                 (dispatched (removeBlankLines (cursorAt doc_blanks 0 None)))))
       = a ++ match kept with [] => [[]] | _ :: _ => kept end ++ b.
Proof.
  apply (removeBlankLines_effect (cursorAt doc_blanks 0 None)
           (dispatched (removeBlankLines (cursorAt doc_blanks 0 None)))).
  reflexivity.
Defined.

(** X11. A second removeBlankLines, on the state the first has left with
    a selection that is not empty, dispatches nothing. *)
Theorem removeBlankLines_second_pass (st : EditorState) (tr : Transaction) :
  removeBlankLines st = Done (Some tr) ->
  selEmpty (newSelection tr) = false ->
  removeBlankLines (dispatch st tr) = Done None.
Proof.
  rewrite !removeBlankLines_rangePass.
  apply rangePass_second.
  - reflexivity.
  - exact blankChange_stable.
  - exact blankChange_noLF.
Qed.

Lemma removeBlankLines_second_pass_witness :
  removeBlankLines
    (dispatch (cursorAt doc_blanks 0 None)
       (dispatched (removeBlankLines (cursorAt doc_blanks 0 None))))
  = Done None.
Proof.
  apply (removeBlankLines_second_pass (cursorAt doc_blanks 0 None)
           (dispatched (removeBlankLines (cursorAt doc_blanks 0 None)))).
  - reflexivity.
  - reflexivity.
Defined.

(** ** The line of an offset *)

Section LineOfOffset.

Lemma lineIndexAt_Some (ls : list jsstring) (pos k : nat) :
  lineIndexAt ls pos = Some k ->
  k < length ls
  /\ lineStart ls k <= pos <= lineStart ls k + length (nth k ls []).
Proof.
  revert pos k. induction ls as [|l ls IH]; intros pos k H; [discriminate|].
  simpl in H. destruct (Nat.leb_spec pos (length l)).
  - injection H as <-. simpl. lia.
  - destruct (lineIndexAt ls (pos - length l - 1)) as [k'|] eqn:E; [|discriminate].
    simpl in H. injection H as <-.
    destruct (IH _ _ E) as (Hk & Hlo & Hhi). simpl. lia.
Qed.

(** The line [lineAt] gives, in the lines of the document. *)
Lemma lineAt_inv (d : jsstring) (pos : Z) (ln : Line) :
  lineAt d pos = Done ln ->
  exists a b,
    splitLines d = a ++ text ln :: b
    /\ ln = {| from := length (linesBefore a);
               to := length (linesBefore a) + length (text ln);
               number := S (length a);
               text := text ln |}
    /\ (Z.of_nat (length (linesBefore a)) <= pos
        <= Z.of_nat (length (linesBefore a) + length (text ln)))%Z.
Proof.
  unfold lineAt. destruct (Z.ltb_spec pos 0) as [|Hpos]; [discriminate|].
  destruct (lineIndexAt (splitLines d) (Z.to_nat pos)) as [k|] eqn:Ek; [|discriminate].
  intros Hl. destruct (lineIndexAt_Some _ _ _ Ek) as (Hk & Hlo & Hhi).
  destruct (line_Done d (S k) ln Hl) as (_ & _ & Ht).
  replace (S k - 1) with k in Ht by lia.
  destruct (nth_split (splitLines d) [] Hk) as (a & b & HL & Ha).
  rewrite <- Ht in HL. exists a, b. split; [exact HL|].
  rewrite <- Ha in Hl. rewrite (line_after d a (text ln) b HL) in Hl.
  injection Hl as Hl. split; [now rewrite <- Hl|].
  rewrite HL in Hlo, Hhi. rewrite <- Ha in Hlo, Hhi.
  rewrite lineStart_before, nth_middle in *. lia.
Qed.

Lemma length_linesAfter_pos (b : list jsstring) :
  b <> [] -> 1 <= length (linesAfter b).
Proof.
  destruct b as [|x b]; [congruence|]. intros _. unfold linesAfter. simpl. lia.
Qed.

Lemma doc_around_line (d : jsstring) (a : list jsstring) (l : jsstring)
    (b : list jsstring) :
  splitLines d = a ++ l :: b ->
  d = linesBefore a ++ l ++ linesAfter b.
Proof.
  intros HL. rewrite <- (joinLines_splitLines d), HL.
  change (a ++ l :: b) with (a ++ [l] ++ b).
  rewrite (joinLines_range a [l] b) by discriminate. reflexivity.
Qed.

Lemma splitLines_of_lines (ls : list jsstring) (d : jsstring) :
  ls <> [] -> Forall noLF ls -> d = joinLines ls -> splitLines d = ls.
Proof. intros Hne Hall ->. now apply splitLines_joinLines. Qed.

Lemma lines_noLF (d : jsstring) (a : list jsstring) (l : jsstring) (b : list jsstring) :
  splitLines d = a ++ l :: b -> Forall noLF a /\ noLF l /\ Forall noLF b.
Proof.
  intros HL. pose proof (splitLines_noLF d) as Hall. rewrite HL in Hall.
  apply Forall_app in Hall as [Ha Hall]. inversion Hall; subst. auto.
Qed.

Lemma linesAfter_cons (x : jsstring) (b : list jsstring) :
  linesAfter (x :: b) = LF :: x ++ linesAfter b.
Proof. reflexivity. Qed.

(** A text cut after its second part. *)
Lemma cut_after (p l s : jsstring) :
  firstn (length p + length l) (p ++ l ++ s) = p ++ l
  /\ skipn (length p + length l) (p ++ l ++ s) = s.
Proof.
  replace (length p + length l) with (length (p ++ l)) by (rewrite length_app; lia).
  rewrite app_assoc. split.
  - now rewrite firstn_app, firstn_all, Nat.sub_diag, app_nil_r.
  - now rewrite skipn_app, skipn_all, Nat.sub_diag.
Qed.

End LineOfOffset.

(** X12. deleteLine, the cursor on a line that is not the last: the line
    goes with its line break, the lines before and after it stay, and
    the cursor is at the start of the line that followed. On the last
    line only its text goes: the document keeps the line break before
    it and its number of lines, with an empty last line. *)
Theorem deleteLine_effect (st : EditorState) (ln : Line) :
  lineAt (doc st) (selFrom (selection st)) = Done ln ->
  exists a b tr,
    splitLines (doc st) = a ++ text ln :: b
    /\ number ln = S (length a)
    /\ deleteLine st = Done (Some tr)
    /\ splitLines (doc (dispatch st tr))
       = match b with
         | [] => a ++ [[]]
         | _ :: _ => a ++ b
         end
    /\ newSelection tr = cursor (Z.of_nat (length (linesBefore a)))
    /\ lineCount (doc (dispatch st tr))
       = match b with
         | [] => lineCount (doc st)
         | _ :: _ => lineCount (doc st) - 1
         end.
Proof.
  intros Hl. destruct (lineAt_inv _ _ _ Hl) as (a & b & HL & Hln & _).
  pose proof (doc_around_line _ _ _ _ HL) as Hd.
  destruct (lines_noLF _ _ _ _ HL) as (Ha & Hno & Hb).
  assert (Hfrom : from ln = length (linesBefore a)) by (rewrite Hln; reflexivity).
  assert (Hto : to ln = length (linesBefore a) + length (text ln))
    by (rewrite Hln; reflexivity).
  assert (Hlen : length (doc st)
                 = length (linesBefore a) + length (text ln) + length (linesAfter b)).
  { rewrite Hd at 1. rewrite !length_app. lia. }
  unfold deleteLine. rewrite Hl. cbn [bind]. rewrite Hfrom, Hto.
  exists a, b. eexists. split; [exact HL|]. split; [now rewrite Hln|].
  split; [reflexivity|].
  assert (Hdoc : splitLines
                   (doc (dispatch st
                      {| changes :=
                           [{| chFrom := length (linesBefore a);
                               chTo := if length (linesBefore a) + length (text ln)
                                          <? length (doc st)
                                       then length (linesBefore a) + length (text ln) + 1
                                       else length (linesBefore a) + length (text ln);
                               insert := [] |}];
                         newSelection := cursor (Z.of_nat (length (linesBefore a))) |}))
                 = match b with [] => a ++ [[]] | _ :: _ => a ++ b end).
  { unfold dispatch. cbn [doc changes applyChanges chFrom chTo insert].
    rewrite !Nat.sub_0_r. simpl app.
    destruct b as [|x b'].
    - destruct (Nat.ltb_spec (length (linesBefore a) + length (text ln)) (length (doc st)));
        [simpl in Hlen; lia|].
      apply splitLines_of_lines; [now destruct a| |].
      + apply Forall_app. split; [exact Ha|]. constructor; [intros []|constructor].
      + rewrite (joinLines_before a [[]]) by discriminate. simpl joinLines.
        rewrite Hd at 1 2. simpl linesAfter. rewrite !app_nil_r.
        rewrite firstn_app, firstn_all, Nat.sub_diag. simpl firstn. rewrite app_nil_r.
        rewrite skipn_all2; [now rewrite app_nil_r|]. rewrite length_app. lia.
    - destruct (Nat.ltb_spec (length (linesBefore a) + length (text ln)) (length (doc st)));
        [|rewrite linesAfter_cons in Hlen; simpl in Hlen; lia].
      apply splitLines_of_lines; [now destruct a| |].
      + apply Forall_app. split; assumption.
      + rewrite (joinLines_before a (x :: b')) by discriminate.
        rewrite joinLines_head.
        rewrite Hd at 1 2. rewrite linesAfter_cons.
        rewrite firstn_app, firstn_all, Nat.sub_diag. simpl firstn. rewrite app_nil_r.
        f_equal.
        rewrite skipn_app, skipn_all2 by lia. simpl app.
        replace (length (linesBefore a) + length (text ln) + 1 - length (linesBefore a))
          with (length (text ln) + 1) by lia.
        rewrite skipn_app, skipn_all2 by lia. simpl app.
        replace (length (text ln) + 1 - length (text ln)) with 1 by lia.
        reflexivity. }
  split; [exact Hdoc|]. split; [reflexivity|].
  unfold lineCount. rewrite Hdoc, HL. destruct b; rewrite !length_app; simpl; lia.
Qed.

Lemma deleteLine_effect_witness :
  exists a b tr,
    splitLines (doc st_in_two) = a ++ str "two" :: b
    /\ 2 = S (length a)
    /\ deleteLine st_in_two = Done (Some tr)
    /\ splitLines (doc (dispatch st_in_two tr))
       = match b with
         | [] => a ++ [[]]
         | _ :: _ => a ++ b
         end
    /\ newSelection tr = cursor (Z.of_nat (length (linesBefore a)))
    /\ lineCount (doc (dispatch st_in_two tr))
       = match b with
         | [] => lineCount (doc st_in_two)
         | _ :: _ => lineCount (doc st_in_two) - 1
         end.
Proof.
  apply (deleteLine_effect st_in_two
           {| from := 4; to := 7; number := 2; text := str "two" |}).
  reflexivity.
Defined.

(** X13. duplicateLine with an empty selection: the line of the cursor
    comes twice, one copy under the other, the other lines stay, and the
    cursor is at the end of the second copy. *)
Theorem duplicateLine_line (st : EditorState) (ln : Line) :
  lineAt (doc st) (selFrom (selection st)) = Done ln ->
  selEmpty (selection st) = true ->
  exists a b tr,
    splitLines (doc st) = a ++ text ln :: b
    /\ duplicateLine st = Done (Some tr)
    /\ splitLines (doc (dispatch st tr)) = a ++ text ln :: text ln :: b
    /\ newSelection tr
       = cursor (Z.of_nat (length (linesBefore (a ++ [text ln])) + length (text ln))).
Proof.
  intros Hl Hempty. destruct (lineAt_inv _ _ _ Hl) as (a & b & HL & Hln & _).
  pose proof (doc_around_line _ _ _ _ HL) as Hd.
  destruct (lines_noLF _ _ _ _ HL) as (Ha & Hno & Hb).
  assert (Hto : to ln = length (linesBefore a) + length (text ln))
    by (rewrite Hln; reflexivity).
  unfold duplicateLine. rewrite Hl, Hempty. cbn [bind]. rewrite Hto.
  exists a, b. eexists. split; [exact HL|]. split; [reflexivity|]. split.
  - unfold dispatch. cbn [doc changes applyChanges chFrom chTo insert].
    rewrite !Nat.sub_0_r.
    apply splitLines_of_lines; [now destruct a| |].
    + apply Forall_app. split; [exact Ha|]. repeat constructor; assumption.
    + change (a ++ text ln :: text ln :: b) with (a ++ [text ln; text ln] ++ b).
      rewrite (joinLines_range a [text ln; text ln] b) by discriminate.
      rewrite Hd at 1 2.
      destruct (cut_after (linesBefore a) (text ln) (linesAfter b)) as [-> ->].
      simpl joinLines. now rewrite <- !app_assoc.
  - cbn [newSelection]. f_equal. rewrite linesBefore_app, length_app.
    unfold linesBefore. simpl. rewrite !length_app. simpl. lia.
Qed.

Lemma duplicateLine_line_witness :
  exists a b tr,
    splitLines (doc st_in_two) = a ++ str "two" :: b
    /\ duplicateLine st_in_two = Done (Some tr)
    /\ splitLines (doc (dispatch st_in_two tr)) = a ++ str "two" :: str "two" :: b
    /\ newSelection tr
       = cursor (Z.of_nat (length (linesBefore (a ++ [str "two"])) + length (str "two"))).
Proof.
  apply (duplicateLine_line st_in_two
           {| from := 4; to := 7; number := 2; text := str "two" |}).
  - reflexivity.
  - reflexivity.
Defined.

(** ** moveLineUp, moveLineDown *)

Section MoveLines.

(** Two neighbouring lines change places. *)
Lemma swap_changes (p x y s : jsstring) :
  applyChanges 0
    [{| chFrom := length p; chTo := length p + length x; insert := y |};
     {| chFrom := length p + length x + 1;
        chTo := length p + length x + 1 + length y; insert := x |}]
    (p ++ x ++ LF :: y ++ s)
  = p ++ y ++ LF :: x ++ s.
Proof.
  cbn [applyChanges chFrom chTo insert]. rewrite !Nat.sub_0_r.
  rewrite firstn_app, firstn_all, Nat.sub_diag. simpl firstn. rewrite app_nil_r.
  destruct (cut_after p x (LF :: y ++ s)) as [_ ->].
  replace (length p + length x + 1 - (length p + length x)) with 1 by lia.
  replace (length p + length x + 1 + length y - (length p + length x))
    with (S (length y)) by lia.
  simpl firstn. simpl skipn.
  rewrite skipn_app, skipn_all, Nat.sub_diag. simpl.
  rewrite <- ?app_assoc. reflexivity.
Qed.

Lemma doc_around_two (d : jsstring) (a : list jsstring) (x y : jsstring)
    (b : list jsstring) :
  splitLines d = a ++ x :: y :: b ->
  d = linesBefore a ++ x ++ LF :: y ++ linesAfter b.
Proof.
  intros HL. rewrite <- (joinLines_splitLines d), HL.
  change (a ++ x :: y :: b) with (a ++ [x; y] ++ b).
  rewrite (joinLines_range a [x; y] b) by discriminate. simpl joinLines.
  now rewrite <- !app_assoc.
Qed.

Lemma length_linesBefore_snoc (a : list jsstring) (x : jsstring) :
  length (linesBefore (a ++ [x])) = length (linesBefore a) + length x + 1.
Proof.
  rewrite linesBefore_app, length_app. unfold linesBefore. simpl.
  rewrite !length_app. simpl. lia.
Qed.

Lemma swapped_lines (d : jsstring) (a : list jsstring) (x y : jsstring)
    (b : list jsstring) :
  splitLines d = a ++ x :: y :: b ->
  splitLines (linesBefore a ++ y ++ LF :: x ++ linesAfter b) = a ++ y :: x :: b.
Proof.
  intros HL. apply splitLines_of_lines; [now destruct a| |].
  - pose proof (splitLines_noLF d) as Hall. rewrite HL in Hall.
    apply Forall_app in Hall as [Ha Hall].
    inversion Hall as [|? ? Hx Hall']; subst. inversion Hall' as [|? ? Hy Hb]; subst.
    apply Forall_app. split; [exact Ha|]. repeat constructor; assumption.
  - change (a ++ y :: x :: b) with (a ++ [y; x] ++ b).
    rewrite (joinLines_range a [y; x] b) by discriminate. simpl joinLines.
    now rewrite <- !app_assoc.
Qed.

(** moveLineUp with the cursor [col] code units into the line [c] that
    follows the line [p]. *)
Lemma moveLineUp_at (st : EditorState) (a : list jsstring) (p c : jsstring)
    (b : list jsstring) (col : nat) :
  splitLines (doc st) = a ++ p :: c :: b ->
  selFrom (selection st) = Z.of_nat (length (linesBefore (a ++ [p])) + col) ->
  col <= length c ->
  exists tr,
    moveLineUp st = Done (Some tr)
    /\ newSelection tr = cursor (Z.of_nat (length (linesBefore a) + col))
    /\ doc (dispatch st tr) = linesBefore a ++ c ++ LF :: p ++ linesAfter b.
Proof.
  intros HL Hsel Hcol.
  assert (HL' : splitLines (doc st) = (a ++ [p]) ++ c :: b)
    by (rewrite HL, <- app_assoc; reflexivity).
  unfold moveLineUp. rewrite Hsel.
  rewrite (lineAt_after (doc st) (a ++ [p]) c b col HL' Hcol). cbn [bind number].
  rewrite length_app. simpl length.
  destruct (Nat.eqb_spec (S (length a + 1)) 1); [lia|].
  replace (S (length a + 1) - 1) with (S (length a)) by lia.
  rewrite (line_after (doc st) a p (c :: b) HL). cbn [bind from to text].
  eexists. split; [reflexivity|]. split.
  - cbn [newSelection]. f_equal. lia.
  - unfold dispatch. cbn [doc changes].
    rewrite length_linesBefore_snoc.
    rewrite (doc_around_two _ _ _ _ _ HL) at 1.
    apply swap_changes.
Qed.

(** The cursor in its line. *)
Lemma cursor_in_line (d : jsstring) (pos : Z) (ln : Line) :
  lineAt d pos = Done ln ->
  exists a b col,
    splitLines d = a ++ text ln :: b
    /\ number ln = S (length a)
    /\ from ln = length (linesBefore a)
    /\ pos = Z.of_nat (length (linesBefore a) + col)
    /\ col <= length (text ln).
Proof.
  intros Hl. destruct (lineAt_inv _ _ _ Hl) as (a & b & HL & Hln & Hlo & Hhi).
  exists a, b, (Z.to_nat pos - length (linesBefore a)).
  assert (Hn : number ln = S (length a)) by (rewrite Hln; reflexivity).
  assert (Hf : from ln = length (linesBefore a)) by (rewrite Hln; reflexivity).

  split; [exact HL|]. split; [exact Hn|]. split; [exact Hf|]. split; lia.
Qed.

(** The editor on a transaction that makes two neighbouring lines change
    places: the document keeps its length, and the transaction is
    applied when its selection lies in it. *)
Lemma viewDispatch_swap (st : EditorState) (p x y s : jsstring) (sel : Selection) :
  doc st = p ++ x ++ LF :: y ++ s ->
  noCR (doc st) ->
  viewDispatch st
    {| changes :=
         [{| chFrom := length p; chTo := length p + length x; insert := y |};
          {| chFrom := length p + length x + 1;
             chTo := length p + length x + 1 + length y; insert := x |}];
       newSelection := sel |}
  = if selectionInRange (length (doc st)) sel
    then Done {| doc := p ++ y ++ LF :: x ++ s; selection := sel;
                 currentLanguage := currentLanguage st |}
    else RangeError.
Proof.
  intros Hd Hno.
  assert (Hx : storedText x = x).
  { apply normalizeToLF_noCR. intros Hin. apply Hno. rewrite Hd.
    apply in_or_app. right. apply in_or_app. now left. }
  assert (Hy : storedText y = y).
  { apply normalizeToLF_noCR. intros Hin. apply Hno. rewrite Hd.
    apply in_or_app. right. apply in_or_app. right. right.
    apply in_or_app. now left. }
  assert (Hlen : length (doc st)
                 = length p + length x + 1 + length y + length s).
  { rewrite Hd. rewrite !length_app. cbn [length]. rewrite length_app. lia. }
  assert (Hlen' : length (p ++ y ++ LF :: x ++ s) = length (doc st)).
  { rewrite Hlen. rewrite !length_app. cbn [length]. rewrite length_app. lia. }
  unfold viewDispatch.
  cbn [changes forallb map storedChange insert chFrom chTo newSelection].
  unfold changeInRange. cbn [chFrom chTo].
  assert (H1 : (length p <=? length p + length x) = true) by (apply Nat.leb_le; lia).
  assert (H2 : (length p + length x <=? length (doc st)) = true)
    by (apply Nat.leb_le; lia).
  assert (H3 : (length p + length x + 1 <=? length p + length x + 1 + length y) = true)
    by (apply Nat.leb_le; lia).
  assert (H4 : (length p + length x + 1 + length y <=? length (doc st)) = true)
    by (apply Nat.leb_le; lia).
  rewrite H1, H2, H3, H4. cbn [andb].
  unfold storedChange. cbn [chFrom chTo insert].
  rewrite Hx, Hy, <- Hlen', Hd, swap_changes.
  reflexivity.
Qed.

(** The transaction of moveLineUp with the cursor [col] code units into
    the line [c] that follows the line [p]. *)
Lemma moveLineUp_transaction (st : EditorState) (a : list jsstring) (p c : jsstring)
    (b : list jsstring) (col : nat) :
  splitLines (doc st) = a ++ p :: c :: b ->
  selFrom (selection st) = Z.of_nat (length (linesBefore (a ++ [p])) + col) ->
  col <= length c ->
  exists sel,
    moveLineUp st
    = Done (Some {| changes :=
                      [{| chFrom := length (linesBefore a);
                          chTo := length (linesBefore a) + length p; insert := c |};
                       {| chFrom := length (linesBefore a) + length p + 1;
                          chTo := length (linesBefore a) + length p + 1 + length c;
                          insert := p |}];
                    newSelection := sel |})
    /\ sel = cursor (Z.of_nat (length (linesBefore a) + col)).
Proof.
  intros HL Hsel Hcol.
  assert (HL' : splitLines (doc st) = (a ++ [p]) ++ c :: b)
    by (rewrite HL, <- app_assoc; reflexivity).
  unfold moveLineUp. rewrite Hsel.
  rewrite (lineAt_after (doc st) (a ++ [p]) c b col HL' Hcol). cbn [bind number].
  rewrite length_app. simpl length.
  destruct (Nat.eqb_spec (S (length a + 1)) 1); [lia|].
  replace (S (length a + 1) - 1) with (S (length a)) by lia.
  rewrite (line_after (doc st) a p (c :: b) HL). cbn [bind from to text].
  rewrite length_linesBefore_snoc.
  eexists. split; [reflexivity|]. f_equal. lia.
Qed.

(** The transaction of moveLineDown with the cursor [col] code units
    into the line [c] that the line [n] follows. *)
Lemma moveLineDown_transaction (st : EditorState) (a : list jsstring) (c n : jsstring)
    (b : list jsstring) (col : nat) :
  splitLines (doc st) = a ++ c :: n :: b ->
  selFrom (selection st) = Z.of_nat (length (linesBefore a) + col) ->
  col <= length c ->
  exists sel,
    moveLineDown st
    = Done (Some {| changes :=
                      [{| chFrom := length (linesBefore a);
                          chTo := length (linesBefore a) + length c; insert := n |};
                       {| chFrom := length (linesBefore a) + length c + 1;
                          chTo := length (linesBefore a) + length c + 1 + length n;
                          insert := c |}];
                    newSelection := sel |})
    /\ sel = cursor (Z.of_nat (length (linesBefore a) + length c + 1 + col)).
Proof.
  intros HL Hsel Hcol.
  assert (HL' : splitLines (doc st) = (a ++ [c]) ++ n :: b)
    by (rewrite HL, <- app_assoc; reflexivity).
  unfold moveLineDown. rewrite Hsel.
  rewrite (lineAt_after (doc st) a c (n :: b) col HL Hcol). cbn [bind number].
  unfold lineCount. rewrite HL, length_app. simpl length.
  destruct (Nat.eqb_spec (S (length a)) (length a + S (S (length b)))); [lia|].
  replace (S (length a) + 1) with (S (length (a ++ [c])))
    by (rewrite length_app; simpl; lia).
  rewrite (line_after (doc st) (a ++ [c]) n b HL'). cbn [bind from to text].
  rewrite length_linesBefore_snoc.
  eexists. split; [reflexivity|]. f_equal. lia.
Qed.

(** A cursor lies in a document of length [len]. *)
Lemma selectionInRange_cursor (len : nat) (p : Z) :
  selectionInRange len (cursor p) = (0 <=? p)%Z && (p <=? Z.of_nat len)%Z.
Proof.
  unfold selectionInRange, selFrom, selTo, cursor. cbn [anchor head].
  now rewrite Z.min_id, Z.max_id.
Qed.

Lemma length_two_lines (p x y s : jsstring) :
  length (p ++ x ++ LF :: y ++ s) = length p + length x + 1 + length y + length s.
Proof. rewrite !length_app. cbn [length]. rewrite length_app. lia. Qed.

End MoveLines.

(** X14. moveLineUp on the first line dispatches nothing. On another
    line it makes that line and the one before it change places, the
    other lines staying, and puts the cursor on the moved line, as many
    code units from its start as it was. *)
Theorem moveLineUp_effect (st : EditorState) (cur : Line) :
  lineAt (doc st) (selFrom (selection st)) = Done cur ->
  if number cur =? 1 then moveLineUp st = Done None
  else
    exists a p b tr,
      splitLines (doc st) = a ++ p :: text cur :: b
      /\ number cur = S (S (length a))
      /\ moveLineUp st = Done (Some tr)
      /\ splitLines (doc (dispatch st tr)) = a ++ text cur :: p :: b
      /\ exists ln',
           lineAt (doc (dispatch st tr)) (selFrom (newSelection tr)) = Done ln'
           /\ number ln' = S (length a)
           /\ text ln' = text cur
           /\ (selFrom (newSelection tr) - Z.of_nat (from ln')
               = selFrom (selection st) - Z.of_nat (from cur))%Z.
Proof.
  intros Hl. destruct (Nat.eqb_spec (number cur) 1) as [H1|H1].
  - unfold moveLineUp. rewrite Hl. cbn [bind]. now rewrite H1.
  - destruct (cursor_in_line _ _ _ Hl) as (a' & b & col & HL & Hn & Hfrom & Hpos & Hcol).
    destruct (exists_last (l := a')) as (a & p & ->).
    { intros ->. simpl in Hn. congruence. }
    rewrite <- app_assoc in HL. simpl app in HL.
    destruct (moveLineUp_at st a p (text cur) b col HL Hpos Hcol) as (tr & Htr & Hsel & Hdoc).
    exists a, p, b, tr. split; [exact HL|]. split.
    { rewrite Hn, length_app. simpl. lia. }
    split; [exact Htr|].
    pose proof (swapped_lines _ _ _ _ _ HL) as HL2. rewrite <- Hdoc in HL2.
    split; [exact HL2|].
    eexists. rewrite Hsel. unfold selFrom, cursor. cbn [anchor head]. rewrite Z.min_id.
    split; [apply (lineAt_after _ a (text cur) (p :: b) col HL2 Hcol)|].
    cbn [number text from]. repeat split.
    rewrite Hfrom. unfold selFrom in Hpos. rewrite Hpos. lia.
Qed.

Lemma moveLineUp_effect_witness :
  exists a p b tr,
    splitLines (doc st_in_two) = a ++ p :: str "two" :: b
    /\ 2 = S (S (length a))
    /\ moveLineUp st_in_two = Done (Some tr)
    /\ splitLines (doc (dispatch st_in_two tr)) = a ++ str "two" :: p :: b
    /\ exists ln',
         lineAt (doc (dispatch st_in_two tr)) (selFrom (newSelection tr)) = Done ln'
         /\ number ln' = S (length a)
         /\ text ln' = str "two"
         /\ (selFrom (newSelection tr) - Z.of_nat (from ln')
             = selFrom (selection st_in_two) - Z.of_nat 4)%Z.
Proof.
  apply (moveLineUp_effect st_in_two
           {| from := 4; to := 7; number := 2; text := str "two" |}).
  reflexivity.
Defined.

(** X15. moveLineDown on the last line dispatches nothing. On another
    line its transaction makes that line and the one after it change
    places. The new cursor is the old start of the next line plus the
    old column: counted from the start of the moved line in the new
    document, it is the old column plus the length of the moved line
    minus the length of the line it has passed. The editor applies the
    transaction when that cursor lies in the document, that is when the
    column is at most the length of what followed the moved line; when
    it is not, the editor refuses the transaction and nothing moves. *)
Theorem moveLineDown_effect (st : EditorState) (cur : Line) :
  noCR (doc st) ->
  lineAt (doc st) (selFrom (selection st)) = Done cur ->
  if number cur =? lineCount (doc st) then moveLineDown st = Done None
  else
    exists a n b tr,
      splitLines (doc st) = a ++ text cur :: n :: b
      /\ number cur = S (length a)
      /\ moveLineDown st = Done (Some tr)
      /\ (selFrom (newSelection tr) - Z.of_nat (length (linesBefore (a ++ [n])))
          = (selFrom (selection st) - Z.of_nat (from cur))
            + (Z.of_nat (length (text cur)) - Z.of_nat (length n)))%Z
      /\ if (selFrom (selection st) - Z.of_nat (from cur)
             <=? Z.of_nat (length n + length (linesAfter b)))%Z
         then exists st',
                viewDispatch st tr = Done st'
                /\ splitLines (doc st') = a ++ n :: text cur :: b
                /\ selection st' = newSelection tr
         else viewDispatch st tr = RangeError.
Proof.
  intros Hno Hl.
  destruct (cursor_in_line _ _ _ Hl) as (a & b' & col & HL & Hn & Hfrom & Hpos & Hcol).
  destruct (Nat.eqb_spec (number cur) (lineCount (doc st))) as [H1|H1].
  - unfold moveLineDown. rewrite Hl. cbn [bind]. rewrite H1. now rewrite Nat.eqb_refl.
  - destruct b' as [|n b].
    { exfalso. apply H1. unfold lineCount. rewrite Hn, HL, length_app. simpl. lia. }
    destruct (moveLineDown_transaction st a (text cur) n b col HL Hpos Hcol)
      as (sel & Htr & Hsel).
    pose proof (doc_around_two _ _ _ _ _ HL) as Hd.
    pose proof (swapped_lines _ _ _ _ _ HL) as HL2.
    eexists a, n, b, _. split; [exact HL|]. split; [exact Hn|]. split; [exact Htr|].
    cbn [newSelection]. split.
    { rewrite Hsel. unfold selFrom at 1, cursor. cbn [anchor head]. rewrite Z.min_id.
      rewrite Hpos, Hfrom, !length_linesBefore_snoc. lia. }
    rewrite (viewDispatch_swap st _ _ _ _ sel Hd Hno).
    assert (Hlen : length (doc st)
                   = length (linesBefore a) + length (text cur) + 1
                     + length n + length (linesAfter b))
      by (rewrite Hd; apply length_two_lines).
    rewrite Hsel, selectionInRange_cursor, Hlen, Hpos, Hfrom.
    destruct (Z.leb_spec (Z.of_nat (length (linesBefore a) + col)
                          - Z.of_nat (length (linesBefore a)))
                         (Z.of_nat (length n + length (linesAfter b)))) as [Hin|Hout].
    + destruct (Z.leb_spec 0 (Z.of_nat (length (linesBefore a) + length (text cur) + 1 + col)));
        [|lia].
      destruct (Z.leb_spec (Z.of_nat (length (linesBefore a) + length (text cur) + 1 + col))
                           (Z.of_nat (length (linesBefore a) + length (text cur) + 1
                                      + length n + length (linesAfter b)))); [|lia].
      cbn [andb]. eexists. split; [reflexivity|]. cbn [doc selection].
      split; [exact HL2 | reflexivity].
    + destruct (Z.leb_spec (Z.of_nat (length (linesBefore a) + length (text cur) + 1 + col))
                           (Z.of_nat (length (linesBefore a) + length (text cur) + 1
                                      + length n + length (linesAfter b)))); [lia|].
      now rewrite andb_false_r.
Qed.

Lemma moveLineDown_effect_witness :
  exists a n b tr,
    splitLines (doc st_in_two) = a ++ str "two" :: n :: b
    /\ 2 = S (length a)
    /\ moveLineDown st_in_two = Done (Some tr)
    /\ (selFrom (newSelection tr) - Z.of_nat (length (linesBefore (a ++ [n])))
        = (selFrom (selection st_in_two) - Z.of_nat 4)
          + (Z.of_nat (length (str "two")) - Z.of_nat (length n)))%Z
    /\ if (selFrom (selection st_in_two) - Z.of_nat 4
           <=? Z.of_nat (length n + length (linesAfter b)))%Z
       then exists st',
              viewDispatch st_in_two tr = Done st'
              /\ splitLines (doc st') = a ++ n :: str "two" :: b
              /\ selection st' = newSelection tr
       else viewDispatch st_in_two tr = RangeError.
Proof.
  apply (moveLineDown_effect st_in_two
           {| from := 4; to := 7; number := 2; text := str "two" |}).
  - unfold noCR. vm_compute. intuition discriminate.
  - reflexivity.
Defined.

(** X16. moveLineUp and then moveLineDown, the cursor on a line that is
    not the first. The editor applies the transaction of moveLineUp,
    and the two lines change places. moveLineDown then puts its cursor
    at the old column after the start of the line that went down: when
    the column is at most the length of what follows the moved line,
    the editor applies it and the document is as it was; when it is
    not, the editor refuses it and the two lines stay exchanged. *)
Theorem moveLineUp_then_Down (st : EditorState) (cur : Line) :
  noCR (doc st) ->
  lineAt (doc st) (selFrom (selection st)) = Done cur ->
  number cur <> 1 ->
  exists a p b st1,
    splitLines (doc st) = a ++ p :: text cur :: b
    /\ viewRun moveLineUp st = Done st1
    /\ splitLines (doc st1) = a ++ text cur :: p :: b
    /\ if (selFrom (selection st) - Z.of_nat (from cur)
           <=? Z.of_nat (length p + length (linesAfter b)))%Z
       then exists st2, viewRun moveLineDown st1 = Done st2 /\ doc st2 = doc st
       else viewRun moveLineDown st1 = RangeError.
Proof.
  intros Hno Hl H1.
  destruct (cursor_in_line _ _ _ Hl) as (a' & b & col & HL & Hn & Hfrom & Hpos & Hcol).
  destruct (exists_last (l := a')) as (a & p & ->).
  { intros ->. simpl in Hn. congruence. }
  rewrite <- app_assoc in HL. simpl app in HL.
  destruct (moveLineUp_transaction st a p (text cur) b col HL Hpos Hcol)
    as (sel1 & Htr1 & Hsel1).
  pose proof (doc_around_two _ _ _ _ _ HL) as Hd.
  pose proof (swapped_lines _ _ _ _ _ HL) as HL2.
  set (d1 := linesBefore a ++ text cur ++ LF :: p ++ linesAfter b) in *.
  set (st1 := {| doc := d1; selection := sel1; currentLanguage := currentLanguage st |}).
  assert (Hup : viewRun moveLineUp st = Done st1).
  { unfold viewRun. rewrite Htr1. cbn [bind].
    rewrite (viewDispatch_swap st _ _ _ _ sel1 Hd Hno).
    assert (Hlen : length (doc st)
                   = length (linesBefore a) + length p + 1
                     + length (text cur) + length (linesAfter b))
      by (rewrite Hd; apply length_two_lines).
    rewrite Hsel1, selectionInRange_cursor, Hlen.
    destruct (Z.leb_spec 0 (Z.of_nat (length (linesBefore a) + col))); [|lia].
    destruct (Z.leb_spec (Z.of_nat (length (linesBefore a) + col))
                         (Z.of_nat (length (linesBefore a) + length p + 1
                                    + length (text cur) + length (linesAfter b))));
      [|lia].
    cbn [andb]. unfold st1. now rewrite Hsel1. }
  assert (Hno1 : noCR (doc st1)).
  { unfold st1, d1. cbn [doc]. intros Hin. apply Hno. rewrite Hd.
    apply in_app_or in Hin as [Hin|Hin]; [apply in_or_app; now left|].
    apply in_app_or in Hin as [Hin|Hin].
    - apply in_or_app. right. apply in_or_app. right. right.
      apply in_or_app. now left.
    - destruct Hin as [Hin|Hin]; [apply in_or_app; right; apply in_or_app; right; now left|].
      apply in_app_or in Hin as [Hin|Hin].
      + apply in_or_app. right. apply in_or_app. now left.
      + apply in_or_app. right. apply in_or_app. right. right.
        apply in_or_app. now right. }
  assert (Hsel : selFrom (selection st1) = Z.of_nat (length (linesBefore a) + col)).
  { unfold st1. cbn [selection]. rewrite Hsel1. unfold selFrom, cursor.
    cbn [anchor head]. apply Z.min_id. }
  destruct (moveLineDown_transaction st1 a (text cur) p b col HL2 Hsel Hcol)
    as (sel2 & Htr2 & Hsel2).
  exists a, p, b, st1. split; [exact HL|]. split; [exact Hup|]. split; [exact HL2|].
  unfold viewRun. rewrite Htr2. cbn [bind].
  rewrite (viewDispatch_swap st1 _ _ _ _ sel2 eq_refl Hno1).
  assert (Hlen1 : length (doc st1)
                  = length (linesBefore a) + length (text cur) + 1
                    + length p + length (linesAfter b))
    by apply length_two_lines.
  rewrite Hsel2, selectionInRange_cursor, Hlen1.
  rewrite Hpos, Hfrom, length_linesBefore_snoc.
  destruct (Z.leb_spec (Z.of_nat (length (linesBefore a) + length p + 1 + col)
                        - Z.of_nat (length (linesBefore a) + length p + 1))
                       (Z.of_nat (length p + length (linesAfter b)))) as [Hin|Hout].
  - destruct (Z.leb_spec 0 (Z.of_nat (length (linesBefore a) + length (text cur) + 1 + col)));
      [|lia].
    destruct (Z.leb_spec (Z.of_nat (length (linesBefore a) + length (text cur) + 1 + col))
                         (Z.of_nat (length (linesBefore a) + length (text cur) + 1
                                    + length p + length (linesAfter b)))); [|lia].
    cbn [andb]. eexists. split; [reflexivity|]. cbn [doc]. now rewrite Hd.
  - destruct (Z.leb_spec (Z.of_nat (length (linesBefore a) + length (text cur) + 1 + col))
                         (Z.of_nat (length (linesBefore a) + length (text cur) + 1
                                    + length p + length (linesAfter b)))); [lia|].
    now rewrite andb_false_r.
Qed.

Lemma moveLineUp_then_Down_witness :
  exists a p b st1,
    splitLines (doc st_in_two) = a ++ p :: str "two" :: b
    /\ viewRun moveLineUp st_in_two = Done st1
    /\ splitLines (doc st1) = a ++ str "two" :: p :: b
    /\ if (selFrom (selection st_in_two) - Z.of_nat 4
           <=? Z.of_nat (length p + length (linesAfter b)))%Z
       then exists st2, viewRun moveLineDown st1 = Done st2 /\ doc st2 = doc st_in_two
       else viewRun moveLineDown st1 = RangeError.
Proof.
  apply (moveLineUp_then_Down st_in_two
           {| from := 4; to := 7; number := 2; text := str "two" |}).
  - unfold noCR. vm_compute. intuition discriminate.
  - reflexivity.
  - discriminate.
Defined.

(** ** duplicateLine with a selection; goToLine, getCursorPosition *)

Lemma insert_at (d ins : jsstring) (p : nat) :
  applyChanges 0 [{| chFrom := p; chTo := p; insert := ins |}] d
  = firstn p d ++ ins ++ skipn p d.
Proof. cbn [applyChanges chFrom chTo insert]. now rewrite Nat.sub_0_r. Qed.

Lemma substring_inserted (d ins : jsstring) (p : nat) :
  p <= length d ->
  substring p (p + length ins) (firstn p d ++ ins ++ skipn p d) = ins.
Proof.
  intros Hp. unfold substring.
  replace (p + length ins - p) with (length ins) by lia.
  rewrite skipn_app, length_firstn, Nat.min_l by exact Hp.
  rewrite skipn_firstn_comm, Nat.sub_diag. simpl.
  now rewrite firstn_app, firstn_all, Nat.sub_diag, firstn_0, app_nil_r.
Qed.

Lemma length_substring (d : jsstring) (a b : nat) :
  a <= b -> b <= length d -> length (substring a b d) = b - a.
Proof.
  intros Hab Hb. unfold substring. rewrite length_firstn, length_skipn. lia.
Qed.

(** X17. duplicateLine with a selection that is not empty puts a copy
    of the selected text right after the selection, the rest of the
    document staying, and selects the copy: the new selection starts
    where the old one ended and getSelectionInfo gives the same length
    and text as before. *)
Theorem duplicateLine_selection (st : EditorState) :
  wellFormed st ->
  selEmpty (selection st) = false ->
  exists tr,
    duplicateLine st = Done (Some tr)
    /\ doc (dispatch st tr)
       = firstn (Z.to_nat (selTo (selection st))) (doc st)
         ++ snd (getSelectionInfo st)
         ++ skipn (Z.to_nat (selTo (selection st))) (doc st)
    /\ selFrom (selection (dispatch st tr)) = selTo (selection st)
    /\ getSelectionInfo (dispatch st tr) = getSelectionInfo st.
Proof.
  intros [Ha Hh] He.
  assert (Hf : (0 <= selFrom (selection st) <= Z.of_nat (length (doc st)))%Z)
    by (unfold selFrom; lia).
  assert (Ht : (selFrom (selection st) <= selTo (selection st)
                <= Z.of_nat (length (doc st)))%Z)
    by (unfold selFrom, selTo; lia).
  destruct (lineAt_total (doc st) _ Hf) as (ln & Hln & _).
  unfold duplicateLine. rewrite Hln. cbn [bind]. rewrite He.
  eexists. split; [reflexivity|].
  unfold dispatch, getSelectionInfo. cbn [doc selection changes newSelection snd].
  rewrite insert_at.
  remember (sliceString (doc st) (selFrom (selection st)) (selTo (selection st)))
    as s eqn:Es.
  remember (Z.to_nat (selTo (selection st))) as p eqn:Ep.
  assert (Hp : p <= length (doc st)) by lia.
  assert (Hs : length s = p - Z.to_nat (selFrom (selection st))).
  { subst s p. unfold sliceString. apply length_substring; lia. }
  assert (Hmin : selFrom {| anchor := Z.of_nat p; head := Z.of_nat (p + length s) |}
                 = Z.of_nat p) by (unfold selFrom; cbn [anchor head]; lia).
  assert (Hmax : selTo {| anchor := Z.of_nat p; head := Z.of_nat (p + length s) |}
                 = Z.of_nat (p + length s)) by (unfold selTo; cbn [anchor head]; lia).
  rewrite Hmin, Hmax.
  split; [reflexivity|]. split; [lia|]. f_equal.
  - lia.
  - unfold sliceString. rewrite !Nat2Z.id. now apply substring_inserted.
Qed.

Lemma duplicateLine_selection_witness :
  exists tr,
    duplicateLine st_selected = Done (Some tr)
    /\ doc (dispatch st_selected tr)
       = firstn (Z.to_nat (selTo (selection st_selected))) (doc st_selected)
         ++ snd (getSelectionInfo st_selected)
         ++ skipn (Z.to_nat (selTo (selection st_selected))) (doc st_selected)
    /\ selFrom (selection (dispatch st_selected tr)) = selTo (selection st_selected)
    /\ getSelectionInfo (dispatch st_selected tr) = getSelectionInfo st_selected.
Proof.
  apply (duplicateLine_selection st_selected).
  - unfold wellFormed. simpl. lia.
  - reflexivity.
Defined.

Lemma line_start_is_in_line (d : jsstring) (n : nat) :
  1 <= n <= lineCount d ->
  exists ln,
    line d n = Done ln /\ number ln = n
    /\ lineAt d (Z.of_nat (from ln)) = Done ln.
Proof.
  intros [H1 H2]. unfold lineCount in H2.
  assert (Hk : n - 1 < length (splitLines d)) by lia.
  destruct (nth_split (splitLines d) [] Hk) as (a & b & HL & Ha).
  pose proof (line_after d a _ b HL) as Hline.
  pose proof (lineAt_after d a _ b 0 HL (Nat.le_0_l _)) as Hat.
  rewrite Nat.add_0_r in Hat.
  replace (S (length a)) with n in * by lia.
  eexists. split; [exact Hline|]. split; [reflexivity|exact Hat].
Qed.

(** X18. goToLine with an integer outside [1, doc.lines] dispatches
    nothing. With a line number inside, it dispatches, leaves the
    document as it is, and getCursorPosition then gives that line and
    column 1. *)
Theorem goToLine_position (st : EditorState) (n : Z) :
  if ((1 <=? n) && (n <=? Z.of_nat (lineCount (doc st))))%Z
  then exists tr,
         goToLine st n = Done (Some tr)
         /\ doc (dispatch st tr) = doc st
         /\ selEmpty (selection (dispatch st tr)) = true
         /\ getCursorPosition (dispatch st tr) = Done (Z.to_nat n, 1%Z)
  else goToLine st n = Done None.
Proof.
  unfold goToLine.
  destruct (Z.leb_spec 1 n) as [H1|H1]; destruct (Z.leb_spec n (Z.of_nat (lineCount (doc st)))) as [H2|H2];
    cbn [andb];
    destruct (Z.ltb_spec n 1); try lia;
    destruct (Z.gtb_spec n (Z.of_nat (lineCount (doc st)))); try lia;
    cbn [orb]; try reflexivity.
  destruct (line_start_is_in_line (doc st) (Z.to_nat n)) as (ln & Hln & Hn & Hat); [lia|].
  rewrite Hln. cbn [bind]. eexists. split; [reflexivity|].
  unfold dispatch, getCursorPosition, selEmpty.
  cbn [doc selection changes newSelection applyChanges anchor head].
  split; [reflexivity|]. split; [apply Z.eqb_refl|].
  rewrite Hat. cbn [bind]. rewrite Hn. f_equal. f_equal. lia.
Qed.

(** X19. In a state whose head lies inside the document,
    getCursorPosition gives a line of the document and a column from 1
    to the length of that line plus 1, and they fix the head: goToLine
    with that line puts the cursor column - 1 code units before it. *)
Theorem getCursorPosition_goToLine (st : EditorState) :
  (0 <= head (selection st) <= Z.of_nat (length (doc st)))%Z ->
  exists l c ln tr,
    getCursorPosition st = Done (l, c)
    /\ 1 <= l <= lineCount (doc st)
    /\ line (doc st) l = Done ln
    /\ (1 <= c <= Z.of_nat (length (text ln)) + 1)%Z
    /\ goToLine st (Z.of_nat l) = Done (Some tr)
    /\ head (selection st) = (head (newSelection tr) + (c - 1))%Z.
Proof.
  intros Hh. destruct (lineAt_total (doc st) _ Hh) as (ln & Hln & Hn).
  destruct (cursor_in_line _ _ _ Hln) as (a & b & col & HL & Hna & Hfrom & Hpos & Hcol).
  pose proof (line_after (doc st) a _ b HL) as Hline. rewrite <- Hna in Hline.
  unfold getCursorPosition. rewrite Hln. cbn [bind].
  eexists (number ln), _, _, _. split; [reflexivity|]. split; [exact Hn|].
  split; [exact Hline|]. cbn [text]. split; [lia|].
  unfold goToLine.
  destruct (Z.ltb_spec (Z.of_nat (number ln)) 1); [lia|].
  destruct (Z.gtb_spec (Z.of_nat (number ln)) (Z.of_nat (lineCount (doc st)))); [lia|].
  cbn [orb]. rewrite Nat2Z.id, Hline. cbn [bind from].
  split; [reflexivity|]. cbn [newSelection head]. lia.
Qed.

Lemma getCursorPosition_goToLine_witness :
  exists l c ln tr,
    getCursorPosition st_selected = Done (l, c)
    /\ 1 <= l <= lineCount (doc st_selected)
    /\ line (doc st_selected) l = Done ln
    /\ (1 <= c <= Z.of_nat (length (text ln)) + 1)%Z
    /\ goToLine st_selected (Z.of_nat l) = Done (Some tr)
    /\ head (selection st_selected) = (head (newSelection tr) + (c - 1))%Z.
Proof.
  apply (getCursorPosition_goToLine st_selected). simpl. lia.
Defined.

(** ** find, getSearchInfo and the highlights *)


(** X20. When find returns, a getSearchInfo on the state it has left
    returns the same count and index, and the document and the
    selection are as they were; for every engine, search text and
    options. *)
Theorem getSearchInfo_after_find {E : RegExpEngine} (fuel : nat) (st : SearchState)
    (searchText : jsstring) (options : SearchOptions) (st' : SearchState)
    (info : SearchInfo) :
  find fuel st searchText options = Ret (st', info) ->
  getSearchInfo fuel st' = Ret info
  /\ doc (editor st') = doc (editor st)
  /\ selection (editor st') = selection (editor st).
Proof.
  destruct searchText as [|c r].
  - intros H. cbn in H. injection H as <- <-. repeat split.
  - intros H. destruct (find_returns _ _ _ _ _ _ _ H) as (Hd & Hs & Hq & Hc & Hi).
    split; [|split; assumption].
    unfold getSearchInfo. rewrite Hq. cbn [sqSearch sqCaseSensitive sqRegexp sqWholeWord].
    rewrite Hd, Hs.
    replace {| caseSensitive := caseSensitive options; regexp := regexp options;
               wholeWord := wholeWord options |} with options by now destruct options.
    rewrite Hc. cbn [cbind]. rewrite Hi. cbn [cbind]. now destruct info.
Qed.

Lemma getSearchInfo_after_find_witness :
  getSearchInfo (E := referenceEngine) 25 (fst cat_found) = Ret (snd cat_found)
  /\ doc (editor (fst cat_found)) = doc (editor cat_search)
  /\ selection (editor (fst cat_found)) = selection (editor cat_search).
Proof.
  apply (getSearchInfo_after_find (E := referenceEngine) 25 cat_search (str "cat")
           (literalOptions false)).
  vm_compute. reflexivity.
Defined.

Section Highlights.

Variables (len : nat) (c : Z).

(** On matches in ascending order the builder does not throw: every
    match gets its mark. *)
Lemma buildDecorations_sorted (ps : list nat) :
  StronglySorted (fun a b => a + len <= b) ps ->
  forall lastFrom,
    match lastFrom with Some f => Forall (fun p => f <= p) ps | None => True end ->
    buildDecorations c (map (spanOf len) ps) lastFrom
    = Ret (map (decorationOf c len) ps).
Proof.
  induction 1 as [|p ps Hs IH Hp]; intros lastFrom Hl; [reflexivity|].
  cbn [map buildDecorations spanOf spanFrom spanTo].
  assert (Hsorted : match lastFrom with Some f => f <=? p | None => true end = true).
  { destruct lastFrom as [f|]; [|reflexivity].
    apply Nat.leb_le. now inversion Hl. }
  rewrite Hsorted.
  change (map (fun p0 => {| spanFrom := p0; spanTo := p0 + len |}) ps)
    with (map (spanOf len) ps).
  rewrite (IH (Some p)).
  - reflexivity.
  - eapply Forall_impl; [|exact Hp]. simpl. intros a Ha. lia.
Qed.

Lemma sorted_nth (ps : list nat) :
  StronglySorted (fun a b => a + len <= b) ps ->
  forall i j a b, i < j -> nth_error ps i = Some a -> nth_error ps j = Some b ->
                  a + len <= b.
Proof.
  induction 1 as [|p ps Hs IH Hp]; intros i j a b Hij Ha Hb.
  - destruct i; discriminate.
  - destruct j as [|j]; [lia|]. simpl in Hb. destruct i as [|i].
    + simpl in Ha. injection Ha as <-.
      rewrite Forall_forall in Hp. apply Hp. eapply nth_error_In; exact Hb.
    + simpl in Ha. apply (IH i j); [lia|exact Ha|exact Hb].
Qed.

Lemma currentIndexLoop_None (ps : list nat) (i : nat) :
  currentIndexLoop ps len c i = None ->
  Forall (fun p => (Z.of_nat (p + len) < c)%Z) ps.
Proof.
  revert i. induction ps as [|p ps IH]; intros i H; [constructor|].
  rewrite currentIndexLoop_head in H.
  destruct (Z.leb_spec c (Z.of_nat (p + len))); [discriminate|].
  constructor; [assumption|]. now apply (IH (S i)).
Qed.

(** A match the cursor lies in is the current one, or the one after it
    when the cursor is where the two meet; and the cursor lies in the
    current one as well. *)
Lemma selected_is_current (ps : list nat) (k p : nat) :
  1 <= len ->
  StronglySorted (fun a b => a + len <= b) ps ->
  nth_error ps k = Some p ->
  (Z.of_nat p <= c <= Z.of_nat (p + len))%Z ->
  exists p0,
    nth_error ps (currentMatchIndex ps len c - 1) = Some p0
    /\ (Z.of_nat p0 <= c <= Z.of_nat (p0 + len))%Z
    /\ currentMatchIndex ps len c - 1 <= k <= currentMatchIndex ps len c.
Proof.
  intros Hlen Hs Hk Hc. unfold currentMatchIndex.
  destruct (currentIndexLoop ps len c 0) as [n|] eqn:En.
  - pose proof (currentIndexLoop_bounds _ _ _ _ _ En) as Hb.
    destruct (currentMatchIndex_first _ _ _ _ En) as (p0 & Hn & Hle & Hbefore).
    exists p0. split; [exact Hn|].
    assert (Hjk : n - 1 <= k).
    { destruct (Nat.le_gt_cases (n - 1) k) as [|Hlt]; [assumption|].
      specialize (Hbefore k p Hlt Hk). lia. }
    destruct (Nat.eq_dec (n - 1) k) as [Heq|Hne].
    + rewrite Heq, Hk in Hn. injection Hn as <-. split; [exact Hc|lia].
    + assert (H0 : p0 + len <= p) by (apply (sorted_nth ps Hs (n - 1) k); [lia|assumption..]).
      split; [lia|]. split; [exact Hjk|].
      destruct (Nat.le_gt_cases k n) as [|Hgt]; [assumption|].
      assert (Hn' : n < length ps).
      { assert (k < length ps) by (apply nth_error_Some; congruence). lia. }
      destruct (nth_error ps n) as [p1|] eqn:E1;
        [|apply nth_error_None in E1; lia].
      pose proof (sorted_nth ps Hs (n - 1) n p0 p1 ltac:(lia) Hn E1).
      pose proof (sorted_nth ps Hs n k p1 p Hgt E1 Hk).
      lia.
  - apply currentIndexLoop_None in En. rewrite Forall_forall in En.
    specialize (En p (nth_error_In _ _ Hk)). lia.
Qed.

End Highlights.

(** The literal search where the regex of the escaped literal matches
    as [toLowerCase] folds (see [literal_search_spans_folded]): what
    find leaves and returns. *)
Lemma find_literal_highlights_folded {E : RegExpEngine} (st : SearchState)
    (q : jsstring) (cs : bool) (m : Matcher) :
  q <> [] ->
  RegExp_new (escapeRegExp q) (gFlags cs) = Some m ->
  (forall i, i <= length (doc (editor st)) ->
             m (doc (editor st)) i = literalMatcher cs q (doc (editor st)) i) ->
  (Z.of_nat (length (doc (editor st))) < maxArrayLength)%Z ->
  exists st' info,
    find (length (doc (editor st)) + 2) st q (literalOptions cs) = Ret (st', info)
    /\ length (highlights st') = count info
    /\ (if count info =? 0 then currentIndex info = 0
        else 1 <= currentIndex info <= count info)
    /\ forall k d,
         nth_error (highlights st') k = Some d -> decoSelected d = true ->
         exists d0,
           nth_error (highlights st') (currentIndex info - 1) = Some d0
           /\ decoSelected d0 = true
           /\ currentIndex info - 1 <= k <= currentIndex info.
Proof.
  intros Hq Hnew Hm Hroom. set (t := doc (editor st)) in *. set (c := selFrom (selection (editor st))).
  assert (Hfq : foldCase cs q <> []).
  { intros H. apply (f_equal (@length ascii)) in H.
    rewrite length_foldCase in H. destruct q; [congruence|discriminate]. }
  assert (Hlen : 1 <= length q) by (destruct q; [congruence|simpl; lia]).
  destruct (indexOfLoops_scan (foldCase cs t) (foldCase cs q) Hfq
              (length t + 1) (length t + 2) 0 [] 0) as (ps & Hpos & Hcount & Hscan);
    [rewrite length_foldCase; lia|lia|rewrite length_foldCase; cbn [length]; lia|].
  destruct (execLoopSpans_literal t q cs m Hq Hm
              (length t + 1) (length t + 2) 0 []) as (ps' & Hspans & Hscan');
    [lia|lia|lia|cbn [length]; lia|].
  assert (ps' = ps) by (eapply leftmostScan_unique; eassumption). subst ps'.
  pose proof (leftmostScan_sorted _ _ _ _ Hscan) as Hsorted.
  rewrite length_foldCase in Hsorted.
  destruct (getCurrentMatchIndex_literal t q cs c Hq Hroom) as (ps' & Hscan2 & Hidx).
  assert (ps' = ps) by (eapply leftmostScan_unique; eassumption). subst ps'.
  assert (Hcnt : countMatches (length t + 2) t q (literalOptions cs) = Ret (length ps)).
  { rewrite (countMatches_literal _ _ _ _ Hq), Hcount. reflexivity. }
  assert (Hfind : find (length t + 2) st q (literalOptions cs)
                  = Ret ({| editor := {| doc := t; selection := selection (editor st);
                                         currentLanguage := currentLanguage (editor st) |};
                            searchQuery := {| sqSearch := q; sqCaseSensitive := cs;
                                              sqRegexp := false; sqWholeWord := false |};
                            highlights := map (decorationOf c (length q)) ps |},
                         {| count := length ps;
                            currentIndex := currentMatchIndex ps (length q) c |})).
  { rewrite (find_nonempty _ _ _ _ Hq), dispatch_setSearchQuery. cbn [cbind].
    unfold dispatchEffects.
    cbn [doc editor selection highlights currentLanguage searchQuery searchQuery_update
         literalOptions caseSensitive regexp wholeWord].
    rewrite highlight_nonempty by exact Hq.
    unfold highlightSpans, newRegExp.
    cbn [csRegexp csWholeWord csSearch csCaseSensitive csCursorPos].
    rewrite Hnew. cbn [cbind]. fold t. rewrite Hspans. cbn [app cbind].
    fold c. rewrite (buildDecorations_sorted (length q) c ps Hsorted None I).
    cbn [tryCatch cbind doc editor selection].
    fold t. fold c.
    change {| caseSensitive := cs; regexp := false; wholeWord := false |}
      with (literalOptions cs).
    rewrite Hcnt. cbn [cbind]. rewrite Hidx. cbn [cbind]. reflexivity. }
  eexists. eexists. split; [exact Hfind|].
  cbn [highlights count currentIndex]. split; [apply length_map|]. split.
  - destruct ps as [|p ps']; [reflexivity|].
    cbn [length Nat.eqb]. apply currentMatchIndex_bounds. discriminate.
  - intros k d Hk Hd. rewrite nth_error_map in Hk.
    destruct (nth_error ps k) as [p|] eqn:Ek; [|discriminate].
    injection Hk as <-. cbn [decorationOf decoSelected] in Hd.
    apply andb_true_iff in Hd as [H1 H2].
    rewrite Z.geb_leb in H1. apply Z.leb_le in H1. apply Z.leb_le in H2.
    destruct (selected_is_current (length q) c ps k p Hlen Hsorted Ek (conj H1 H2))
      as (p0 & Hn & [Ha Hb] & Hrange).
    exists (decorationOf c (length q) p0). rewrite nth_error_map, Hn.
    split; [reflexivity|]. split; [|exact Hrange].
    cbn [decorationOf decoSelected]. rewrite Z.geb_leb.
    apply andb_true_iff. split; apply Z.leb_le; assumption.
Qed.

(** X21. A case-sensitive literal search with a non-empty text, on an
    engine that compiles an escaped literal to a matcher of it and a
    document whose matches an array can hold: find returns; there are
    as many highlights as the count says; with a match the index is
    between 1 and the count, without one it is 0; and when a highlight
    is marked as selected, the highlight of the current index is marked
    as selected too, and the marked one is that highlight or the next
    one. *)
Theorem find_literal_highlights {E : RegExpEngine} (st : SearchState) (q : jsstring) :
  q <> [] ->
  compilesLiteralsExactly E ->
  (Z.of_nat (length (doc (editor st))) < maxArrayLength)%Z ->
  exists st' info,
    find (length (doc (editor st)) + 2) st q (literalOptions true) = Ret (st', info)
    /\ length (highlights st') = count info
    /\ (if count info =? 0 then currentIndex info = 0
        else 1 <= currentIndex info <= count info)
    /\ forall k d,
         nth_error (highlights st') k = Some d -> decoSelected d = true ->
         exists d0,
           nth_error (highlights st') (currentIndex info - 1) = Some d0
           /\ decoSelected d0 = true
           /\ currentIndex info - 1 <= k <= currentIndex info.
Proof.
  intros Hq HE Hroom. destruct (HE q) as (m & Hnew & Hm).
  exact (find_literal_highlights_folded st q true m Hq Hnew (Hm _) Hroom).
Qed.

Lemma find_literal_highlights_witness :
  exists st' info,
    find (E := referenceEngine) (length (doc (editor cat_search)) + 2) cat_search
      (str "cat") (literalOptions true) = Ret (st', info)
    /\ length (highlights st') = count info
    /\ (if count info =? 0 then currentIndex info = 0
        else 1 <= currentIndex info <= count info)
    /\ forall k d,
         nth_error (highlights st') k = Some d -> decoSelected d = true ->
         exists d0,
           nth_error (highlights st') (currentIndex info - 1) = Some d0
           /\ decoSelected d0 = true
           /\ currentIndex info - 1 <= k <= currentIndex info.
Proof.
  apply (find_literal_highlights (E := referenceEngine) cat_search (str "cat")).
  - discriminate.
  - exact referenceEngine_compilesLiteralsExactly.
  - vm_compute. reflexivity.
Defined.

(** ** What a sort dispatches *)

Section SortEffect.

Variable cmp : jsstring -> jsstring -> Z.
Hypothesis cmp_total : forall a b, (cmp a b <= 0)%Z \/ (cmp b a <= 0)%Z.

Lemma sortLinesWith_effect (st : EditorState) (tr : Transaction) :
  sortLinesWith cmp st = Done (Some tr) ->
  exists a lines b,
    splitLines (doc st) = a ++ lines ++ b
    /\ splitLines (doc (dispatch st tr)) = a ++ arraySort cmp lines ++ b
    /\ Permutation (arraySort cmp lines) lines
    /\ arraySort cmp lines <> lines
    /\ Sorted (fun x y => (cmp x y <= 0)%Z) (arraySort cmp lines)
    /\ newSelection tr
       = {| anchor := Z.of_nat (length (linesBefore a));
            head := Z.of_nat (length (linesBefore a)
                              + length (joinLines (arraySort cmp lines))) |}.
Proof.
  unfold sortLinesWith. intros H.
  destruct (lineRange st) as [[s e]|]; [|discriminate]. cbn [bind] in H.
  destruct (collectLines (doc st) s (S e - s)) as [lines|] eqn:Ec; [|discriminate].
  cbn [bind] in H.
  destruct (someDiffers lines (arraySort cmp lines) 0) eqn:Ed; [|discriminate].
  cbn [negb] in H.
  destruct (line (doc st) s) as [ls|] eqn:Els; [|discriminate]. cbn [bind] in H.
  destruct (line (doc st) e) as [le|] eqn:Ele; [|discriminate]. cbn [bind] in H.
  injection H as <-.
  assert (Hne : lines <> []) by (intros ->; discriminate).
  destruct (range_inv (doc st) s e lines ls le Ec Hne Els Ele)
    as (a & b & HL & _ & _ & Hfrom & Hto).
  pose proof (arraySort_perm cmp lines) as Hperm.
  assert (Hne' : arraySort cmp lines <> []).
  { intros E0. rewrite E0 in Hperm. apply Permutation_nil in Hperm. congruence. }
  exists a, lines, b. split; [exact HL|]. split.
  - unfold dispatch. cbn [doc changes]. rewrite Hfrom, Hto.
    rewrite (replace_range_lines (doc st) a lines b (arraySort cmp lines) HL Hne).
    + destruct (arraySort cmp lines); [congruence|reflexivity].
    + pose proof (splitLines_noLF (doc st)) as Hall. rewrite HL in Hall.
      apply Forall_app in Hall as [_ Hall]. apply Forall_app in Hall as [Hall _].
      rewrite Forall_forall in Hall |- *. intros x Hx. apply Hall.
      eapply Permutation_in; [exact Hperm|exact Hx].
  - split; [exact Hperm|]. split.
    + intros Eq. rewrite Eq, someDiffers_refl in Ed. discriminate.
    + split; [now apply arraySort_sorted|].
      cbn [newSelection]. now rewrite Hfrom.
Qed.

End SortEffect.

(** X22. When sortLinesAscending or sortLinesDescending dispatches, with
    a collation that orders any two strings: the lines of the range have
    given way to the same lines in another arrangement, which is in
    ascending (descending) order of localeCompare; the lines before and
    after the range are as they were, and the new selection goes from
    the start of the range to the end of the sorted lines. *)
Theorem sortLines_effect {C : Collator} (desc : bool) (st : EditorState)
    (tr : Transaction) :
  (forall a b, (localeCompare a b <= 0)%Z \/ (localeCompare b a <= 0)%Z) ->
  (if desc then sortLinesDescending st else sortLinesAscending st) = Done (Some tr) ->
  exists a lines sorted b,
    splitLines (doc st) = a ++ lines ++ b
    /\ splitLines (doc (dispatch st tr)) = a ++ sorted ++ b
    /\ Permutation sorted lines
    /\ sorted <> lines
    /\ Sorted (fun x y => if desc then (localeCompare y x <= 0)%Z
                          else (localeCompare x y <= 0)%Z) sorted
    /\ selFrom (newSelection tr) = Z.of_nat (length (linesBefore a))
    /\ selTo (newSelection tr)
       = Z.of_nat (length (linesBefore a) + length (joinLines sorted)).
Proof.
  intros Htotal H. destruct desc.
  - destruct (sortLinesWith_effect (fun a b => localeCompare b a)
                (fun a b => Htotal b a) st tr H)
      as (a & lines & b & HL & HL' & Hp & Hne & Hs & Hsel).
    exists a, lines, (arraySort (fun a b => localeCompare b a) lines), b.
    repeat (split; [assumption|]).
    rewrite Hsel. unfold selFrom, selTo. cbn [anchor head]. lia.
  - destruct (sortLinesWith_effect (fun a b => localeCompare a b) Htotal st tr H)
      as (a & lines & b & HL & HL' & Hp & Hne & Hs & Hsel).
    exists a, lines, (arraySort (fun a b => localeCompare a b) lines), b.
    repeat (split; [assumption|]).
    rewrite Hsel. unfold selFrom, selTo. cbn [anchor head]. lia.
Qed.

Lemma sortLines_effect_witness :
  exists a lines sorted b,
    splitLines (doc (cursorAt doc_b_a_c 0 None)) = a ++ lines ++ b
    /\ splitLines
         (doc (dispatch (cursorAt doc_b_a_c 0 None)
                 (dispatched (sortLinesDescending (C := referenceCollator)
                                (cursorAt doc_b_a_c 0 None)))))
       = a ++ sorted ++ b
    /\ Permutation sorted lines
    /\ sorted <> lines
    /\ Sorted (fun x y => (compareUnits y x <= 0)%Z) sorted
    /\ selFrom (newSelection
                  (dispatched (sortLinesDescending (C := referenceCollator)
                                 (cursorAt doc_b_a_c 0 None))))
       = Z.of_nat (length (linesBefore a))
    /\ selTo (newSelection
                (dispatched (sortLinesDescending (C := referenceCollator)
                               (cursorAt doc_b_a_c 0 None))))
       = Z.of_nat (length (linesBefore a) + length (joinLines sorted)).
Proof.
  apply (sortLines_effect (C := referenceCollator) true (cursorAt doc_b_a_c 0 None)
           (dispatched (sortLinesDescending (C := referenceCollator)
                          (cursorAt doc_b_a_c 0 None)))).
  - exact compareUnits_total.
  - reflexivity.
Defined.

(** ** Bookmarks *)

Section Bookmarks.

Lemma numHas_In (x : nat) (s : list nat) : numHas x s = true <-> In x s.
Proof.
  unfold numHas. rewrite existsb_exists. split.
  - intros (y & Hy & E). apply Nat.eqb_eq in E. now subst.
  - intros H. exists x. split; [exact H|apply Nat.eqb_refl].
Qed.

Lemma numAdd_In (x y : nat) (s : list nat) : In y (numAdd x s) <-> y = x \/ In y s.
Proof.
  unfold numAdd. destruct (numHas x s) eqn:E.
  - apply numHas_In in E. split; [auto|]. intros [->|H]; assumption.
  - rewrite in_app_iff. simpl. split; intros H.
    + destruct H as [H|[H|[]]]; auto.
    + destruct H as [H|H]; auto.
Qed.

Lemma numAdd_NoDup (x : nat) (s : list nat) : NoDup s -> NoDup (numAdd x s).
Proof.
  intros Hs. unfold numAdd. destruct (numHas x s) eqn:E; [exact Hs|].
  assert (Hx : ~ In x s) by (rewrite <- numHas_In, E; discriminate).
  apply NoDup_app; [exact Hs|repeat constructor; intros []|].
  intros a Ha [<-|[]]. contradiction.
Qed.

Lemma numDelete_In (x y : nat) (s : list nat) :
  In y (numDelete x s) <-> In y s /\ y <> x.
Proof.
  unfold numDelete. rewrite filter_In, negb_true_iff, Nat.eqb_neq. reflexivity.
Qed.

(** The loop over the old bookmarks does not throw when they are line
    numbers from 1 on: each goes to itself, or to the last line when the
    document has fewer lines. *)
Lemma mapBookmarks_clamps (d : jsstring) (bs : list nat) :
  Forall (fun l => 1 <= l) bs ->
  forall acc,
    mapBookmarks d bs acc
    = Done (fold_left (fun a l => numAdd (Nat.min l (lineCount d)) a) bs acc).
Proof.
  induction 1 as [|l bs Hl Hbs IH]; intros acc; [reflexivity|].
  cbn [mapBookmarks fold_left].
  assert (Hc : 1 <= lineCount d).
  { unfold lineCount. pose proof (splitLines_nonempty d).
    destruct (splitLines d); [congruence|simpl; lia]. }
  destruct (line_start_is_in_line d (Nat.min l (lineCount d)))
    as (ln & Hln & Hn & Hat); [lia|].
  rewrite Hln. cbn [bind]. rewrite Hat. cbn [bind]. rewrite Hn. apply IH.
Qed.

Lemma fold_numAdd_In (f : nat -> nat) (bs : list nat) :
  forall acc y,
    In y (fold_left (fun a l => numAdd (f l) a) bs acc)
    <-> In y acc \/ exists b, In b bs /\ y = f b.
Proof.
  induction bs as [|b bs IH]; intros acc y; cbn [fold_left].
  - split; [auto|]. intros [H|(b & [] & _)]. exact H.
  - rewrite IH, numAdd_In. split.
    + intros [[->|H]|(b' & Hb' & ->)].
      * right. exists b. split; [now left|reflexivity].
      * now left.
      * right. exists b'. split; [now right|reflexivity].
    + intros [H|(b' & [<-|Hb'] & ->)].
      * left. now right.
      * left. now left.
      * right. exists b'. split; [exact Hb'|reflexivity].
Qed.

Lemma fold_numAdd_NoDup (f : nat -> nat) (bs : list nat) :
  forall acc, NoDup acc -> NoDup (fold_left (fun a l => numAdd (f l) a) bs acc).
Proof.
  induction bs as [|b bs IH]; intros acc Ha; cbn [fold_left]; [exact Ha|].
  apply IH. now apply numAdd_NoDup.
Qed.

(** Bookmarks that are lines of the document stay as they are. *)
Lemma fold_numAdd_same (n : nat) (bs : list nat) :
  forall acc,
    NoDup (acc ++ bs) -> Forall (fun l => l <= n) bs ->
    fold_left (fun a l => numAdd (Nat.min l n) a) bs acc = acc ++ bs.
Proof.
  induction bs as [|b bs IH]; intros acc Hnd Hall; cbn [fold_left].
  - now rewrite app_nil_r.
  - inversion Hall as [|? ? Hb Hall']; subst.
    rewrite Nat.min_l by exact Hb.
    assert (Hnot : numHas b acc = false).
    { destruct (numHas b acc) eqn:E; [|reflexivity].
      apply numHas_In in E. apply NoDup_remove_2 in Hnd.
      exfalso. apply Hnd. apply in_or_app. now left. }
    unfold numAdd. rewrite Hnot.
    replace (acc ++ b :: bs) with ((acc ++ [b]) ++ bs) in Hnd |- *
      by (rewrite <- app_assoc; reflexivity).
    now apply IH.
Qed.

Lemma update_in_document (d : jsstring) (bs : list nat) :
  NoDup bs -> Forall (fun l => 1 <= l <= lineCount d) bs ->
  mapBookmarks d bs [] = Done bs.
Proof.
  intros Hnd Hall. rewrite mapBookmarks_clamps.
  - f_equal. apply (fold_numAdd_same (lineCount d) bs []); [exact Hnd|].
    eapply Forall_impl; [|exact Hall]. simpl. intros a Ha. lia.
  - eapply Forall_impl; [|exact Hall]. simpl. intros a Ha. lia.
Qed.

(** The sorted bookmarks *)

Variable cmp : nat -> nat -> Z.
Hypothesis cmp_total : forall a b, (cmp a b <= 0)%Z \/ (cmp b a <= 0)%Z.
Hypothesis cmp_trans :
  forall a b c, (cmp a b <= 0)%Z -> (cmp b c <= 0)%Z -> (cmp a c <= 0)%Z.

Lemma insertNumber_perm (x : nat) (l : list nat) :
  Permutation (insertNumber cmp x l) (x :: l).
Proof.
  induction l as [|y l IH]; simpl; [reflexivity|].
  destruct (cmp x y <=? 0)%Z; [reflexivity|].
  rewrite IH. apply perm_swap.
Qed.

Lemma sortNumbers_perm (l : list nat) : Permutation (sortNumbers cmp l) l.
Proof.
  induction l as [|x l IH]; simpl; [constructor|].
  rewrite insertNumber_perm. now constructor.
Qed.

Lemma insertNumber_sorted (x : nat) (l : list nat) :
  StronglySorted (fun a b => (cmp a b <= 0)%Z) l ->
  StronglySorted (fun a b => (cmp a b <= 0)%Z) (insertNumber cmp x l).
Proof.
  induction 1 as [|y l Hl IH Hy]; simpl.
  - repeat constructor.
  - destruct (Z.leb_spec (cmp x y) 0) as [Hle|Hgt].
    + constructor; [now constructor|]. constructor; [exact Hle|].
      eapply Forall_impl; [|exact Hy]. simpl. intros a Ha. now apply (cmp_trans x y a).
    + constructor; [exact IH|].
      rewrite Forall_forall. intros a Ha.
      apply (Permutation_in _ (insertNumber_perm x l)) in Ha. destruct Ha as [<-|Ha].
      * destruct (cmp_total y x); [assumption|lia].
      * rewrite Forall_forall in Hy. now apply Hy.
Qed.

Lemma sortNumbers_sorted (l : list nat) :
  StronglySorted (fun a b => (cmp a b <= 0)%Z) (sortNumbers cmp l).
Proof.
  induction l as [|x l IH]; simpl; [constructor|]. now apply insertNumber_sorted.
Qed.

(** What [find] gives on a sorted array: the first in the order of the
    comparator among the elements that the test accepts. *)
Lemma find_sorted_first (p : nat -> bool) (s : list nat) (l : nat) :
  StronglySorted (fun a b => (cmp a b <= 0)%Z) s ->
  List.find p s = Some l ->
  In l s /\ p l = true /\ forall b, In b s -> p b = true -> (cmp l b <= 0)%Z.
Proof.
  induction 1 as [|x s Hs IH Hx]; intros Hf; [discriminate|].
  simpl in Hf. destruct (p x) eqn:Ep.
  - injection Hf as <-. split; [now left|]. split; [exact Ep|].
    intros b [<-|Hb] _.
    + destruct (cmp_total x x); assumption.
    + rewrite Forall_forall in Hx. now apply Hx.
  - destruct (IH Hf) as (Hin & Hp & Hfirst). split; [now right|]. split; [exact Hp|].
    intros b [<-|Hb] Hpb; [congruence|]. now apply Hfirst.
Qed.

Lemma find_none_false (p : nat -> bool) (s : list nat) :
  List.find p s = None -> forall b, In b s -> p b = false.
Proof. intros Hf b Hb. now apply (List.find_none _ _ Hf). Qed.

Lemma sorted_head_first (s : list nat) :
  s <> [] ->
  StronglySorted (fun a b => (cmp a b <= 0)%Z) s ->
  In (nth 0 s 0) s /\ forall b, In b s -> (cmp (nth 0%nat s 0%nat) b <= 0)%Z.
Proof.
  intros Hne Hs. destruct s as [|x s]; [congruence|]. simpl nth.
  split; [now left|]. inversion Hs as [|? ? _ Hx]; subst.
  intros b [<-|Hb].
  - destruct (cmp_total x x); assumption.
  - rewrite Forall_forall in Hx. now apply Hx.
Qed.

(** The jump of nextBookmark and previousBookmark. *)
Lemma jumpToBookmark_target (wanted : nat -> nat -> bool) (st : BookmarkedState)
    (cur : Line) :
  bookmarksInDocument st ->
  bookmarks st <> [] ->
  lineAt (doc (bmEditor st)) (head (selection (bmEditor st))) = Done cur ->
  exists st' l,
    jumpToBookmark cmp wanted st = Done st'
    /\ doc (bmEditor st') = doc (bmEditor st)
    /\ bookmarks st' = bookmarks st
    /\ getCursorPosition (bmEditor st') = Done (l, 1%Z)
    /\ selEmpty (selection (bmEditor st')) = true
    /\ In l (bookmarks st)
    /\ (forall b, In b (bookmarks st) -> wanted b (number cur) = true ->
        wanted l (number cur) = true /\ (cmp l b <= 0)%Z)
    /\ ((forall b, In b (bookmarks st) -> wanted b (number cur) = false) ->
        forall b, In b (bookmarks st) -> (cmp l b <= 0)%Z).
Proof.
  intros [Hnd Hall] Hne Hcur. unfold jumpToBookmark. rewrite Hcur. cbn [bind].
  destruct (bookmarks st) as [|b0 bs] eqn:Eb; [congruence|]. rewrite <- Eb in *.
  set (s := sortNumbers cmp (bookmarks st)).
  pose proof (sortNumbers_perm (bookmarks st)) as Hperm. fold s in Hperm.
  pose proof (sortNumbers_sorted (bookmarks st)) as Hsorted. fold s in Hsorted.
  assert (Hs : s <> []).
  { intros E0. rewrite E0 in Hperm. apply Permutation_nil in Hperm. congruence. }
  set (l := match List.find (fun l => wanted l (number cur)) s with
            | Some l => l
            | None => nth 0 s 0
            end).
  assert (Hl : In l (bookmarks st)
               /\ (forall b, In b (bookmarks st) -> wanted b (number cur) = true ->
                   wanted l (number cur) = true /\ (cmp l b <= 0)%Z)
               /\ ((forall b, In b (bookmarks st) -> wanted b (number cur) = false) ->
                   forall b, In b (bookmarks st) -> (cmp l b <= 0)%Z)).
  { subst l. destruct (List.find (fun l => wanted l (number cur)) s) as [l|] eqn:Ef.
    - destruct (find_sorted_first _ s l Hsorted Ef) as (Hin & Hp & Hfirst).
      split; [now apply (Permutation_in _ Hperm)|]. split.
      + intros b Hb Hw. split; [exact Hp|]. apply Hfirst; [|exact Hw].
        now apply (Permutation_in _ (Permutation_sym Hperm)).
      + intros Hno. rewrite (Hno l) in Hp; [discriminate|].
        now apply (Permutation_in _ Hperm).
    - destruct (sorted_head_first s Hs Hsorted) as (Hin & Hfirst).
      split; [now apply (Permutation_in _ Hperm)|]. split.
      + intros b Hb Hw. pose proof (find_none_false _ _ Ef b) as Hn. cbv beta in Hn.
        rewrite Hn in Hw; [discriminate|].
        now apply (Permutation_in _ (Permutation_sym Hperm)).
      + intros _ b Hb. apply Hfirst.
        now apply (Permutation_in _ (Permutation_sym Hperm)). }
  destruct Hl as (Hin & Hwanted & Hfirst).
  assert (Hrange : 1 <= l <= lineCount (doc (bmEditor st))).
  { rewrite Forall_forall in Hall. now apply Hall. }
  destruct (line_start_is_in_line (doc (bmEditor st)) l Hrange) as (ln & Hln & Hn & Hat).
  rewrite Hln. cbn [bind]. unfold bmDispatch, bookmarkState_update, dispatch.
  cbn [doc changes applyChanges newSelection].
  rewrite (update_in_document _ _ Hnd Hall). cbn [bind bookmarkEffects].
  exists {| bmEditor := {| doc := doc (bmEditor st);
                           selection := {| anchor := Z.of_nat (from ln);
                                           head := Z.of_nat (from ln) |};
                           currentLanguage := currentLanguage (bmEditor st) |};
            bookmarks := bookmarks st |}, l.
  split; [reflexivity|]. cbn [bmEditor doc bookmarks selection].
  split; [reflexivity|]. split; [reflexivity|]. split.
  - unfold getCursorPosition. cbn [doc selection head]. rewrite Hat. cbn [bind].
    rewrite Hn. do 2 f_equal. lia.
  - split; [apply Z.eqb_refl|]. split; [exact Hin|]. split; assumption.
Qed.

End Bookmarks.

(** X23. The update of the bookmark field, on bookmarks that are line
    numbers from 1 on and for a transaction without bookmark effects,
    does not throw, and what it gives depends on the new document by the
    number of its lines only: a bookmark keeps its line number, whatever
    has been inserted or deleted before it, and a bookmark beyond the
    end goes to the last line. The new bookmarks are lines of the new
    document, each once. *)
Theorem bookmarkState_update_clamps (bs : list nat) (d : jsstring) :
  Forall (fun l => 1 <= l) bs ->
  exists bs',
    bookmarkState_update bs d [] = Done bs'
    /\ (forall l, In l bs' <-> exists b, In b bs /\ l = Nat.min b (lineCount d))
    /\ NoDup bs'
    /\ Forall (fun l => 1 <= l <= lineCount d) bs'.
Proof.
  intros Hall. unfold bookmarkState_update.
  rewrite (mapBookmarks_clamps d bs Hall []). cbn [bind bookmarkEffects].
  eexists. split; [reflexivity|].
  assert (Hin : forall l,
             In l (fold_left (fun a l0 => numAdd (Nat.min l0 (lineCount d)) a) bs [])
             <-> exists b, In b bs /\ l = Nat.min b (lineCount d)).
  { intros l. rewrite (fold_numAdd_In (fun b => Nat.min b (lineCount d)) bs [] l).
    split; [intros [[]|H]; exact H|intros H; now right]. }
  split; [exact Hin|]. split.
  - apply (fold_numAdd_NoDup (fun b => Nat.min b (lineCount d))). constructor.
  - rewrite Forall_forall. intros l Hl. apply Hin in Hl as (b & Hb & ->).
    rewrite Forall_forall in Hall. specialize (Hall b Hb).
    assert (Hc : 1 <= lineCount d).
    { unfold lineCount. pose proof (splitLines_nonempty d).
      destruct (splitLines d); [congruence|simpl; lia]. }
    lia.
Qed.

Lemma bookmarkState_update_clamps_witness :
  exists bs',
    bookmarkState_update [3; 1; 7] doc_a_b_a [] = Done bs'
    /\ (forall l, In l bs' <-> exists b, In b [3; 1; 7]
                                         /\ l = Nat.min b (lineCount doc_a_b_a))
    /\ NoDup bs'
    /\ Forall (fun l => 1 <= l <= lineCount doc_a_b_a) bs'.
Proof.
  apply (bookmarkState_update_clamps [3; 1; 7] doc_a_b_a).
  repeat constructor; lia.
Defined.

(** X24. toggleBookmark, the bookmarks being lines of the document and
    the head inside it: the line of the head is bookmarked afterwards
    exactly when it was not before, every other line is as it was, and
    the editor state is untouched; toggleBookmark a second time gives
    the bookmarks of the start. *)
Theorem toggleBookmark_twice (st : BookmarkedState) (cur : Line) :
  bookmarksInDocument st ->
  lineAt (doc (bmEditor st)) (head (selection (bmEditor st))) = Done cur ->
  exists st1 st2,
    toggleBookmark st = Done st1
    /\ toggleBookmark st1 = Done st2
    /\ bmEditor st1 = bmEditor st
    /\ bmEditor st2 = bmEditor st
    /\ bookmarksInDocument st1
    /\ (In (number cur) (bookmarks st1) <-> ~ In (number cur) (bookmarks st))
    /\ (forall l, l <> number cur ->
                  (In l (bookmarks st1) <-> In l (bookmarks st)))
    /\ (forall l, In l (bookmarks st2) <-> In l (bookmarks st)).
Proof.
  intros [Hnd Hall] Hcur.
  assert (Hnum : 1 <= number cur <= lineCount (doc (bmEditor st))).
  { unfold lineAt in Hcur.
    destruct (head (selection (bmEditor st)) <? 0)%Z; [discriminate|].
    destruct (lineIndexAt _ _); [|discriminate].
    destruct (line_Done _ _ _ Hcur) as (Hr & Hn & _). lia. }
  set (toggled := fun bs : list nat =>
                    if numHas (number cur) bs then numDelete (number cur) bs
                    else numAdd (number cur) bs).
  assert (Htog_in : forall bs l,
             In l (toggled bs)
             <-> (l = number cur /\ ~ In l bs) \/ (l <> number cur /\ In l bs)).
  { intros bs l. unfold toggled. destruct (numHas (number cur) bs) eqn:E.
    - apply numHas_In in E. rewrite numDelete_In. split.
      + intros [H1 H2]. right. split; assumption.
      + intros [[-> H]|[H1 H2]]; [contradiction|split; assumption].
    - assert (Hn : ~ In (number cur) bs) by (rewrite <- numHas_In, E; discriminate).
      rewrite numAdd_In. split.
      + intros [->|H]; [left; split; [reflexivity|exact Hn]|].
        right. split; [intros ->; contradiction|exact H].
      + intros [[-> _]|[_ H]]; [now left|now right]. }
  assert (Htog_nd : forall bs, NoDup bs -> NoDup (toggled bs)).
  { intros bs Hbs. unfold toggled. destruct (numHas (number cur) bs).
    - unfold numDelete. now apply NoDup_filter.
    - now apply numAdd_NoDup. }
  assert (Htog_all : forall bs,
             Forall (fun l => 1 <= l <= lineCount (doc (bmEditor st))) bs ->
             Forall (fun l => 1 <= l <= lineCount (doc (bmEditor st))) (toggled bs)).
  { intros bs Hbs. rewrite Forall_forall in Hbs |- *. intros l Hl.
    apply Htog_in in Hl as [[-> _]|[_ Hl]]; [exact Hnum|now apply Hbs]. }
  assert (H1 : toggleBookmark st
               = Done {| bmEditor := bmEditor st; bookmarks := toggled (bookmarks st) |}).
  { unfold toggleBookmark. rewrite Hcur. cbn [bind].
    unfold bmDispatchEffects, bookmarkState_update.
    rewrite (update_in_document _ _ Hnd Hall). reflexivity. }
  assert (H2 : toggleBookmark {| bmEditor := bmEditor st;
                                 bookmarks := toggled (bookmarks st) |}
               = Done {| bmEditor := bmEditor st;
                         bookmarks := toggled (toggled (bookmarks st)) |}).
  { unfold toggleBookmark. cbn [bmEditor bookmarks]. rewrite Hcur. cbn [bind].
    unfold bmDispatchEffects, bookmarkState_update. cbn [bmEditor bookmarks].
    rewrite (update_in_document _ _ (Htog_nd _ Hnd) (Htog_all _ Hall)). reflexivity. }
  eexists. eexists. split; [exact H1|]. split; [exact H2|].
  cbn [bmEditor bookmarks]. split; [reflexivity|]. split; [reflexivity|].
  split; [split; [now apply Htog_nd|now apply Htog_all]|].
  split; [|split].
  - rewrite Htog_in. split.
    + intros [[_ H]|[H _]]; [exact H|congruence].
    + intros H. left. split; [reflexivity|exact H].
  - intros l Hl. rewrite Htog_in. split.
    + intros [[H _]|[_ H]]; [congruence|exact H].
    + intros H. right. split; assumption.
  - intros l. rewrite Htog_in, Htog_in.
    destruct (Nat.eq_dec l (number cur)) as [->|Hne].
    + split.
      * intros [[_ H]|[H _]]; [|congruence].
        destruct (in_dec Nat.eq_dec (number cur) (bookmarks st)) as [Hi|Hi];
          [exact Hi|].
        exfalso. apply H. left. split; [reflexivity|exact Hi].
      * intros H. left. split; [reflexivity|].
        intros [[_ Hn]|[Hn _]]; [contradiction|congruence].
    + split.
      * intros [[H _]|[_ [[H _]|[_ H]]]]; [congruence|congruence|exact H].
      * intros H. right. split; [exact Hne|]. right. split; assumption.
Qed.

Lemma toggleBookmark_twice_witness :
  exists st1 st2,
    toggleBookmark st_bookmarked = Done st1
    /\ toggleBookmark st1 = Done st2
    /\ bmEditor st1 = bmEditor st_bookmarked
    /\ bmEditor st2 = bmEditor st_bookmarked
    /\ bookmarksInDocument st1
    /\ (In 2 (bookmarks st1) <-> ~ In 2 (bookmarks st_bookmarked))
    /\ (forall l, l <> 2 -> (In l (bookmarks st1) <-> In l (bookmarks st_bookmarked)))
    /\ (forall l, In l (bookmarks st2) <-> In l (bookmarks st_bookmarked)).
Proof.
  apply (toggleBookmark_twice st_bookmarked
           {| from := 4; to := 7; number := 2; text := str "two" |}).
  - split; [repeat constructor; simpl; intuition lia|repeat constructor; simpl; lia].
  - reflexivity.
Defined.

(** X25. nextBookmark, with bookmarks that are lines of the document and
    at least one of them: the document and the bookmarks stay, and the
    cursor goes to column 1 of a bookmarked line: the least one after
    the line of the head, or the least one of all when none comes after
    it. *)
Theorem nextBookmark_target (st : BookmarkedState) (cur : Line) :
  bookmarksInDocument st ->
  bookmarks st <> [] ->
  lineAt (doc (bmEditor st)) (head (selection (bmEditor st))) = Done cur ->
  exists st' l,
    nextBookmark st = Done st'
    /\ doc (bmEditor st') = doc (bmEditor st)
    /\ bookmarks st' = bookmarks st
    /\ getCursorPosition (bmEditor st') = Done (l, 1%Z)
    /\ In l (bookmarks st)
    /\ (forall b, In b (bookmarks st) -> number cur < b -> number cur < l <= b)
    /\ ((forall b, In b (bookmarks st) -> b <= number cur) ->
        forall b, In b (bookmarks st) -> l <= b).
Proof.
  intros Hdoc Hne Hcur.
  destruct (jumpToBookmark_target (fun a b => Z.of_nat a - Z.of_nat b)%Z
              ltac:(intros; lia) ltac:(intros; lia)
              (fun l c => c <? l) st cur Hdoc Hne Hcur)
    as (st' & l & Hj & Hd & Hb & Hpos & _ & Hin & Hw & Hf).
  exists st', l. split; [exact Hj|]. repeat (split; [assumption|]). split.
  - intros b Hb' Hlt. destruct (Hw b Hb') as [H1 H2]; [now apply Nat.ltb_lt|].
    apply Nat.ltb_lt in H1. lia.
  - intros Hnone b Hb'. assert (H := Hf (fun b0 Hb0 => proj2 (Nat.ltb_ge _ _) (Hnone b0 Hb0)) b Hb').
    lia.
Qed.

Lemma nextBookmark_target_witness :
  exists st' l,
    nextBookmark st_bookmarked = Done st'
    /\ doc (bmEditor st') = doc (bmEditor st_bookmarked)
    /\ bookmarks st' = bookmarks st_bookmarked
    /\ getCursorPosition (bmEditor st') = Done (l, 1%Z)
    /\ In l (bookmarks st_bookmarked)
    /\ (forall b, In b (bookmarks st_bookmarked) -> 2 < b -> 2 < l <= b)
    /\ ((forall b, In b (bookmarks st_bookmarked) -> b <= 2) ->
        forall b, In b (bookmarks st_bookmarked) -> l <= b).
Proof.
  apply (nextBookmark_target st_bookmarked
           {| from := 4; to := 7; number := 2; text := str "two" |}).
  - split; [repeat constructor; simpl; intuition lia|repeat constructor; simpl; lia].
  - discriminate.
  - reflexivity.
Defined.

(** X26. previousBookmark, with bookmarks that are lines of the document
    and at least one of them: the document and the bookmarks stay, and
    the cursor goes to column 1 of a bookmarked line: the greatest one
    before the line of the head, or the greatest one of all when none
    comes before it. *)
Theorem previousBookmark_target (st : BookmarkedState) (cur : Line) :
  bookmarksInDocument st ->
  bookmarks st <> [] ->
  lineAt (doc (bmEditor st)) (head (selection (bmEditor st))) = Done cur ->
  exists st' l,
    previousBookmark st = Done st'
    /\ doc (bmEditor st') = doc (bmEditor st)
    /\ bookmarks st' = bookmarks st
    /\ getCursorPosition (bmEditor st') = Done (l, 1%Z)
    /\ In l (bookmarks st)
    /\ (forall b, In b (bookmarks st) -> b < number cur -> b <= l < number cur)
    /\ ((forall b, In b (bookmarks st) -> number cur <= b) ->
        forall b, In b (bookmarks st) -> b <= l).
Proof.
  intros Hdoc Hne Hcur.
  destruct (jumpToBookmark_target (fun a b => Z.of_nat b - Z.of_nat a)%Z
              ltac:(intros; lia) ltac:(intros; lia)
              (fun l c => l <? c) st cur Hdoc Hne Hcur)
    as (st' & l & Hj & Hd & Hb & Hpos & _ & Hin & Hw & Hf).
  exists st', l. split; [exact Hj|]. repeat (split; [assumption|]). split.
  - intros b Hb' Hlt. destruct (Hw b Hb') as [H1 H2]; [now apply Nat.ltb_lt|].
    apply Nat.ltb_lt in H1. lia.
  - intros Hnone b Hb'. assert (H := Hf (fun b0 Hb0 => proj2 (Nat.ltb_ge _ _) (Hnone b0 Hb0)) b Hb').
    lia.
Qed.

Lemma previousBookmark_target_witness :
  exists st' l,
    previousBookmark st_bookmarked = Done st'
    /\ doc (bmEditor st') = doc (bmEditor st_bookmarked)
    /\ bookmarks st' = bookmarks st_bookmarked
    /\ getCursorPosition (bmEditor st') = Done (l, 1%Z)
    /\ In l (bookmarks st_bookmarked)
    /\ (forall b, In b (bookmarks st_bookmarked) -> b < 2 -> b <= l < 2)
    /\ ((forall b, In b (bookmarks st_bookmarked) -> 2 <= b) ->
        forall b, In b (bookmarks st_bookmarked) -> b <= l).
Proof.
  apply (previousBookmark_target st_bookmarked
           {| from := 4; to := 7; number := 2; text := str "two" |}).
  - split; [repeat constructor; simpl; intuition lia|repeat constructor; simpl; lia].
  - discriminate.
  - reflexivity.
Defined.

(** ** TabManager *)

Section TabMaps.

Lemma mapKeys_mapSet (k : jsstring) (v : TabData) (m : TabMap) :
  mapKeys (mapSet k v m)
  = if mapHas k m then mapKeys m else mapKeys m ++ [k].
Proof.
  unfold mapHas, mapGet, mapKeys. induction m as [|e r IH]; [reflexivity|].
  cbn [mapSet List.find]. destruct (streq (fst e) k) eqn:E.
  - apply streq_true_iff in E. cbn [map fst]. now rewrite E.
  - cbn [map]. rewrite IH.
    destruct (List.find (fun e0 => streq (fst e0) k) r); reflexivity.
Qed.

Lemma mapHas_In (k : jsstring) (m : TabMap) :
  mapHas k m = true <-> In k (mapKeys m).
Proof.
  unfold mapHas, mapGet, mapKeys. induction m as [|e r IH]; simpl.
  - split; [discriminate|intros []].
  - destruct (streq (fst e) k) eqn:E.
    + apply streq_true_iff in E. split; [now left|reflexivity].
    + rewrite IH. split; [now right|]. intros [H|H]; [|exact H].
      apply streq_true_iff in H. congruence.
Qed.

Lemma mapGet_mapSet (id k : jsstring) (v : TabData) (m : TabMap) :
  mapGet id (mapSet k v m) = if streq k id then Some v else mapGet id m.
Proof.
  unfold mapGet. induction m as [|e r IH]; cbn [mapSet List.find].
  - cbn [fst snd]. destruct (streq k id); reflexivity.
  - destruct (streq (fst e) k) eqn:E.
    + apply streq_true_iff in E. cbn [List.find fst snd]. rewrite E.
      destruct (streq k id); reflexivity.
    + cbn [List.find]. destruct (streq (fst e) id) eqn:E2.
      * destruct (streq k id) eqn:E3; [|reflexivity].
        apply streq_true_iff in E2, E3. subst. rewrite streq_refl in E. discriminate.
      * exact IH.
Qed.

Lemma mapKeys_mapDelete (k : jsstring) (m : TabMap) :
  mapKeys (mapDelete k m) = filter (fun x => negb (streq x k)) (mapKeys m).
Proof.
  unfold mapKeys, mapDelete. induction m as [|e r IH]; [reflexivity|].
  simpl. destruct (streq (fst e) k); simpl; now rewrite IH.
Qed.

Lemma mapGet_mapDelete (id k : jsstring) (m : TabMap) :
  mapGet id (mapDelete k m) = if streq id k then None else mapGet id m.
Proof.
  unfold mapGet, mapDelete. induction m as [|e r IH]; simpl.
  - destruct (streq id k); reflexivity.
  - destruct (streq (fst e) k) eqn:E; simpl.
    + destruct (streq (fst e) id) eqn:E2; [|exact IH].
      apply streq_true_iff in E, E2. subst. rewrite IH. now rewrite streq_refl.
    + destruct (streq (fst e) id) eqn:E2; [|exact IH].
      apply streq_true_iff in E2. subst id. now rewrite E.
Qed.

Lemma mapSet_stored (k : jsstring) (v : TabData) (m : TabMap) :
  tabId v = k ->
  Forall (fun e => tabId (snd e) = fst e) m ->
  Forall (fun e => tabId (snd e) = fst e) (mapSet k v m).
Proof.
  intros Hv. induction 1 as [|e r He Hr IH]; cbn [mapSet].
  - repeat constructor. exact Hv.
  - destruct (streq (fst e) k); constructor; assumption.
Qed.

Lemma mapGet_stored (k : jsstring) (t : TabData) (m : TabMap) :
  Forall (fun e => tabId (snd e) = fst e) m ->
  mapGet k m = Some t -> tabId t = k /\ In k (mapKeys m).
Proof.
  unfold mapGet. intros Hall H.
  destruct (List.find (fun e => streq (fst e) k) m) as [e|] eqn:Ef; [|discriminate].
  injection H as <-. apply find_some in Ef as [Hin E].
  apply streq_true_iff in E. rewrite Forall_forall in Hall. split.
  - now rewrite (Hall e Hin).
  - rewrite <- E. now apply in_map.
Qed.

(** An update of a tab that keeps its id keeps the manager consistent. *)
Lemma updateTab_consistent (id : jsstring) (mutate : TabData -> TabData)
    (m : TabManager) :
  (forall t, tabId (mutate t) = tabId t) ->
  tabsConsistent m -> tabsConsistent (updateTab id mutate m).
Proof.
  intros Hid (Hnd & Hst & Hact). unfold updateTab.
  destruct (mapGet id (tabs m)) as [t|] eqn:Eg; [|repeat split; assumption].
  destruct (mapGet_stored _ _ _ Hst Eg) as [Ht Hin].
  assert (Hk : mapKeys (mapSet id (mutate t) (tabs m)) = mapKeys (tabs m)).
  { rewrite mapKeys_mapSet. now rewrite (proj2 (mapHas_In id (tabs m)) Hin). }
  unfold tabsConsistent. cbn [notify tabs activeTabId]. rewrite Hk.
  split; [exact Hnd|]. split.
  - apply mapSet_stored; [|exact Hst]. now rewrite Hid.
  - destruct (activeTabId m) as [a|]; [exact Hact|].
    rewrite Hact in Eg. discriminate.
Qed.

Lemma call_consistent (m : TabManager) (c : TabCall) :
  tabsConsistent m -> tabsConsistent (call m c).
Proof.
  intros Hm. destruct c as [data id|id|id x|id x y z|id|id]; cbn [call].
  - destruct Hm as (Hnd & Hst & Hact).
    unfold tabsConsistent, addTab. cbn [fst notify tabs activeTabId].
    rewrite mapKeys_mapSet. split; [|split].
    + destruct (mapHas id (tabs m)) eqn:E; [exact Hnd|].
      apply NoDup_app; [exact Hnd|repeat constructor; intros []|].
      intros a Ha [<-|[]]. apply mapHas_In in Ha. congruence.
    + now apply mapSet_stored.
    + destruct (mapHas id (tabs m)) eqn:E; [now apply mapHas_In|].
      apply in_or_app. right. now left.
  - destruct Hm as (Hnd & Hst & Hact).
    unfold tabsConsistent, removeTab. cbn [notify tabs activeTabId].
    rewrite mapKeys_mapDelete. split; [now apply NoDup_filter|]. split.
    { unfold mapDelete. rewrite Forall_forall in Hst |- *.
      intros e He. apply filter_In in He as [He _]. now apply Hst. }
    unfold isActive. destruct (activeTabId m) as [a|] eqn:Ea.
    + destruct (streq a id) eqn:E.
      * set (remaining := filter (fun x => negb (streq x id)) (mapKeys (tabs m))).
        destruct (Nat.ltb_spec 0 (length remaining)) as [Hpos|Hzero].
        -- destruct (nth_error remaining (length remaining - 1)) as [k|] eqn:En.
           ++ eapply nth_error_In. exact En.
           ++ apply nth_error_None in En. lia.
        -- assert (Hr : remaining = []) by (destruct remaining; [reflexivity|simpl in Hzero; lia]).
           subst remaining. rewrite <- mapKeys_mapDelete in Hr.
           unfold mapKeys in Hr. now apply map_eq_nil in Hr.
      * apply filter_In. split; [exact Hact|]. now rewrite E.
    + rewrite Hact. reflexivity.
  - apply updateTab_consistent; [reflexivity|exact Hm].
  - apply updateTab_consistent; [reflexivity|exact Hm].
  - apply updateTab_consistent; [reflexivity|exact Hm].
  - unfold setActiveTab. destruct (mapHas id (tabs m)) eqn:E; [|exact Hm].
    destruct Hm as (Hnd & Hst & Hact). unfold tabsConsistent.
    cbn [notify tabs activeTabId]. split; [exact Hnd|]. split; [exact Hst|].
    now apply mapHas_In.
Qed.

(** What an update leaves of a tab. *)
Lemma updateTab_frame (id : jsstring) (mutate : TabData -> TabData) (m : TabManager) :
  (forall t, tabId (mutate t) = tabId t
             /\ originalContent (mutate t) = originalContent t
             /\ language (mutate t) = language t) ->
  mapKeys (tabs (updateTab id mutate m)) = mapKeys (tabs m)
  /\ activeTabId (updateTab id mutate m) = activeTabId m
  /\ forall k t',
       mapGet k (tabs (updateTab id mutate m)) = Some t' ->
       exists t, mapGet k (tabs m) = Some t
                 /\ tabId t' = tabId t
                 /\ originalContent t' = originalContent t
                 /\ language t' = language t.
Proof.
  intros Hmut. unfold updateTab.
  destruct (mapGet id (tabs m)) as [t|] eqn:Eg.
  - cbn [notify tabs activeTabId]. split; [|split; [reflexivity|]].
    + rewrite mapKeys_mapSet. unfold mapHas. now rewrite Eg.
    + intros k t'. rewrite mapGet_mapSet. destruct (streq id k) eqn:E.
      * apply streq_true_iff in E. subst k. intros H. injection H as <-.
        exists t. split; [exact Eg|]. apply Hmut.
      * intros H. exists t'. repeat split; assumption.
  - split; [reflexivity|]. split; [reflexivity|].
    intros k t' H. exists t'. repeat split; assumption.
Qed.

End TabMaps.

(** X27. After any sequence of calls of addTab, removeTab,
    updateTabContent, updateTabFile, saveTab and setActiveTab on a new
    manager, whatever the ids drawn and given: the tabs have distinct
    ids, each is stored under its own id, and the active id is the id of
    one of the tabs, or null when there is no tab. *)
Theorem tabManager_consistent (calls : list TabCall) :
  tabsConsistent (fold_left call calls newTabManager).
Proof.
  assert (H : forall m, tabsConsistent m -> tabsConsistent (fold_left call calls m)).
  { induction calls as [|c calls IH]; intros m Hm; [exact Hm|].
    cbn [fold_left]. apply IH. now apply call_consistent. }
  apply H. repeat split; constructor.
Qed.

(** X28. A call other than addTab never makes a tab, and never changes
    the id, the original content or the language of one: the ids after
    it are the ids before it in the same order, without the removed one
    for removeTab, and a tab found after it was there before with the
    same three fields. removeTab is also the only one of them that can
    change the active id. *)
Theorem tabManager_frame (m : TabManager) (c : TabCall) :
  isAddTab c = false ->
  mapKeys (tabs (call m c))
  = match c with
    | callRemoveTab id => filter (fun k => negb (streq k id)) (mapKeys (tabs m))
    | _ => mapKeys (tabs m)
    end
  /\ (forall k t',
        getTab k (call m c) = Some t' ->
        exists t, getTab k m = Some t
                  /\ tabId t' = tabId t
                  /\ originalContent t' = originalContent t
                  /\ language t' = language t)
  /\ match c with
     | callRemoveTab _ => True
     | callSetActiveTab id =>
         getActiveTabId (call m c)
         = if mapHas id (tabs m) then Some id else getActiveTabId m
     | _ => getActiveTabId (call m c) = getActiveTabId m
     end.
Proof.
  intros Hc. unfold getTab, getActiveTabId.
  destruct c as [data id|id|id x|id x y z|id|id]; [discriminate| | | | |]; cbn [call].
  - unfold removeTab. cbn [notify tabs]. split; [apply mapKeys_mapDelete|].
    split; [|exact I].
    intros k t'. rewrite mapGet_mapDelete. destruct (streq k id); [discriminate|].
    intros H. exists t'. repeat split; assumption.
  - unfold updateTabContent.
    match goal with
    | |- context [updateTab id ?f m] =>
        destruct (updateTab_frame id f m (fun t => conj eq_refl (conj eq_refl eq_refl)))
          as (Hk & Ha & Hg)
    end.
    split; [exact Hk|split; [exact Hg|exact Ha]].
  - unfold updateTabFile.
    match goal with
    | |- context [updateTab id ?f m] =>
        destruct (updateTab_frame id f m (fun t => conj eq_refl (conj eq_refl eq_refl)))
          as (Hk & Ha & Hg)
    end.
    split; [exact Hk|split; [exact Hg|exact Ha]].
  - unfold saveTab.
    match goal with
    | |- context [updateTab id ?f m] =>
        destruct (updateTab_frame id f m (fun t => conj eq_refl (conj eq_refl eq_refl)))
          as (Hk & Ha & Hg)
    end.
    split; [exact Hk|split; [exact Hg|exact Ha]].
  - unfold setActiveTab. destruct (mapHas id (tabs m)); cbn [notify tabs activeTabId];
      (split; [reflexivity|]); (split; [|reflexivity]);
      intros k t' H; exists t'; repeat split; assumption.
Qed.

Lemma tabManager_frame_witness :
  mapKeys (tabs (call two_tabs (callRemoveTab (str "t2"))))
  = filter (fun k => negb (streq k (str "t2"))) (mapKeys (tabs two_tabs))
  /\ (forall k t',
        getTab k (call two_tabs (callRemoveTab (str "t2"))) = Some t' ->
        exists t, getTab k two_tabs = Some t
                  /\ tabId t' = tabId t
                  /\ originalContent t' = originalContent t
                  /\ language t' = language t)
  /\ True.
Proof.
  apply (tabManager_frame two_tabs (callRemoveTab (str "t2"))). reflexivity.
Defined.

(** ** Languages *)

Lemma objectGet_values (o : ObjectLiteral) (key value : jsstring) :
  objectGet o key = Found value -> In value (map (fun e => str (snd e)) o).
Proof.
  unfold objectGet.
  destruct (List.find (fun e => streq (str (fst e)) key) o) as [e|] eqn:Ef.
  - intros H. injection H as <-. apply find_some in Ef as [Hin _].
    now apply (in_map (fun e0 => str (snd e0))).
  - destruct (existsb _ prototypeKeys); discriminate.
Qed.

(** X29. Whatever the path, a language that detectLanguageFromPath
    finds in its table is one of getSupportedLanguages, has a language
    support in getLanguageExtension, and has a display name of its own
    in getLanguageDisplayName. *)
Theorem detected_language_is_supported (filePath : option jsstring) (lang : jsstring) :
  detectLanguageFromPath filePath = Found lang ->
  In lang getSupportedLanguages
  /\ getLanguageExtension (Some lang) <> []
  /\ exists name, getLanguageDisplayName lang = Found name /\ name <> lang.
Proof.
  intros H.
  assert (Hin : In lang (map (fun e => str (snd e)) languageMap)).
  { unfold detectLanguageFromPath in H. destruct filePath as [[|c p]|]; try discriminate.
    destruct (toLowerCase (last (splitUnit "."%char (c :: p)) [])) as [|x ext];
      [discriminate|].
    now apply objectGet_values in H. }
  assert (Hall : forallb knownLanguage (map (fun e => str (snd e)) languageMap) = true)
    by (vm_compute; reflexivity).
  rewrite forallb_forall in Hall. specialize (Hall lang Hin).
  unfold knownLanguage in Hall.
  apply andb_true_iff in Hall as [Hall Hname].
  apply andb_true_iff in Hall as [Hsup Hext].
  split; [|split].
  - apply existsb_exists in Hsup as (x & Hx & E).
    apply streq_true_iff in E. now subst.
  - intros E. rewrite E in Hext. discriminate.
  - destruct (getLanguageDisplayName lang) as [name| |]; try discriminate.
    exists name. split; [reflexivity|].
    intros ->. rewrite streq_refl in Hname. discriminate.
Qed.

Lemma detected_language_is_supported_witness :
  In (str "rust") getSupportedLanguages
  /\ getLanguageExtension (Some (str "rust")) <> []
  /\ exists name, getLanguageDisplayName (str "rust") = Found name
                  /\ name <> str "rust".
Proof.
  apply (detected_language_is_supported (Some (str "C:/work/v1.2/Main.RS"))).
  reflexivity.
Defined.

(** ** convertToTitleCase *)

Section CaseConversions.





Variable convert : jsstring -> jsstring.
Hypothesis convert_length : forall s, length (convert s) = length s.
Hypothesis convert_idempotent : forall s, convert (convert s) = convert s.


End CaseConversions.

Section TitleCaseInTheEditor.







End TitleCaseInTheEditor.


